(** * boyter/sc: snippet selection and result summarising

    A shallow embedding of [processor/snippet.go] and
    [processor/worker_summarize.go].

    - Go's [int] and [int64] are 64-bit two's complement integers; they
      are embedded as [Z] and every addition and subtraction of the
      source is wrapped by [Int64.wrap].
    - A run-time panic (index out of range, slice bounds out of range)
      is an explicit result, [Panic], of the [outcome] monad.
    - [float64] is Rocq's primitive binary64 float.
    - A Go [map] is an association list with pairwise distinct keys; a
      [range] loop over the map enumerates the list in its order.  Go
      chooses the order anew for every loop: another enumeration of the
      same map is a permutation of the list.
    - [[]byte] is [list byte]; a Go [string] is a [string]. *)

From Stdlib Require Import ZArith Floats Uint63 Strings.Byte Ascii String Permutation Sorted.
From stdpp Require Import gmap strings list sorting.

Local Open Scope Z_scope.

(** ** Machine integers *)

Module Int64.

Definition min_int : Z := - 2 ^ 63.
Definition max_int : Z := 2 ^ 63 - 1.

Definition wrap (z : Z) : Z := (z + 2 ^ 63) mod 2 ^ 64 - 2 ^ 63.

Definition add (a b : Z) : Z := wrap (a + b).
Definition sub (a b : Z) : Z := wrap (a - b).

(** Go's [/] truncates towards zero. *)
Definition quot (a b : Z) : Z := wrap (Z.quot a b).

Definition in_range (z : Z) : Prop := min_int <= z <= max_int.

End Int64.

(** ** Panics *)

Inductive panic : Set :=
| IndexOutOfRange
| SliceBoundsOutOfRange.

Inductive outcome (A : Type) : Type :=
| Ret (a : A)
| Panic (p : panic).

Arguments Ret {A} a.
Arguments Panic {A} p.

Definition bind {A B : Type} (x : outcome A) (k : A -> outcome B) : outcome B :=
  match x with
  | Ret a => k a
  | Panic p => Panic p
  end.

Notation "'let!' x ':=' e 'in' k" := (bind e (fun x => k))
  (at level 10, x name, e at level 100, k at level 200).

(** [l[i]] for a Go slice [l] and an [int] index [i]. *)
Definition index {A : Type} (l : list A) (i : Z) : outcome A :=
  if (i <? 0) || (Z.of_nat (length l) <=? i) then Panic IndexOutOfRange
  else match l !! Z.to_nat i with
       | Some a => Ret a
       | None => Panic IndexOutOfRange
       end.

(** [l[lo:hi]]; the capacity of the slice is taken to be its length. *)
Definition slice {A : Type} (l : list A) (lo hi : Z) : outcome (list A) :=
  if (lo <? 0) || (hi <? lo) || (Z.of_nat (length l) <? hi)
  then Panic SliceBoundsOutOfRange
  else Ret (take (Z.to_nat (hi - lo)) (drop (Z.to_nat lo) l)).

(** ** float64 *)

(** [float64(n)] for an [int] [n]: the nearest binary64 value. *)
Definition float64 (z : Z) : float :=
  if z <? 0 then
    if z =? Int64.min_int
    then PrimFloat.opp (PrimFloat.mul (PrimFloat.of_uint63 (Uint63.of_Z (2 ^ 62)))
                                      (PrimFloat.of_uint63 (Uint63.of_Z 2)))
    else PrimFloat.opp (PrimFloat.of_uint63 (Uint63.of_Z (- z)))
  else PrimFloat.of_uint63 (Uint63.of_Z z).

(** ** sort.Slice *)

(** [sort.Slice] of Go's library, which is not stable.  On slices of at
    most twelve elements it runs an insertion sort: each element in turn
    is swapped towards the front while [less] says it goes before its
    left neighbour.  The embedding is that insertion sort, for slices of
    any length; the sorted prefix is kept reversed, its last element
    first.  On longer slices Go runs a pattern-defeating quicksort, and
    elements that compare equal may come out in another order than
    here.  The theorems below use of it that the result is a
    permutation of the slice and that it is ordered by the comparison,
    never which of two equal elements comes first. *)
Fixpoint insertSorted {A : Type} (less : A -> A -> bool) (x : A) (rprefix : list A) : list A :=
  match rprefix with
  | [] => [x]
  | y :: rest => if less x y then y :: insertSorted less x rest else x :: y :: rest
  end.

Definition sortSlice {A : Type} (less : A -> A -> bool) (data : list A) : list A :=
  reverse (fold_left (fun rprefix x => insertSorted less x rprefix) data []).

(** ** Data model *)

(** [map[string][][]int]: term, then its match ranges, each a [[]int]. *)
Definition matchLocations : Type := list (string * list (list Z)).

Record fileJob : Type := mkFileJob {
  Filename : string;
  Location : string;
  Content : list byte;
  Bytes : Z;
  Score : float;
  MatchLocations : matchLocations
}.

Record Snippet : Type := mkSnippet {
  sContent : string;
  StartPos : Z;
  EndPos : Z
}.

Record relevantV3 : Type := mkRelevantV3 {
  rvWord : string;
  rvStart : Z;
  rvEnd : Z
}.

Record bestMatch : Type := mkBestMatch {
  mStartPos : Z;
  mEndPos : Z;
  mScore : float;
  mRelevant : list relevantV3
}.

(** ** findNearbySpace *)

(** [unicode.IsSpace(rune(b))] for a byte [b]: the Latin-1 white space. *)
Definition isSpace (b : byte) : bool :=
  let n := Byte.to_N b in
  ((9 <=? n) && (n <=? 13) || (n =? 32) || (n =? 133) || (n =? 160))%N.

(** One of the two loops: the positions are read in turn, and the first
    one that holds white space is returned. *)
Fixpoint scanSpace (content : list byte) (positions : list Z) : outcome (option Z) :=
  match positions with
  | [] => Ret None
  | i :: rest =>
      let! c := index content i in
      if isSpace c then Ret (Some i) else scanSpace content rest
  end.

(** The source passes the document [res] and reads [res.Content] only;
    the embedding passes the content. *)
Definition findNearbySpace (content : list byte) (pos distance : Z) : outcome (Z * bool) :=
  let leftDistance := Int64.sub pos distance in
  let leftDistance := if leftDistance <? 0 then 0 else leftDistance in
  (* for i := pos; i >= leftDistance; i-- *)
  let! l := scanSpace content (reverse (seqZ leftDistance (pos - leftDistance + 1))) in
  match l with
  | Some i => Ret (i, true)
  | None =>
      let rightDistance := Int64.add pos distance in
      let rightDistance :=
        if Z.of_nat (length content) <=? rightDistance
        then Z.of_nat (length content) else rightDistance in
      (* for i := pos; i < rightDistance; i++ *)
      let! r := scanSpace content (seqZ pos (rightDistance - pos)) in
      match r with
      | Some i => Ret (i, true)
      | None => Ret (pos, false)
      end
  end.

(** ** extractRelevantV3 *)

(** The inner loop over one term's ranges: [i[0]] and [i[1]] are read
    from each [[]int]. *)
Fixpoint flattenRanges (k : string) (v : list (list Z)) : outcome (list relevantV3) :=
  match v with
  | [] => Ret []
  | i :: rest =>
      let! s := index i 0 in
      let! e := index i 1 in
      let! tl := flattenRanges k rest in
      Ret ({| rvWord := k; rvStart := s; rvEnd := e |} :: tl)
  end.

(** [for k, v := range res.MatchLocations]. *)
Fixpoint flattenLocations (ml : matchLocations) : outcome (list relevantV3) :=
  match ml with
  | [] => Ret []
  | (k, v) :: rest =>
      let! here := flattenRanges k v in
      let! tl := flattenLocations rest in
      Ret (here ++ tl)
  end.

(** Slide left from the anchor [a]: [cands] are the matches before the
    anchor, the nearest first ([j = i-1, i-2, ..., 0]). *)
Fixpoint slideLeft (wrapLength : Z) (a : relevantV3) (cands : list relevantV3)
    (m : bestMatch) : bestMatch :=
  match cands with
  | [] => m
  | c :: rest =>
      let diff := Int64.sub (rvEnd a) (rvStart c) in
      if wrapLength <? diff then m
      else slideLeft wrapLength a rest
             {| mStartPos := rvStart c; mEndPos := mEndPos m;
                mScore := mScore m; mRelevant := mRelevant m ++ [c] |}
  end.

(** Slide right: [cands] are the matches after the anchor, in order. *)
Fixpoint slideRight (wrapLength : Z) (a : relevantV3) (cands : list relevantV3)
    (m : bestMatch) : bestMatch :=
  match cands with
  | [] => m
  | c :: rest =>
      let diff := Int64.sub (rvEnd c) (rvStart a) in
      if wrapLength <? diff then m
      else slideRight wrapLength a rest
             {| mStartPos := mStartPos m; mEndPos := rvEnd c;
                mScore := mScore m; mRelevant := mRelevant m ++ [c] |}
  end.

(** Expand a bracket shorter than [relLength], clamped to the content. *)
Definition padMatch (relLength : Z) (contentLen : Z) (m : bestMatch) : bestMatch :=
  let l := Int64.sub (mEndPos m) (mStartPos m) in
  if l <? relLength then
    let add := Int64.quot (Int64.sub relLength l) 2 in
    let startPos := Int64.sub (mStartPos m) add in
    let endPos := Int64.add (mEndPos m) add in
    let startPos := if startPos <? 0 then 0 else startPos in
    let endPos := if contentLen <? endPos then contentLen else endPos in
    {| mStartPos := startPos; mEndPos := endPos;
       mScore := mScore m; mRelevant := mRelevant m |}
  else m.

(** [documentFrequencies[w]]: a missing key reads as zero. *)
Definition frequencyOf (documentFrequencies : gmap string Z) (w : string) : Z :=
  default 0 (documentFrequencies !! w).

Definition scoreMatch (documentFrequencies : gmap string Z) (a : relevantV3)
    (m : bestMatch) : bestMatch :=
  let score := PrimFloat.add (mScore m) (float64 (Z.of_nat (length (mRelevant m)))) in
  let score := PrimFloat.add score (float64 (Int64.sub (mEndPos m) (mEndPos m))) in
  let score := PrimFloat.div score (float64 (frequencyOf documentFrequencies (rvWord a))) in
  {| mStartPos := mStartPos m; mEndPos := mEndPos m;
     mScore := score; mRelevant := mRelevant m |}.

(** The bracket around the anchor [a] after sliding and padding. *)
Definition bracket (relLength : Z) (content : list byte)
    (before : list relevantV3) (a : relevantV3) (after : list relevantV3) : bestMatch :=
  let wrapLength := Int64.quot relLength 2 in
  let m := {| mStartPos := rvStart a; mEndPos := rvEnd a;
              mScore := PrimFloat.zero; mRelevant := [a] |} in
  let m := slideLeft wrapLength a before m in
  let m := slideRight wrapLength a after m in
  padMatch relLength (Z.of_nat (length content)) m.

(** One turn of the loop over the anchors. *)
Definition anchorMatch (documentFrequencies : gmap string Z) (relLength : Z)
    (content : list byte) (before : list relevantV3) (a : relevantV3)
    (after : list relevantV3) : outcome bestMatch :=
  let m := bracket relLength content before a after in
  let! _ := findNearbySpace content (mStartPos m) 10 in
  let! _ := findNearbySpace content (mEndPos m) 10 in
  Ret (scoreMatch documentFrequencies a m).

(** [for i := 0; i < len(rv3); i++]: [before] holds [rv3[:i]] reversed,
    [rest] holds [rv3[i:]]. *)
Fixpoint slideAnchors (documentFrequencies : gmap string Z) (relLength : Z)
    (content : list byte) (before rest : list relevantV3) : outcome (list bestMatch) :=
  match rest with
  | [] => Ret []
  | a :: after =>
      let! m := anchorMatch documentFrequencies relLength content before a after in
      let! ms := slideAnchors documentFrequencies relLength content (a :: before) after in
      Ret (m :: ms)
  end.

Definition lessStart (a b : relevantV3) : bool := rvStart a <? rvStart b.

Definition moreScore (a b : bestMatch) : bool := PrimFloat.ltb (mScore b) (mScore a).

Definition extractRelevantV3 (res : fileJob) (documentFrequencies : gmap string Z)
    (relLength : Z) (indicator : string) : outcome Snippet :=
  let! rv3 := flattenLocations (MatchLocations res) in
  let rv3 := sortSlice lessStart rv3 in
  let! bestMatches := slideAnchors documentFrequencies relLength (Content res) [] rv3 in
  let bestMatches := sortSlice moreScore bestMatches in
  let! best := index bestMatches 0 in
  let startPos := mStartPos best in
  let endPos := mEndPos best in
  let! body := slice (Content res) startPos endPos in
  Ret {| sContent := String.append indicator
                       (String.append (string_of_list_byte body) indicator);
         StartPos := startPos; EndPos := endPos |}.

(** ** The document-frequency index *)

(** Modelled from the spec: one step of the inner loop of
    [calculateDocumentTermFrequency], which adds the number of ranges
    recorded for a term to the running total of that term. *)
Definition addTerm (freq : gmap string Z) (entry : string * list (list Z)) : gmap string Z :=
  <[entry.1 := frequencyOf freq entry.1 + Z.of_nat (length entry.2)]> freq.

(** Modelled from the spec: the loop of [calculateDocumentTermFrequency]
    over the term keys of one document's match map. *)
Definition addDocument (freq : gmap string Z) (res : fileJob) : gmap string Z :=
  fold_left addTerm (MatchLocations res) freq.

(** Modelled from the spec: [calculateDocumentTermFrequency] is called by
    [formatJson] and [formatDefault] and tested in
    [result_ranker_test.go], but the file that defines it is not among
    the sources.  The spec, section 4.1: for each document, for each
    term key in its match map, add the number of recorded ranges for
    that term to the term's running total; the empty batch gives the
    empty map. *)
Definition calculateDocumentTermFrequency (results : list fileJob) : gmap string Z :=
  fold_left addDocument results ∅.

(** ** The highlight loop of formatJson and formatDefault *)

(** [for _, s := range value]: [s] shares its two cells with the map, so
    the two assignments write into the document's match map.  The result
    is what is appended to [l] and what [value] holds afterwards. *)
Fixpoint highlightRanges (startPos endPos : Z) (value : list (list Z))
    : outcome (list (list Z) * list (list Z)) :=
  match value with
  | [] => Ret ([], [])
  | s :: rest =>
      let! s0 := index s 0 in
      if startPos <=? s0 then
        let! s1 := index s 1 in
        if s1 <=? endPos then
          let s' := <[0%nat := Int64.sub s0 startPos]> s in
          let s' := <[1%nat := Int64.sub s1 startPos]> s' in
          let! r := highlightRanges startPos endPos rest in
          Ret (s' :: r.1, s' :: r.2)
        else
          let! r := highlightRanges startPos endPos rest in
          Ret (r.1, s :: r.2)
      else
        let! r := highlightRanges startPos endPos rest in
        Ret (r.1, s :: r.2)
  end.

(** [for _, value := range res.MatchLocations]. *)
Fixpoint highlightLocations (startPos endPos : Z) (ml : matchLocations)
    : outcome (list (list Z) * matchLocations) :=
  match ml with
  | [] => Ret ([], [])
  | (k, value) :: rest =>
      let! here := highlightRanges startPos endPos value in
      let! r := highlightLocations startPos endPos rest in
      Ret (here.1 ++ r.1, (k, here.2) :: r.2)
  end.

Definition setMatchLocations (res : fileJob) (ml : matchLocations) : fileJob :=
  {| Filename := Filename res; Location := Location res; Content := Content res;
     Bytes := Bytes res; Score := Score res; MatchLocations := ml |}.

(** ** formatJson *)

Record jsonResult : Type := mkJsonResult {
  jFilename : string;
  jLocation : string;
  jContent : string;
  jScore : float;
  jMatchLocations : list (list Z)
}.

(** The body of the loop over the results.  The summarizer indexes the
    result of [extractRelevantV3] with [[0]]; the selector returns one
    snippet, read here as that element.  The document is returned with
    the match map the loop leaves behind. *)
Definition formatJsonResult (documentFrequency : gmap string Z) (SnippetLength : Z)
    (res : fileJob) : outcome (jsonResult * fileJob) :=
  let! v3 := extractRelevantV3 res documentFrequency SnippetLength "…" in
  let! r := highlightLocations (StartPos v3) (EndPos v3) (MatchLocations res) in
  Ret ({| jFilename := Filename res; jLocation := Location res;
          jContent := sContent v3; jScore := Score res;
          jMatchLocations := r.1 |},
       setMatchLocations res r.2).

Fixpoint formatJsonLoop (documentFrequency : gmap string Z) (SnippetLength : Z)
    (results : list fileJob) : outcome (list jsonResult * list fileJob) :=
  match results with
  | [] => Ret ([], [])
  | res :: rest =>
      let! here := formatJsonResult documentFrequency SnippetLength res in
      let! r := formatJsonLoop documentFrequency SnippetLength rest in
      Ret (here.1 :: r.1, here.2 :: r.2)
  end.

(** The records handed to [json.Marshal], and the batch afterwards. *)
Definition formatJson (SnippetLength : Z) (results : list fileJob)
    : outcome (list jsonResult * list fileJob) :=
  let documentFrequency := calculateDocumentTermFrequency results in
  formatJsonLoop documentFrequency SnippetLength results.

(** ** formatDefault *)

(** [for i := 0; i < len(snippets); i++]: each turn runs the highlight
    loop on the match map the turn before left behind.  A snippet with
    [StartPos = EndPos = 0] is printed without highlights. *)
Fixpoint highlightSnippets (snippets : list Snippet) (ml : matchLocations)
    : outcome (list (string * option (list (list Z))) * matchLocations) :=
  match snippets with
  | [] => Ret ([], ml)
  | snip :: rest =>
      let! here := highlightLocations (StartPos snip) (EndPos snip) ml in
      let shown :=
        if (StartPos snip =? 0) && (EndPos snip =? 0) then (sContent snip, None)
        else (sContent snip, Some here.1) in
      let! r := highlightSnippets rest here.2 in
      Ret (shown :: r.1, r.2)
  end.

Definition formatDefaultResult (documentFrequency : gmap string Z) (SnippetLength : Z)
    (SnippetCount : Z) (res : fileJob)
    : outcome (list (string * option (list (list Z))) * fileJob) :=
  let! v3 := extractRelevantV3 res documentFrequency SnippetLength "…" in
  let snippets := [v3] in
  let! snippets :=
    if SnippetCount <? Z.of_nat (length snippets) then slice snippets 0 SnippetCount
    else Ret snippets in
  let! r := highlightSnippets snippets (MatchLocations res) in
  Ret (r.1, setMatchLocations res r.2).

Fixpoint formatDefaultLoop (documentFrequency : gmap string Z) (SnippetLength : Z)
    (SnippetCount : Z) (results : list fileJob)
    : outcome (list (list (string * option (list (list Z)))) * list fileJob) :=
  match results with
  | [] => Ret ([], [])
  | res :: rest =>
      let! here := formatDefaultResult documentFrequency SnippetLength SnippetCount res in
      let! r := formatDefaultLoop documentFrequency SnippetLength SnippetCount rest in
      Ret (here.1 :: r.1, here.2 :: r.2)
  end.

Definition formatDefault (SnippetLength : Z) (SnippetCount : Z) (results : list fileJob)
    : outcome (list (list (string * option (list (list Z)))) * list fileJob) :=
  let documentFrequency := calculateDocumentTermFrequency results in
  formatDefaultLoop documentFrequency SnippetLength SnippetCount results.

(** ** Start *)

Record ResultSummarizer : Type := mkResultSummarizer {
  ResultLimit : Z;
  SnippetCount : Z;
  Format : string
}.

(** [if f.ResultLimit != -1 { if int64(len(results)) > f.ResultLimit {
    results = results[:f.ResultLimit] } }]. *)
Definition limitResults (f : ResultSummarizer) (results : list fileJob)
    : outcome (list fileJob) :=
  if ResultLimit f =? -1 then Ret results
  else if ResultLimit f <? Z.of_nat (length results) then slice results 0 (ResultLimit f)
  else Ret results.

Inductive printed : Type :=
| PrintedJson (records : list jsonResult)
| PrintedDefault (blocks : list (list (string * option (list (list Z))))).

(** What one run of [Start] does, in order: the batch [rankResults] is
    called on, and what the formatter prints. *)
Record run : Type := mkRun {
  rankInput : list fileJob;
  output : printed;
  batchAfter : list fileJob
}.

(** [switch f.Format]: what is printed, and the batch afterwards. *)
Definition formatResults (SnippetLength : Z) (f : ResultSummarizer)
    (results : list fileJob) : outcome (printed * list fileJob) :=
  if String.eqb (Format f) "json" then
    let! r := formatJson SnippetLength results in
    Ret (PrintedJson r.1, r.2)
  else
    let! r := formatDefault SnippetLength (SnippetCount f) results in
    Ret (PrintedDefault r.1, r.2).

Section Start.

(** [rankResults] and the file count of the reader are defined outside
    the sources at hand: [rankResults] scores and sorts the slice it
    is given, in place. *)
Variable rankResults : Z -> list fileJob -> list fileJob.
Variable fileCount : Z.
Variable SnippetLength : Z.

(** [input] is what the channel delivers until it is closed. *)
Definition Start (f : ResultSummarizer) (input : list fileJob) : outcome run :=
  let results := input in
  let! results := limitResults f results in
  let sorted := rankResults fileCount results in
  let! out := formatResults SnippetLength f sorted in
  Ret {| rankInput := results; output := out.1; batchAfter := out.2 |}.

End Start.

(** The batches [rankResults] is called on in a run of [Start], in the
    order of the calls.  The call at line 51 is the only one; it is
    reached when the slice expression before it has not faulted, and it
    comes before the formatter, so it is made whether or not the
    formatter faults afterwards. *)
Definition rankCalls (f : ResultSummarizer) (input : list fileJob)
    : list (list fileJob) :=
  match limitResults f input with
  | Ret results => [results]
  | Panic _ => []
  end.

(** [results] in the call of [rankResults], by the limit and the number
    of documents collected, when the slice expression does not fault. *)
Definition rankedBatch (f : ResultSummarizer) (input : list fileJob) : list fileJob :=
  if (ResultLimit f =? -1) || (Z.of_nat (length input) <=? ResultLimit f)
  then input
  else take (Z.to_nat (ResultLimit f)) input.

(** ** What the anchor loop computes *)

(** The matches the left-hand loop captures for the anchor [a]. *)
Fixpoint leftMembers (wrapLength : Z) (a : relevantV3) (cands : list relevantV3)
    : list relevantV3 :=
  match cands with
  | [] => []
  | c :: rest =>
      if wrapLength <? Int64.sub (rvEnd a) (rvStart c) then []
      else c :: leftMembers wrapLength a rest
  end.

(** The matches the right-hand loop captures. *)
Fixpoint rightMembers (wrapLength : Z) (a : relevantV3) (cands : list relevantV3)
    : list relevantV3 :=
  match cands with
  | [] => []
  | c :: rest =>
      if wrapLength <? Int64.sub (rvEnd c) (rvStart a) then []
      else c :: rightMembers wrapLength a rest
  end.

(** The scored brackets of all anchors, when no turn of the loop
    faults. *)
Fixpoint scoredBrackets (documentFrequencies : gmap string Z) (relLength : Z)
    (content : list byte) (before rest : list relevantV3) : list bestMatch :=
  match rest with
  | [] => []
  | a :: after =>
      scoreMatch documentFrequencies a (bracket relLength content before a after)
      :: scoredBrackets documentFrequencies relLength content (a :: before) after
  end.

(** ** Reading a match map *)

(** [ml[t]]: the ranges recorded for the term [t], none when [t] is not
    a key. *)
Fixpoint termRanges (t : string) (ml : matchLocations) : list (list Z) :=
  match ml with
  | [] => []
  | (k, v) :: rest => if String.eqb k t then v else termRanges t rest
  end.

(** The sum over the batch of the number of ranges recorded for [t]. *)
Fixpoint rangeCountSum (t : string) (results : list fileJob) : Z :=
  match results with
  | [] => 0
  | res :: rest =>
      Z.of_nat (length (termRanges t (MatchLocations res))) + rangeCountSum t rest
  end.

(** Every range of the map, in the order the map is enumerated. *)
Definition allRanges (ml : matchLocations) : list (list Z) :=
  concat (List.map snd ml).

(** The triple [flattenRanges] builds from a range with two cells. *)
Definition rangeMatch (k : string) (r : list Z) : relevantV3 :=
  {| rvWord := k; rvStart := nth 0 r 0; rvEnd := nth 1 r 0 |}.

(** All triples of the map, in the order the map is enumerated. *)
Definition flatMatches (ml : matchLocations) : list relevantV3 :=
  concat (List.map (fun kv => List.map (rangeMatch kv.1) kv.2) ml).

(** The start offsets of all matches of the map. *)
Definition matchStarts (ml : matchLocations) : list Z :=
  List.map rvStart (flatMatches ml).

(** A range that has the two cells the loops read. *)
Definition hasBothEnds (r : list Z) : Prop := (2 <= length r)%nat.

(** A range as the matcher produces it: [[start, end]] with
    [0 <= start <= end], both of them [int]s. *)
Definition validRange (r : list Z) : Prop :=
  exists s e, r = [s; e] /\ 0 <= s <= e /\ e <= Int64.max_int.

Definition validJob (res : fileJob) : Prop :=
  Forall validRange (allRanges (MatchLocations res)).

(** [start >= StartPos && end <= EndPos]. *)
Definition inWindow (startPos endPos : Z) (r : list Z) : bool :=
  match r with
  | s :: e :: _ => (startPos <=? s) && (e <=? endPos)
  | _ => false
  end.

(** The range in window-local coordinates. *)
Definition shiftRange (startPos : Z) (r : list Z) : list Z :=
  match r with
  | s :: e :: tl => (s - startPos) :: (e - startPos) :: tl
  | _ => r
  end.

Definition shiftInWindow (startPos endPos : Z) (r : list Z) : list Z :=
  if inWindow startPos endPos r then shiftRange startPos r else r.

(** ** UTF-8 *)

(** A continuation byte, [10xxxxxx]: never the first byte of a rune. *)
Definition isContinuation (b : byte) : bool :=
  let n := Byte.to_N b in ((128 <=? n) && (n <? 192))%N.

(** Cutting [content] at the byte offset [pos] splits a rune when the
    byte at [pos] continues the rune before it. *)
Definition splitsRune (content : list byte) (pos : Z) : bool :=
  match index content pos with
  | Ret b => isContinuation b
  | Panic _ => false
  end.

(** The keys of a Go map are pairwise distinct. *)
Definition uniqueKeys (res : fileJob) : Prop := NoDup (MatchLocations res).*1.

(** ** calculatePrevCount *)

Definition calculatePrevCount (relLength divisor : Z) : Z :=
  let divisor := if divisor <=? 0 then 6 else divisor in
  let t := Int64.quot relLength divisor in
  if t <=? 0 then 50 else t.

Definition getPrevCount (relLength : Z) : Z := calculatePrevCount relLength 6.

(** ** Ranging over a string *)

(** The text that [subString], [extractRelevantV1] and
    [extractRelevantV2] index and slice is a Go [string]; it is kept
    here as its bytes. *)

Definition byteBetween (lo hi : N) (b : byte) : bool :=
  ((lo <=? Byte.to_N b) && (Byte.to_N b <=? hi))%N.

(** The bytes Go accepts as the second byte of a rune that starts with
    the byte [s0]. *)
Definition acceptsSecond (s0 s1 : byte) : bool :=
  let n0 := Byte.to_N s0 in
  if (n0 =? 0xE0)%N then byteBetween 0xA0 0xBF s1
  else if (n0 =? 0xED)%N then byteBetween 0x80 0x9F s1
  else if (n0 =? 0xF0)%N then byteBetween 0x90 0xBF s1
  else if (n0 =? 0xF4)%N then byteBetween 0x80 0x8F s1
  else byteBetween 0x80 0xBF s1.

(** The number of bytes the rune at the head of [s] takes, as Go decodes
    UTF-8: a byte that does not start a well-formed rune is a rune of
    its own. *)
Definition runeWidth (s : list byte) : nat :=
  match s with
  | [] => 0
  | s0 :: rest =>
      let n0 := Byte.to_N s0 in
      if (n0 <? 0xC2)%N then 1%nat
      else if (n0 <? 0xE0)%N then
        match rest with
        | s1 :: _ => if acceptsSecond s0 s1 then 2%nat else 1%nat
        | _ => 1%nat
        end
      else if (n0 <? 0xF0)%N then
        match rest with
        | s1 :: s2 :: _ =>
            if acceptsSecond s0 s1 && isContinuation s2 then 3%nat else 1%nat
        | _ => 1%nat
        end
      else if (n0 <? 0xF5)%N then
        match rest with
        | s1 :: s2 :: s3 :: _ =>
            if acceptsSecond s0 s1 && isContinuation s2 && isContinuation s3
            then 4%nat else 1%nat
        | _ => 1%nat
        end
      else 1%nat
  end.

(** [for j := range s]: the byte offsets [j] at which the runes of the
    string start.  [s] is what is left of the string from offset [j]
    on, [skip] the number of bytes left of the rune at hand. *)
Fixpoint runeOffsetsFrom (s : list byte) (j : Z) (skip : nat) : list Z :=
  match s with
  | [] => []
  | _ :: tl =>
      match skip with
      | S k => runeOffsetsFrom tl (j + 1) k
      | O => j :: runeOffsetsFrom tl (j + 1) (runeWidth s - 1)
      end
  end.

Definition runeOffsets (s : list byte) : list Z := runeOffsetsFrom s 0 0.

(** ** subString *)

(** The loop of [subString] over the rune offsets that are left; [i]
    counts the runes passed. *)
Fixpoint subStringLoop (s : list byte) (offsets : list Z)
    (i start_str_idx start end_ : Z) : outcome (list byte) :=
  match offsets with
  | [] => slice s start_str_idx (Z.of_nat (length s))
  | j :: rest =>
      let start_str_idx := if i =? start then j else start_str_idx in
      if i =? end_ then slice s start_str_idx j
      else subStringLoop s rest (Int64.add i 1) start_str_idx start end_
  end.

Definition subString (s : list byte) (start end_ : Z) : outcome (list byte) :=
  subStringLoop s (runeOffsets s) 0 0 start end_.

(** ** sort.Slice with a comparison that indexes *)

(** The comparisons of [extractRelevantV2] and [determineSnipLocations]
    read [locations[i][0]] and [locations[i][1]] and fault on a location
    that is too short.  The same insertion sort as [sortSlice], with a
    comparison that can fault. *)
Fixpoint insertSortedM {A : Type} (less : A -> A -> outcome bool) (x : A)
    (rprefix : list A) : outcome (list A) :=
  match rprefix with
  | [] => Ret [x]
  | y :: rest =>
      let! before := less x y in
      if before then
        let! r := insertSortedM less x rest in
        Ret (y :: r)
      else Ret (x :: y :: rest)
  end.

Fixpoint insertAllM {A : Type} (less : A -> A -> outcome bool) (data : list A)
    (rprefix : list A) : outcome (list A) :=
  match data with
  | [] => Ret rprefix
  | x :: rest =>
      let! rprefix := insertSortedM less x rprefix in
      insertAllM less rest rprefix
  end.

Definition sortSliceM {A : Type} (less : A -> A -> outcome bool) (data : list A)
    : outcome (list A) :=
  let! rprefix := insertAllM less data [] in
  Ret (reverse rprefix).

(** ** extractRelevantV2 *)

(** [locations[i][0] < locations[j][0]]. *)
Definition lessLocationStart (a b : list Z) : outcome bool :=
  let! x := index a 0 in
  let! y := index b 0 in
  Ret (x <? y).

(** Slide left from the anchor [a]; [cands] are the locations before
    the anchor, the nearest first. *)
Fixpoint slideLeftV2 (wrapLength : Z) (a : list Z) (cands : list (list Z))
    (m : bestMatch) : outcome bestMatch :=
  match cands with
  | [] => Ret m
  | c :: rest =>
      let! cStart := index c 0 in
      let! aStart := index a 0 in
      let diff := Int64.sub cStart aStart in
      if wrapLength <? diff then Ret m
      else slideLeftV2 wrapLength a rest
             {| mStartPos := cStart; mEndPos := mEndPos m;
                mScore := PrimFloat.add (mScore m) PrimFloat.one;
                mRelevant := mRelevant m |}
  end.

(** Slide right; [cands] are the locations after the anchor. *)
Fixpoint slideRightV2 (wrapLength : Z) (a : list Z) (cands : list (list Z))
    (m : bestMatch) : outcome bestMatch :=
  match cands with
  | [] => Ret m
  | c :: rest =>
      let! cEnd := index c 1 in
      let! aStart := index a 0 in
      let diff := Int64.sub cEnd aStart in
      if wrapLength <? diff then Ret m
      else slideRightV2 wrapLength a rest
             {| mStartPos := mStartPos m; mEndPos := cEnd;
                mScore := PrimFloat.add (mScore m) PrimFloat.one;
                mRelevant := mRelevant m |}
  end.

(** [for i := 0; i < len(locations); i++]: [before] holds
    [locations[:i]] reversed, [rest] holds [locations[i:]]. *)
Fixpoint slideAnchorsV2 (wrapLength : Z) (before rest : list (list Z))
    : outcome (list bestMatch) :=
  match rest with
  | [] => Ret []
  | a :: after =>
      let! aStart := index a 0 in
      let! aEnd := index a 1 in
      let m := {| mStartPos := aStart; mEndPos := aEnd;
                  mScore := PrimFloat.one; mRelevant := [] |} in
      let! m := slideLeftV2 wrapLength a before m in
      let! m := slideRightV2 wrapLength a after m in
      let! ms := slideAnchorsV2 wrapLength (a :: before) after in
      Ret (m :: ms)
  end.

(** The final window: a bracket shorter than [relLength] grows by
    [relLength / 2] on both sides, clamped to the text. *)
Definition padWindowV2 (relLength textLength startPos endPos : Z) : Z * Z :=
  if Int64.sub endPos startPos <? relLength then
    let startPos := Int64.sub startPos (Int64.quot relLength 2) in
    let endPos := Int64.add endPos (Int64.quot relLength 2) in
    let startPos := if startPos <? 0 then 0 else startPos in
    let endPos := if textLength <? endPos then textLength else endPos in
    (startPos, endPos)
  else (startPos, endPos).

(** The snippet, and [locations] as the sort leaves the caller's slice. *)
Definition extractRelevantV2 (fulltext : list byte) (locations : list (list Z))
    (relLength : Z) (indicator : string) : outcome (Snippet * list (list Z)) :=
  let! locations := sortSliceM lessLocationStart locations in
  let wrapLength := Int64.quot relLength 2 in
  let! bestMatches := slideAnchorsV2 wrapLength [] locations in
  let bestMatches := sortSlice moreScore bestMatches in
  let! best := index bestMatches 0 in
  let window := padWindowV2 relLength (Z.of_nat (length fulltext))
                  (mStartPos best) (mEndPos best) in
  let! body := subString fulltext window.1 window.2 in
  Ret ({| sContent := String.append indicator
                        (String.append (string_of_list_byte body) indicator);
          StartPos := window.1; EndPos := window.2 |},
       locations).

(** ** determineSnipLocations *)

Record snipLocation : Type := mkSnipLocation {
  slLocation : Z;
  slDiffScore : Z
}.

(** The comparison of the first sort: by start, descending, and for
    equal starts by end, descending. *)
Definition lessLocationDescending (a b : list Z) : outcome bool :=
  let! a0 := index a 0 in
  let! b0 := index b 0 in
  if a0 =? b0 then
    let! a1 := index a 1 in
    let! b1 := index b 1 in
    Ret (b1 <? a1)
  else Ret (b0 <? a0).

(** The comparison of the second sort: by score, descending, and for
    equal scores by location, descending. *)
Definition lessSnipLocation (a b : snipLocation) : bool :=
  if slDiffScore a =? slDiffScore b then slLocation b <? slLocation a
  else slDiffScore b <? slDiffScore a.

Definition MaxInt32 : Z := 2147483647.

(** [for i := 0; i < locCount-1; i++]: [locations] holds [locations[i:]];
    the turn looks at [locations[i]] and [locations[i+1]].  The test
    [i != locCount-1] holds in every turn. *)
Fixpoint snipLoop (locations : list (list Z)) (smallestDiff startPos : Z)
    (snipLocations : list snipLocation) : outcome (Z * list snipLocation) :=
  match locations with
  | [] => Ret (startPos, snipLocations)
  | cur :: rest =>
      match rest with
      | [] => Ret (startPos, snipLocations)
      | next :: _ =>
          let! next0 := index next 0 in
          let! cur0 := index cur 0 in
          let diff := Int64.sub next0 cur0 in
          let! cur1 := index cur 1 in
          let! next1 := index next 1 in
          let curLen := Int64.sub cur1 cur0 in
          let nextLen := Int64.sub next1 next0 in
          let diff :=
            if curLen =? nextLen then diff
            else Int64.sub (Int64.sub (Int64.quot diff 2) curLen) nextLen in
          let snipLocations :=
            snipLocations ++ [{| slLocation := cur0; slDiffScore := diff |}] in
          if diff <? smallestDiff
          then snipLoop rest diff cur0 snipLocations
          else snipLoop rest smallestDiff startPos snipLocations
      end
  end.

(** The start position, the scored locations, and [locations] as the
    sort leaves the caller's slice. *)
Definition determineSnipLocations (locations : list (list Z)) (previousCount : Z)
    : outcome (Z * list snipLocation * list (list Z)) :=
  let! locations := sortSliceM lessLocationDescending locations in
  let! first := index locations 0 in
  let! startPos := index first 0 in
  let locCount := Z.of_nat (length locations) in
  let! r :=
    if 2 <? locCount then snipLoop locations MaxInt32 startPos []
    else Ret (startPos, []) in
  let startPos :=
    if previousCount <? r.1 then Int64.sub r.1 previousCount else 0 in
  let snipLocations := sortSlice lessSnipLocation r.2 in
  Ret (startPos, snipLocations, locations).

(** ** strings.Index and strings.LastIndex *)

Fixpoint hasPrefix (s sub : list byte) : bool :=
  match sub with
  | [] => true
  | c :: sub' =>
      match s with
      | [] => false
      | d :: s' => if Byte.eqb c d then hasPrefix s' sub' else false
      end
  end.

(** The first offset at or after [j] at which [sub] occurs, or -1; [s]
    is the text from [j] on. *)
Fixpoint indexFrom (s sub : list byte) (j : Z) : Z :=
  if hasPrefix s sub then j
  else match s with
       | [] => -1
       | _ :: tl => indexFrom tl sub (j + 1)
       end.

Definition stringsIndex (s sub : list byte) : Z := indexFrom s sub 0.

(** The last offset at or after [j] at which [sub] occurs, or [found]. *)
Fixpoint lastIndexFrom (s sub : list byte) (j found : Z) : Z :=
  let found := if hasPrefix s sub then j else found in
  match s with
  | [] => found
  | _ :: tl => lastIndexFrom tl sub (j + 1) found
  end.

Definition stringsLastIndex (s sub : list byte) : Z := lastIndexFrom s sub 0 (-1).

(** ** extractRelevantV1 *)

(** [for _, c := range []string{"\n", "\r\n", "\t"}]: the position of
    the cut and the length of what is cut there. *)
Fixpoint indicatorCut (relText : list byte) (seps : list (list byte))
    (indicatorPos indicatorLen : Z) : Z * Z :=
  match seps with
  | [] => (indicatorPos, indicatorLen)
  | c :: rest =>
      let tmp := stringsIndex relText c in
      if tmp <? indicatorPos
      then indicatorCut relText rest tmp (Z.of_nat (length c))
      else indicatorCut relText rest indicatorPos indicatorLen
  end.

Definition cutSeparators : list (list byte) :=
  [[Byte.x0a]; [Byte.x0d; Byte.x0a]; [Byte.x09]].

(** The start and the end of the window, from the start position that
    [determineSnipLocations] returns. *)
Definition windowV1 (textLength relLength startPos : Z) : Z * Z :=
  let startPos :=
    if Int64.sub textLength startPos <? relLength
    then Int64.sub startPos (Int64.quot (Int64.sub textLength startPos) 2)
    else startPos in
  let endPos := Int64.add startPos relLength in
  let endPos := if textLength <? endPos then textLength else endPos in
  let startPos := if endPos <=? startPos then Int64.sub endPos relLength else startPos in
  let startPos := if startPos <? 0 then 0 else startPos in
  (startPos, endPos).

(** The text of the snippet, from the excerpt [subString] returns. *)
Definition decorateV1 (textLength relLength startPos : Z) (indicator : string)
    (relText : list byte) : outcome (list byte) :=
  let relText :=
    if Int64.add startPos relLength <? textLength then
      let t := stringsLastIndex relText [Byte.x20] in
      let relText := if t =? -1 then relText else relText in
      relText ++ list_byte_of_string indicator
    else relText in
  if startPos =? 0 then Ret relText
  else
    let indicatorPos := stringsIndex relText [Byte.x20] in
    let cut := indicatorCut relText cutSeparators indicatorPos 1 in
    let! tail := slice relText (Int64.add cut.1 cut.2) (Z.of_nat (length relText)) in
    Ret (list_byte_of_string indicator ++ tail).

(** The snippet, and [locations] as the call leaves the caller's
    slice. *)
Definition extractRelevantV1 (fulltext : list byte) (locations : list (list Z))
    (relLength : Z) (indicator : string) : outcome (Snippet * list (list Z)) :=
  let textLength := Z.of_nat (length fulltext) in
  if textLength <=? relLength then
    Ret ({| sContent := string_of_list_byte fulltext;
            StartPos := 0; EndPos := textLength |}, locations)
  else
    let! d := determineSnipLocations locations (getPrevCount relLength) in
    let window := windowV1 textLength relLength d.1.1 in
    let! relText := subString fulltext window.1 window.2 in
    let! relText := decorateV1 textLength relLength window.1 indicator relText in
    Ret ({| sContent := string_of_list_byte relText;
            StartPos := window.1; EndPos := window.2 |}, d.2).

(** ** extractSnippets *)

Definition labelled (label : string) (snip : Snippet) : Snippet :=
  {| sContent := String.append label (sContent snip);
     StartPos := StartPos snip; EndPos := EndPos snip |}.

(** The two snippets; [extractRelevantV2] is called on the slice as
    [extractRelevantV1] leaves it. *)
Definition extractSnippets (fulltext : list byte) (locations : list (list Z))
    (relLength : Z) (indicator : string) : outcome (list Snippet) :=
  let! v1 := extractRelevantV1 fulltext locations relLength indicator in
  let! v2 := extractRelevantV2 fulltext v1.2 relLength indicator in
  Ret [labelled "extractRelevantV1: " v1.1; labelled "extractRelevantV2: " v2.1].

(** ** White space in the content *)

(** [content[i]] can be read and is white space. *)
Definition holdsSpace (content : list byte) (i : Z) : bool :=
  match index content i with
  | Ret b => isSpace b
  | Panic _ => false
  end.

(** ** What the formatter keeps of a document *)

(** The record carries the identity and the score of the document. *)
Definition recordOf (res : fileJob) (j : jsonResult) : Prop :=
  jFilename j = Filename res /\ jLocation j = Location res /\ jScore j = Score res.

(** The two documents differ in the offsets of their ranges at most:
    same fields, same terms in the same order, same number of ranges for
    every term. *)
Definition sameButOffsets (res res' : fileJob) : Prop :=
  Filename res' = Filename res /\ Location res' = Location res /\
  Content res' = Content res /\ Bytes res' = Bytes res /\ Score res' = Score res /\
  List.map (fun kv => (kv.1, length kv.2)) (MatchLocations res')
  = List.map (fun kv => (kv.1, length kv.2)) (MatchLocations res).

(** ** Well-formed matches *)

(** A triple made from a well-formed range. *)
Definition validMatch (c : relevantV3) : Prop :=
  0 <= rvStart c <= rvEnd c /\ rvEnd c <= Int64.max_int.

Definition startsBefore (u v : relevantV3) : Prop := rvStart u <= rvStart v.

(** ** Reading a location *)

(** The start and the end of a location that has both. *)
Definition locStart (r : list Z) : Z := nth 0 r 0.
Definition locEnd (r : list Z) : Z := nth 1 r 0.

Definition lessLocStart (a b : list Z) : bool := locStart a <? locStart b.

(** The comparison of [determineSnipLocations] on locations that have
    both ends. *)
Definition lessLocDescending (a b : list Z) : bool :=
  if locStart a =? locStart b then locEnd b <? locEnd a
  else locStart b <? locStart a.

(** The order [lessLocDescending] sorts into. *)
Definition locDescends (u v : list Z) : Prop :=
  locStart v < locStart u \/ (locStart u = locStart v /\ locEnd v <= locEnd u).

(** The order [lessLocStart] sorts into. *)
Definition startsAscend (u v : list Z) : Prop := locStart u <= locStart v.

(** The start of the first anchor of the loop: the oldest element of
    [before], or the head of [rest] when [before] is empty. *)
Definition firstStart (before rest : list (list Z)) : Z :=
  locStart (default (hd [] rest) (last before)).

(** The rune offset with the index [k], counted from the rune with the
    index [i] at the head of [offsets]. *)
Definition offsetAt (offsets : list Z) (i k : Z) : option Z :=
  if k <? i then None else offsets !! Z.to_nat (k - i).

(** Where the loop cuts: the end of the cut is the offset of the rune
    [end_], or the end of the text when there is no such rune; the
    start is the offset of the rune [start], unless there is no such
    rune or the loop returns before it reaches it. *)
Definition cutEnd (s : list byte) (offsets : list Z) (i end_ : Z) : Z :=
  default (Z.of_nat (length s)) (offsetAt offsets i end_).

Definition cutStart (offsets : list Z) (i start_str_idx start end_ : Z) : Z :=
  match offsetAt offsets i end_ with
  | Some _ => if end_ <? start then start_str_idx
              else default start_str_idx (offsetAt offsets i start)
  | None => default start_str_idx (offsetAt offsets i start)
  end.

(** ** Sample documents *)

Definition sampleJob (content : string) (ml : matchLocations) : fileJob :=
  {| Filename := "sample.go"; Location := "/src/sample.go";
     Content := list_byte_of_string content;
     Bytes := Z.of_nat (String.length content);
     Score := PrimFloat.zero; MatchLocations := ml |}.

Definition docWorld : fileJob :=
  sampleJob "hello world, this is text" [("world"%string, [[6; 11]])].

Definition docThis : fileJob :=
  sampleJob "hello world, this is text" [("this"%string, [[13; 17]])].

(** A document that matched on its file name only. *)
Definition docNoMatch : fileJob := sampleJob "package main" [].

(** A document shorter than the snippet length. *)
Definition docShort : fileJob := sampleJob "ab" [("ab"%string, [[0; 2]])].

(** A document with a two-byte letter right after the match. *)
Definition docAccent : fileJob := sampleJob "aé bcd" [("a"%string, [[0; 1]])].

(** One match map enumerated in two orders: two terms match at offset
    zero. *)
Definition docTieA : fileJob :=
  sampleJob "abcdef" [("a"%string, [[0; 1]]); ("ab"%string, [[0; 2]])].

Definition docTieB : fileJob :=
  sampleJob "abcdef" [("ab"%string, [[0; 2]]); ("a"%string, [[0; 1]])].

Definition tieFrequencies : gmap string Z :=
  {[ "a"%string := 1; "ab"%string := 1 ]}.

(** Two matches, one of them outside the window of the other. *)
Definition docTwo : fileJob :=
  sampleJob "hello world, this is text!"
    [("world"%string, [[6; 11]]); ("text"%string, [[21; 25]])].

(** The batch of [TestCalculateDocumentFrequency]. *)
Definition docTest : fileJob := sampleJob "" [("test"%string, [[1]; [2]; [3]])].

Definition limitOne : ResultSummarizer :=
  {| ResultLimit := 1; SnippetCount := 1; Format := "json" |}.

(** * Properties *)

(** ** Machine integers and panics *)

Ltac zbool :=
  repeat match goal with
  | H : (_ <? _) = true |- _ => apply Z.ltb_lt in H
  | H : (_ <? _) = false |- _ => apply Z.ltb_ge in H
  | H : (_ <=? _) = true |- _ => apply Z.leb_le in H
  | H : (_ <=? _) = false |- _ => apply Z.leb_gt in H
  | H : (_ =? _) = true |- _ => apply Z.eqb_eq in H
  | H : (_ =? _) = false |- _ => apply Z.eqb_neq in H
  end.

Ltac zlia := zbool; lia.

Lemma Int64_wrap_in_range (z : Z) : Int64.in_range z -> Int64.wrap z = z.
Proof.
  unfold Int64.in_range, Int64.min_int, Int64.max_int, Int64.wrap. intros Hz.
  rewrite Z.mod_small by lia. lia.
Qed.

Lemma Int64_wrap_le (z : Z) : Int64.min_int <= z -> Int64.wrap z <= z.
Proof.
  unfold Int64.min_int, Int64.wrap. intros Hz.
  pose proof (Z.mod_le (z + 2 ^ 63) (2 ^ 64) ltac:(lia) ltac:(lia)). lia.
Qed.

Lemma bind_Ret {A B : Type} (x : outcome A) (k : A -> outcome B) (b : B) :
  bind x k = Ret b -> exists a, x = Ret a /\ k a = Ret b.
Proof. destruct x as [a|p]; simpl; [eauto | discriminate]. Qed.

Lemma index_Ret {A : Type} (l : list A) (i : Z) (a : A) :
  index l i = Ret a <-> 0 <= i /\ l !! Z.to_nat i = Some a.
Proof.
  unfold index. split.
  - destruct (i <? 0) eqn:Hi; simpl; [discriminate |].
    destruct (Z.of_nat (length l) <=? i); [discriminate |].
    destruct (l !! Z.to_nat i); [| discriminate].
    intros [= ->]. split; [zlia | reflexivity].
  - intros [Hi Hl].
    pose proof (lookup_lt_Some _ _ _ Hl) as Hlt.
    destruct (i <? 0) eqn:H0; [zlia |].
    destruct (Z.of_nat (length l) <=? i) eqn:H1; [zlia |].
    simpl. now rewrite Hl.
Qed.

Lemma index_first {A : Type} (x : A) (l : list A) : index (x :: l) 0 = Ret x.
Proof. apply index_Ret. split; [lia | reflexivity]. Qed.

Lemma index_second {A : Type} (x y : A) (l : list A) : index (x :: y :: l) 1 = Ret y.
Proof. apply index_Ret. split; [lia | reflexivity]. Qed.

Lemma index_length {A : Type} (l : list A) :
  index l (Z.of_nat (length l)) = Panic IndexOutOfRange.
Proof.
  unfold index. rewrite Z.leb_refl, orb_true_r. reflexivity.
Qed.

Lemma slice_prefix {A : Type} (l : list A) (n : Z) :
  0 <= n <= Z.of_nat (length l) -> slice l 0 n = Ret (take (Z.to_nat n) l).
Proof.
  intros Hn. unfold slice.
  destruct (0 <? 0) eqn:H0; [zlia |].
  destruct (n <? 0) eqn:H1; [zlia |].
  destruct (Z.of_nat (length l) <? n) eqn:H2; [zlia |].
  simpl. now rewrite Z.sub_0_r.
Qed.

(** ** Runs of the code on small inputs *)

Example findNearbySpace_left :
  findNearbySpace (Content docWorld) 6 10 = Ret (5, true).
Proof. reflexivity. Qed.

Example findNearbySpace_right :
  findNearbySpace (list_byte_of_string "abc def") 1 10 = Ret (3, true).
Proof. reflexivity. Qed.

Example findNearbySpace_none :
  findNearbySpace (list_byte_of_string "abcdef") 2 10 = Ret (2, false).
Proof. reflexivity. Qed.

Example sortSlice_by_start :
  sortSlice lessStart
    [mkRelevantV3 "c" 9 10; mkRelevantV3 "ab" 0 2; mkRelevantV3 "a" 0 1]
  = [mkRelevantV3 "ab" 0 2; mkRelevantV3 "a" 0 1; mkRelevantV3 "c" 9 10].
Proof. reflexivity. Qed.

Example extractRelevantV3_exact_window :
  extractRelevantV3 docWorld {[ "world"%string := 1 ]} 5 "…"
  = Ret (mkSnippet "…world…" 6 11).
Proof. vm_compute. reflexivity. Qed.

Example extractRelevantV3_padded_window :
  extractRelevantV3 docWorld {[ "world"%string := 1 ]} 9 "…"
  = Ret (mkSnippet "…o world, …" 4 13).
Proof. vm_compute. reflexivity. Qed.

(** [TestCalculateDocumentFrequency]: one key, with frequency six. *)
Example calculateDocumentTermFrequency_test :
  calculateDocumentTermFrequency [docTest; docTest] = {[ "test"%string := 6 ]}.
Proof. vm_compute. reflexivity. Qed.

(** The example of the spec: twice in one document, once in another. *)
Example calculateDocumentTermFrequency_three :
  frequencyOf
    (calculateDocumentTermFrequency
       [sampleJob "a a" [("a"%string, [[0; 1]; [2; 3]])];
        sampleJob "a" [("a"%string, [[0; 1]])]]) "a" = 3.
Proof. vm_compute. reflexivity. Qed.

(** ** Start: the result limit *)

Lemma limitResults_take (f : ResultSummarizer) (results : list fileJob) :
  0 <= ResultLimit f ->
  limitResults f results = Ret (take (Z.to_nat (ResultLimit f)) results).
Proof.
  intros Hl. unfold limitResults.
  destruct (ResultLimit f =? -1) eqn:H1; [zlia |].
  destruct (ResultLimit f <? Z.of_nat (length results)) eqn:H2.
  - apply slice_prefix. zlia.
  - rewrite take_ge; [reflexivity | zlia].
Qed.

Lemma limitResults_negative (f : ResultSummarizer) (results : list fileJob) :
  ResultLimit f < -1 -> limitResults f results = Panic SliceBoundsOutOfRange.
Proof.
  intros Hl. unfold limitResults, slice.
  destruct (ResultLimit f =? -1) eqn:H1; [zlia |].
  destruct (ResultLimit f <? Z.of_nat (length results)) eqn:H2; [| zlia].
  destruct (ResultLimit f <? 0) eqn:H3; [| zlia].
  reflexivity.
Qed.

Lemma Start_Ret (rankResults : Z -> list fileJob -> list fileJob)
    (fileCount SnippetLength : Z) (f : ResultSummarizer) (input : list fileJob) (r : run) :
  Start rankResults fileCount SnippetLength f input = Ret r ->
  limitResults f input = Ret (rankInput r) /\
  formatResults SnippetLength f (rankResults fileCount (rankInput r))
    = Ret (output r, batchAfter r).
Proof.
  unfold Start. intros H.
  apply bind_Ret in H as (results & Hlim & H).
  apply bind_Ret in H as ([out after] & Hout & H).
  injection H as <-. simpl. auto.
Qed.

Lemma limitResults_rankedBatch (f : ResultSummarizer) (input : list fileJob) :
  -1 <= ResultLimit f -> limitResults f input = Ret (rankedBatch f input).
Proof.
  intros Hl. unfold limitResults, rankedBatch.
  destruct (ResultLimit f =? -1) eqn:H1; [reflexivity |]. cbn [orb].
  destruct (ResultLimit f <? Z.of_nat (length input)) eqn:H2;
    destruct (Z.of_nat (length input) <=? ResultLimit f) eqn:H3; try zlia.
  - apply slice_prefix. zlia.
  - reflexivity.
Qed.

Lemma rankedBatch_whole (f : ResultSummarizer) (input : list fileJob) :
  -1 <= ResultLimit f ->
  rankedBatch f input = input <->
  ResultLimit f = -1 \/ Z.of_nat (length input) <= ResultLimit f.
Proof.
  intros Hl. unfold rankedBatch.
  destruct (ResultLimit f =? -1) eqn:H1; [split; [zlia | reflexivity] |].
  cbn [orb].
  destruct (Z.of_nat (length input) <=? ResultLimit f) eqn:H2;
    [split; [zlia | reflexivity] |].
  split; [| zlia].
  intros Heq. apply (f_equal length) in Heq. rewrite length_take in Heq. zlia.
Qed.

(** A run of [Start] that returns has called the ranking on the batch
    it records. *)
Lemma rankCalls_Start (rankResults : Z -> list fileJob -> list fileJob)
    (fileCount SnippetLength : Z) (f : ResultSummarizer) (input : list fileJob) (r : run) :
  Start rankResults fileCount SnippetLength f input = Ret r ->
  rankCalls f input = [rankInput r].
Proof.
  intros H. apply Start_Ret in H as [Hlim _]. unfold rankCalls. now rewrite Hlim.
Qed.

(** C1, as the code has it: [Start] applies the limit before it ranks,
    never after.  With a limit below -1 it faults on the slice
    expression and the ranking is not called.  With any other limit the
    ranking is called once, before the formatter runs and whether or not
    the formatter faults afterwards: on the first [ResultLimit]
    documents in the order of collection when the limit is below the
    number of documents collected, and on the whole collected batch
    exactly when the limit is -1 or at least that number.  What [Start]
    then does is what the formatter does with the ranking of that
    batch. *)
Theorem Start_limits_before_ranking
    (rankResults : Z -> list fileJob -> list fileJob)
    (fileCount SnippetLength : Z) (f : ResultSummarizer) (input : list fileJob) :
  (ResultLimit f < -1 ->
   rankCalls f input = [] /\
   Start rankResults fileCount SnippetLength f input = Panic SliceBoundsOutOfRange) /\
  (-1 <= ResultLimit f ->
   rankCalls f input = [rankedBatch f input] /\
   (0 <= ResultLimit f < Z.of_nat (length input) ->
    rankedBatch f input = take (Z.to_nat (ResultLimit f)) input /\
    rankedBatch f input <> input) /\
   (rankedBatch f input = input <->
    ResultLimit f = -1 \/ Z.of_nat (length input) <= ResultLimit f) /\
   Start rankResults fileCount SnippetLength f input =
     (let! out := formatResults SnippetLength f
                    (rankResults fileCount (rankedBatch f input)) in
      Ret {| rankInput := rankedBatch f input;
             output := out.1; batchAfter := out.2 |})).
Proof.
  split.
  - intros Hneg. unfold rankCalls, Start.
    rewrite limitResults_negative by assumption. auto.
  - intros Hl.
    pose proof (limitResults_rankedBatch f input Hl) as Hlim.
    pose proof (rankedBatch_whole f input Hl) as Hwhole.
    split; [unfold rankCalls; now rewrite Hlim |].
    split; [| split; [exact Hwhole |]].
    + intros Hcut. split.
      * unfold rankedBatch.
        destruct (ResultLimit f =? -1) eqn:H1; [zlia |]. cbn [orb].
        destruct (Z.of_nat (length input) <=? ResultLimit f) eqn:H2; [zlia |].
        reflexivity.
      * intros Heq. apply Hwhole in Heq. lia.
    + unfold Start. rewrite Hlim. reflexivity.
Qed.

Lemma Start_limits_before_ranking_witness :
  rankCalls limitOne [docWorld; docThis] = [[docWorld]] /\
  (exists r,
     Start (fun _ batch => batch) 2 5 limitOne [docWorld; docThis] = Ret r /\
     rankInput r = [docWorld]) /\
  Start (fun _ batch => batch) 2 300 limitOne [docWorld; docThis]
    = Panic IndexOutOfRange.
Proof.
  assert (Hl : -1 <= ResultLimit limitOne) by (simpl; lia).
  split; [| split].
  - destruct (Start_limits_before_ranking (fun _ batch => batch) 2 5 limitOne
                [docWorld; docThis]) as [_ H].
    destruct (H Hl) as (Hcalls & _). exact Hcalls.
  - destruct (Start_limits_before_ranking (fun _ batch => batch) 2 5 limitOne
                [docWorld; docThis]) as [_ H].
    destruct (H Hl) as (_ & _ & _ & Hrun).
    eexists. split; [rewrite Hrun; vm_compute; reflexivity | reflexivity].
  - destruct (Start_limits_before_ranking (fun _ batch => batch) 2 300 limitOne
                [docWorld; docThis]) as [_ H].
    destruct (H Hl) as (_ & _ & _ & Hrun).
    rewrite Hrun. vm_compute. reflexivity.
Defined.

(** C1 as stated fails: with a limit of one and two documents collected,
    the ranking function is called on a batch from which the second
    document has already been removed. *)
Lemma Start_ranks_limited_batch :
  exists r,
    Start (fun _ batch => batch) 2 5 limitOne [docWorld; docThis] = Ret r /\
    rankInput r = [docWorld] /\ ~ In docThis (rankInput r).
Proof.
  eexists. split; [vm_compute; reflexivity |]. simpl. split; [reflexivity |].
  intros [H | []]. discriminate H.
Qed.

(** ** Documents without a match *)

(** C2, evaluated on the code: a document with an empty match map makes
    [extractRelevantV3] read [bestMatches[0]] of an empty slice; the
    selector faults, and so does the formatter on any batch that starts
    with such a document. *)
Theorem extractRelevantV3_empty_map_faults
    (res : fileJob) (documentFrequencies : gmap string Z) (relLength : Z)
    (indicator : string) (rest : list fileJob) (SnippetCount : Z) :
  MatchLocations res = [] ->
  extractRelevantV3 res documentFrequencies relLength indicator
    = Panic IndexOutOfRange /\
  formatJson relLength (res :: rest) = Panic IndexOutOfRange /\
  formatDefault relLength SnippetCount (res :: rest) = Panic IndexOutOfRange.
Proof.
  intros Hml.
  assert (Hx : forall df rl ind,
             extractRelevantV3 res df rl ind = Panic IndexOutOfRange).
  { intros df rl ind. unfold extractRelevantV3. rewrite Hml. reflexivity. }
  split; [apply Hx |].
  unfold formatJson, formatDefault. simpl.
  unfold formatJsonResult, formatDefaultResult. rewrite !Hx. split; reflexivity.
Qed.

Lemma extractRelevantV3_empty_map_faults_witness :
  extractRelevantV3 docNoMatch ∅ 300 "…" = Panic IndexOutOfRange /\
  formatJson 300 [docNoMatch; docWorld] = Panic IndexOutOfRange /\
  formatDefault 300 1 [docNoMatch; docWorld] = Panic IndexOutOfRange.
Proof.
  apply (extractRelevantV3_empty_map_faults docNoMatch ∅ 300 "…" [docWorld] 1).
  reflexivity.
Defined.

(** ** findNearbySpace at the end of the content *)

Lemma reverse_seqZ_last (m n : Z) :
  0 <= n -> reverse (seqZ m (n + 1)) = (m + n) :: reverse (seqZ m n).
Proof.
  intros Hn. rewrite seqZ_app by lia.
  rewrite reverse_app. rewrite (seqZ_cons _ 1) by lia.
  rewrite seqZ_nil by lia. reflexivity.
Qed.

Lemma findNearbySpace_at_length (content : list byte) (distance : Z) :
  0 <= distance <= Int64.max_int ->
  findNearbySpace content (Z.of_nat (length content)) distance
    = Panic IndexOutOfRange.
Proof.
  intros Hd. unfold findNearbySpace.
  pose proof (Nat2Z.is_nonneg (length content)) as Hlen.
  remember (Z.of_nat (length content)) as len eqn:Elen.
  set (ld := if Int64.sub len distance <? 0 then 0 else Int64.sub len distance).
  assert (Hld : 0 <= ld <= len).
  { subst ld. destruct (Int64.sub len distance <? 0) eqn:E; [lia |].
    split; [zlia |]. unfold Int64.sub.
    destruct (Z_lt_le_dec (len - distance) Int64.min_int) as [Hlow | Hok].
    - unfold Int64.min_int, Int64.max_int in *. lia.
    - pose proof (Int64_wrap_le _ Hok). lia. }
  replace (len - ld + 1) with ((len - ld) + 1) by lia.
  rewrite reverse_seqZ_last by lia.
  replace (ld + (len - ld)) with len by lia.
  simpl. rewrite Elen, index_length. reflexivity.
Qed.

(** C10, evaluated on the code: the left-hand loop of [findNearbySpace]
    starts by reading [content[pos]], so a position equal to the length
    of the content is read out of range.  [extractRelevantV3] calls it
    there whenever a padded window is clamped to the end of the content:
    a document shorter than the snippet length makes the selector
    fault. *)
Theorem findNearbySpace_reads_past_end (content : list byte) :
  findNearbySpace content (Z.of_nat (length content)) 10 = Panic IndexOutOfRange /\
  mEndPos (bracket 300 (Content docShort) [] (mkRelevantV3 "ab" 0 2) [])
    = Z.of_nat (length (Content docShort)) /\
  extractRelevantV3 docShort {[ "ab"%string := 1 ]} 300 "…" = Panic IndexOutOfRange.
Proof.
  split; [apply findNearbySpace_at_length; unfold Int64.max_int; lia |].
  split; vm_compute; reflexivity.
Qed.

(** ** The document-frequency index *)

Lemma frequencyOf_addTerm (freq : gmap string Z) (k : string) (v : list (list Z))
    (t : string) :
  frequencyOf (addTerm freq (k, v)) t =
  if String.eqb k t then frequencyOf freq t + Z.of_nat (length v)
  else frequencyOf freq t.
Proof.
  unfold addTerm, frequencyOf. simpl.
  destruct (String.eqb_spec k t) as [-> | Hne].
  - now rewrite lookup_insert_eq.
  - now rewrite lookup_insert_ne.
Qed.

Lemma termRanges_absent (t : string) (ml : matchLocations) :
  t ∉ ml.*1 -> termRanges t ml = [].
Proof.
  induction ml as [| [k v] rest IH]; [reflexivity |].
  simpl. intros Hnot. apply not_elem_of_cons in Hnot as [Hne Hrest].
  destruct (String.eqb_spec k t) as [-> | _]; [congruence | auto].
Qed.

Lemma frequencyOf_addDocument (ml : matchLocations) :
  forall (freq : gmap string Z) (t : string),
    NoDup ml.*1 ->
    frequencyOf (fold_left addTerm ml freq) t =
    frequencyOf freq t + Z.of_nat (length (termRanges t ml)).
Proof.
  induction ml as [| [k v] rest IH]; intros freq t Hnd.
  - simpl. lia.
  - simpl in *. apply NoDup_cons in Hnd as [Hk Hrest].
    rewrite IH by assumption. rewrite frequencyOf_addTerm.
    destruct (String.eqb_spec k t) as [-> | _]; [| reflexivity].
    rewrite termRanges_absent by assumption. simpl. lia.
Qed.

Lemma frequencyOf_fold_documents (results : list fileJob) :
  forall (freq : gmap string Z) (t : string),
    Forall uniqueKeys results ->
    frequencyOf (fold_left addDocument results freq) t =
    frequencyOf freq t + rangeCountSum t results.
Proof.
  induction results as [| res rest IH]; intros freq t Hall.
  - simpl. lia.
  - apply Forall_cons in Hall as [Hres Hrest]. simpl.
    rewrite IH by assumption. unfold addDocument.
    rewrite frequencyOf_addDocument by exact Hres. lia.
Qed.

(** C9: the frequency of a term is the sum over the batch of the number
    of ranges each document records for it, and the empty batch gives
    the empty index. *)
Theorem calculateDocumentTermFrequency_sum (results : list fileJob) (t : string) :
  Forall uniqueKeys results ->
  frequencyOf (calculateDocumentTermFrequency results) t = rangeCountSum t results /\
  calculateDocumentTermFrequency [] = ∅.
Proof.
  intros Hall. split; [| reflexivity].
  unfold calculateDocumentTermFrequency.
  rewrite frequencyOf_fold_documents by assumption.
  unfold frequencyOf. now rewrite lookup_empty.
Qed.

Lemma calculateDocumentTermFrequency_sum_witness :
  frequencyOf (calculateDocumentTermFrequency [docTest; docTest]) "test" = 6 /\
  calculateDocumentTermFrequency [] = ∅.
Proof.
  apply (calculateDocumentTermFrequency_sum [docTest; docTest] "test").
  repeat constructor; unfold uniqueKeys; simpl;
    repeat constructor; apply not_elem_of_nil.
Defined.

(** ** The highlight loop *)

Lemma highlightRanges_valid (startPos endPos : Z) (value : list (list Z)) :
  0 <= startPos ->
  Forall validRange value ->
  highlightRanges startPos endPos value =
  Ret (List.map (shiftRange startPos) (List.filter (inWindow startPos endPos) value),
       List.map (shiftInWindow startPos endPos) value).
Proof.
  intros Hsp. induction value as [| r rest IH]; intros Hall; [reflexivity |].
  apply Forall_cons in Hall as [(s & e & -> & Hse & Hmax) Hrest].
  specialize (IH Hrest). unfold shiftInWindow in *.
  cbn [highlightRanges List.filter List.map inWindow shiftRange].
  change (index [s; e] 0) with (Ret (A := Z) s).
  change (index [s; e] 1) with (Ret (A := Z) e).
  cbn [bind]. rewrite IH. cbn [bind fst snd].
  destruct (startPos <=? s) eqn:Hs; cbn [andb]; [| reflexivity].
  destruct (e <=? endPos) eqn:He; [| reflexivity].
  cbn [List.map shiftRange]. zbool.
  assert (Int64.sub s startPos = s - startPos) as ->.
  { apply Int64_wrap_in_range. unfold Int64.in_range, Int64.min_int, Int64.max_int in *. lia. }
  assert (Int64.sub e startPos = e - startPos) as ->.
  { apply Int64_wrap_in_range. unfold Int64.in_range, Int64.min_int, Int64.max_int in *. lia. }
  reflexivity.
Qed.

Lemma highlightLocations_valid (startPos endPos : Z) (ml : matchLocations) :
  0 <= startPos ->
  Forall validRange (allRanges ml) ->
  highlightLocations startPos endPos ml =
  Ret (List.map (shiftRange startPos)
         (List.filter (inWindow startPos endPos) (allRanges ml)),
       List.map (fun kv => (kv.1, List.map (shiftInWindow startPos endPos) kv.2)) ml).
Proof.
  intros Hsp. induction ml as [| [k value] rest IH]; intros Hall; [reflexivity |].
  unfold allRanges in *. cbn [List.map concat snd] in Hall.
  apply Forall_app in Hall as [Hvalue Hrest].
  cbn [highlightLocations]. rewrite highlightRanges_valid by assumption.
  cbn [bind]. rewrite IH by assumption. cbn [bind fst snd List.map concat].
  now rewrite List.filter_app, List.map_app.
Qed.

(** ** sort.Slice *)

Section SortSlice.

Context {A : Type} (less : A -> A -> bool).

Lemma insertSorted_Permutation (x : A) (rprefix : list A) :
  Permutation (insertSorted less x rprefix) (x :: rprefix).
Proof.
  induction rprefix as [| y rest IH]; simpl; [reflexivity |].
  destruct (less x y); [| reflexivity].
  rewrite IH. apply perm_swap.
Qed.

Lemma insertion_Permutation (data : list A) :
  forall rprefix,
    Permutation (fold_left (fun rp x => insertSorted less x rp) data rprefix)
                (data ++ rprefix).
Proof.
  induction data as [| x rest IH]; intros rprefix; simpl; [reflexivity |].
  rewrite IH, insertSorted_Permutation. symmetry. apply Permutation_middle.
Qed.

Lemma sortSlice_Permutation (data : list A) : Permutation (sortSlice less data) data.
Proof.
  unfold sortSlice. rewrite reverse_Permutation, insertion_Permutation.
  now rewrite app_nil_r.
Qed.

Lemma sortSlice_Forall (P : A -> Prop) (data : list A) :
  Forall P data -> Forall P (sortSlice less data).
Proof. intros H. now rewrite sortSlice_Permutation. Qed.

Lemma sortSlice_nil_inv (data : list A) : sortSlice less data = [] -> data = [].
Proof.
  intros H. apply Permutation_nil. rewrite <- H.
  apply sortSlice_Permutation.
Qed.

End SortSlice.

(** Sorting by a numeric key: the result ascends in the key. *)
Section SortByKey.

Context {A : Type} (key : A -> Z).

Let less (a b : A) : bool := key a <? key b.
Let descending (u v : A) : Prop := key v <= key u.
Let ascending (u v : A) : Prop := key u <= key v.

Lemma insertSorted_descending (x : A) (rprefix : list A) :
  StronglySorted descending rprefix ->
  StronglySorted descending (insertSorted less x rprefix).
Proof.
  induction rprefix as [| y rest IH]; intros Hs; simpl.
  - repeat constructor.
  - apply StronglySorted_cons in Hs as [Hy Hrest].
    unfold less at 1. destruct (key x <? key y) eqn:E; zbool.
    + apply StronglySorted_cons. split; [| auto].
      rewrite insertSorted_Permutation. constructor; [| assumption].
      unfold descending. lia.
    + apply StronglySorted_cons. split.
      * constructor; [exact E |].
        eapply Forall_impl; [exact Hy |]. unfold descending. intros z Hz. lia.
      * apply StronglySorted_cons. auto.
Qed.

Lemma insertion_descending (data : list A) :
  forall rprefix,
    StronglySorted descending rprefix ->
    StronglySorted descending
      (fold_left (fun rp x => insertSorted less x rp) data rprefix).
Proof.
  induction data as [| x rest IH]; intros rprefix Hs; simpl; [assumption |].
  apply IH, insertSorted_descending, Hs.
Qed.

Lemma reverse_descending (l : list A) :
  StronglySorted descending l -> StronglySorted ascending (reverse l).
Proof.
  induction l as [| x rest IH]; intros Hs.
  - constructor.
  - apply StronglySorted_cons in Hs as [Hx Hrest].
    rewrite reverse_cons. apply StronglySorted_app_2.
    + intros u v Hu Hv. apply list_elem_of_singleton in Hv as ->.
      rewrite elem_of_reverse in Hu.
      rewrite Forall_forall in Hx. apply Hx, Hu.
    + auto.
    + repeat constructor.
Qed.

Lemma sortSlice_ascending (data : list A) :
  StronglySorted ascending (sortSlice less data).
Proof.
  unfold sortSlice. apply reverse_descending, insertion_descending. constructor.
Qed.

(** Two enumerations of the same elements sort to the same slice when
    no two elements share a key. *)
Lemma sortSlice_unique (l1 l2 : list A) :
  Permutation l1 l2 ->
  NoDup (List.map key l1) ->
  sortSlice less l1 = sortSlice less l2.
Proof.
  intros Hperm Hnd.
  apply (StronglySorted_unique_strong ascending).
  - intros x1 x2 H1 H2 H12 H21.
    rewrite sortSlice_Permutation in H1, H2. rewrite <- Hperm in H2.
    assert (Hk : key x1 = key x2) by (unfold ascending in *; lia).
    clear - Hnd H1 H2 Hk.
    induction l1 as [| y rest IH]; [now apply elem_of_nil in H1 |].
    simpl in Hnd. apply NoDup_cons in Hnd as [Hy Hrest].
    apply elem_of_cons in H1 as [-> | H1]; apply elem_of_cons in H2 as [-> | H2].
    + reflexivity.
    + exfalso. apply Hy. rewrite Hk. apply list_elem_of_In, in_map, list_elem_of_In, H2.
    + exfalso. apply Hy. rewrite <- Hk. apply list_elem_of_In, in_map, list_elem_of_In, H1.
    + auto.
  - apply sortSlice_ascending.
  - apply sortSlice_ascending.
  - now rewrite !sortSlice_Permutation.
Qed.

End SortByKey.

(** ** The anchor loop *)

Lemma slideLeft_fields (wrapLength : Z) (a : relevantV3) (cands : list relevantV3) :
  forall m,
    mEndPos (slideLeft wrapLength a cands m) = mEndPos m /\
    mScore (slideLeft wrapLength a cands m) = mScore m /\
    mRelevant (slideLeft wrapLength a cands m)
      = mRelevant m ++ leftMembers wrapLength a cands.
Proof.
  induction cands as [| c rest IH]; intros m; simpl.
  - now rewrite app_nil_r.
  - destruct (wrapLength <? Int64.sub (rvEnd a) (rvStart c)).
    + now rewrite app_nil_r.
    + destruct (IH {| mStartPos := rvStart c; mEndPos := mEndPos m;
                      mScore := mScore m; mRelevant := mRelevant m ++ [c] |})
        as (-> & -> & ->).
      simpl. now rewrite <- app_assoc.
Qed.

Lemma slideRight_fields (wrapLength : Z) (a : relevantV3) (cands : list relevantV3) :
  forall m,
    mStartPos (slideRight wrapLength a cands m) = mStartPos m /\
    mScore (slideRight wrapLength a cands m) = mScore m /\
    mRelevant (slideRight wrapLength a cands m)
      = mRelevant m ++ rightMembers wrapLength a cands.
Proof.
  induction cands as [| c rest IH]; intros m; simpl.
  - now rewrite app_nil_r.
  - destruct (wrapLength <? Int64.sub (rvEnd c) (rvStart a)).
    + now rewrite app_nil_r.
    + destruct (IH {| mStartPos := mStartPos m; mEndPos := rvEnd c;
                      mScore := mScore m; mRelevant := mRelevant m ++ [c] |})
        as (-> & -> & ->).
      simpl. now rewrite <- app_assoc.
Qed.

Lemma padMatch_fields (relLength contentLen : Z) (m : bestMatch) :
  mScore (padMatch relLength contentLen m) = mScore m /\
  mRelevant (padMatch relLength contentLen m) = mRelevant m.
Proof.
  unfold padMatch.
  destruct (Int64.sub (mEndPos m) (mStartPos m) <? relLength); simpl; auto.
Qed.

Lemma bracket_fields (relLength : Z) (content : list byte)
    (before : list relevantV3) (a : relevantV3) (after : list relevantV3) :
  mScore (bracket relLength content before a after) = PrimFloat.zero /\
  mRelevant (bracket relLength content before a after)
    = a :: leftMembers (Int64.quot relLength 2) a before
        ++ rightMembers (Int64.quot relLength 2) a after.
Proof.
  unfold bracket.
  match goal with |- context [padMatch _ ?len ?m] =>
    destruct (padMatch_fields relLength len m) as [-> ->] end.
  match goal with |- context [slideRight ?w _ _ ?m] =>
    destruct (slideRight_fields w a after m) as (_ & -> & ->) end.
  match goal with |- context [slideLeft ?w _ _ ?m] =>
    destruct (slideLeft_fields w a before m) as (_ & -> & ->) end.
  simpl. auto.
Qed.

Lemma anchorMatch_Ret (documentFrequencies : gmap string Z) (relLength : Z)
    (content : list byte) (before : list relevantV3) (a : relevantV3)
    (after : list relevantV3) (m : bestMatch) :
  anchorMatch documentFrequencies relLength content before a after = Ret m ->
  m = scoreMatch documentFrequencies a (bracket relLength content before a after).
Proof.
  unfold anchorMatch. intros H.
  apply bind_Ret in H as (_ & _ & H). apply bind_Ret in H as (_ & _ & H).
  now injection H.
Qed.

Lemma slideAnchors_Ret (documentFrequencies : gmap string Z) (relLength : Z)
    (content : list byte) (rest : list relevantV3) :
  forall before ms,
    slideAnchors documentFrequencies relLength content before rest = Ret ms ->
    ms = scoredBrackets documentFrequencies relLength content before rest.
Proof.
  induction rest as [| a after IH]; intros before ms H; simpl in *.
  - now injection H.
  - apply bind_Ret in H as (m & Hm & H). apply bind_Ret in H as (tl & Htl & H).
    injection H as <-. apply anchorMatch_Ret in Hm as ->.
    now rewrite (IH _ _ Htl).
Qed.

Lemma scoredBrackets_elem (documentFrequencies : gmap string Z) (relLength : Z)
    (content : list byte) (rest : list relevantV3) :
  forall before m,
    m ∈ scoredBrackets documentFrequencies relLength content before rest ->
    exists pre a post,
      rest = pre ++ a :: post /\
      m = scoreMatch documentFrequencies a
            (bracket relLength content (reverse pre ++ before) a post).
Proof.
  induction rest as [| a after IH]; intros before m H; simpl in H.
  - now apply elem_of_nil in H.
  - apply elem_of_cons in H as [-> | H].
    + exists [], a, after. auto.
    + apply IH in H as (pre & b & post & -> & ->).
      exists (a :: pre), b, post. split; [reflexivity |].
      now rewrite reverse_cons, <- app_assoc.
Qed.

(** What a returned snippet is made of. *)
Lemma extractRelevantV3_Ret (res : fileJob) (documentFrequencies : gmap string Z)
    (relLength : Z) (indicator : string) (snip : Snippet) :
  extractRelevantV3 res documentFrequencies relLength indicator = Ret snip ->
  exists rv3 best body,
    flattenLocations (MatchLocations res) = Ret rv3 /\
    best ∈ scoredBrackets documentFrequencies relLength (Content res) []
             (sortSlice lessStart rv3) /\
    slice (Content res) (mStartPos best) (mEndPos best) = Ret body /\
    snip = {| sContent := String.append indicator
                            (String.append (string_of_list_byte body) indicator);
              StartPos := mStartPos best; EndPos := mEndPos best |}.
Proof.
  unfold extractRelevantV3. intros H.
  apply bind_Ret in H as (rv3 & Hflat & H).
  apply bind_Ret in H as (ms & Hms & H).
  apply bind_Ret in H as (best & Hbest & H).
  apply bind_Ret in H as (body & Hbody & H).
  injection H as <-. exists rv3, best, body.
  apply slideAnchors_Ret in Hms as ->.
  repeat split; try assumption.
  apply index_Ret in Hbest as [_ Hbest].
  apply list_elem_of_lookup_2 in Hbest.
  now rewrite sortSlice_Permutation in Hbest.
Qed.

(** ** The score of a bracket *)

Lemma of_uint63_not_negative_zero (i : int) :
  Prim2SF (PrimFloat.of_uint63 i) <> S754_zero true.
Proof.
  rewrite FloatAxioms.of_uint63_spec.
  pose proof (Uint63.to_Z_bounded i) as [Hi _].
  unfold binary_normalize.
  destruct (Uint63.to_Z i) as [| p | p]; [discriminate | | lia].
  unfold binary_round.
  destruct (shl_align p 0 _) as [mz ez].
  unfold binary_round_aux.
  destruct (shr_fexp _ _ _ _ _) as [mrs' e'].
  destruct (shr_fexp _ _ _ _ _) as [mrs'' e''].
  destruct (shr_m mrs'') as [| m | m]; try discriminate.
  destruct (e'' <=? _)%Z; discriminate.
Qed.

(** [0 + float64(n) + float64(0)] is [float64(n)]. *)
Lemma add_zero_of_uint63 (i : int) :
  PrimFloat.add (PrimFloat.add PrimFloat.zero (PrimFloat.of_uint63 i))
                (PrimFloat.of_uint63 (Uint63.of_Z 0))
  = PrimFloat.of_uint63 i.
Proof.
  apply FloatAxioms.Prim2SF_inj.
  rewrite !FloatAxioms.add_spec.
  pose proof (of_uint63_not_negative_zero i) as Hnz.
  change (Prim2SF PrimFloat.zero) with (S754_zero false).
  change (Prim2SF (PrimFloat.of_uint63 (Uint63.of_Z 0))) with (S754_zero false).
  destruct (Prim2SF (PrimFloat.of_uint63 i)) as [[|] | [|] | | [|] m e];
    try reflexivity; congruence.
Qed.

Lemma float64_nonnegative (z : Z) :
  0 <= z -> float64 z = PrimFloat.of_uint63 (Uint63.of_Z z).
Proof. intros Hz. unfold float64. destruct (z <? 0) eqn:E; [zlia | reflexivity]. Qed.

Lemma scoreMatch_fields (documentFrequencies : gmap string Z) (a : relevantV3)
    (m : bestMatch) :
  mStartPos (scoreMatch documentFrequencies a m) = mStartPos m /\
  mEndPos (scoreMatch documentFrequencies a m) = mEndPos m /\
  mRelevant (scoreMatch documentFrequencies a m) = mRelevant m.
Proof. auto. Qed.

Lemma scoreMatch_score (documentFrequencies : gmap string Z) (a : relevantV3)
    (m : bestMatch) :
  mScore m = PrimFloat.zero ->
  mScore (scoreMatch documentFrequencies a m) =
  PrimFloat.div (float64 (Z.of_nat (length (mRelevant m))))
                (float64 (frequencyOf documentFrequencies (rvWord a))).
Proof.
  intros Hzero. unfold scoreMatch. cbn [mScore]. rewrite Hzero.
  unfold Int64.sub. rewrite Z.sub_diag.
  change (float64 (Int64.wrap 0)) with (PrimFloat.of_uint63 (Uint63.of_Z 0)).
  rewrite (float64_nonnegative (Z.of_nat _)) by lia.
  now rewrite add_zero_of_uint63.
Qed.

(** C3, as the code has it: the bracket of an anchor holds the anchor
    and the matches the two loops capture, and its score is one plus the
    number of captured matches, divided by the count the frequency index
    holds for the anchor's term, as [float64]s.  The count is used as it
    is read: a term that is missing from the index reads as zero and the
    division is by zero. *)
Theorem bracket_score (documentFrequencies : gmap string Z) (relLength : Z)
    (content : list byte) (before : list relevantV3) (a : relevantV3)
    (after : list relevantV3) :
  let wrapLength := Int64.quot relLength 2 in
  let members := leftMembers wrapLength a before ++ rightMembers wrapLength a after in
  let m := scoreMatch documentFrequencies a (bracket relLength content before a after) in
  mRelevant m = a :: members /\
  mScore m = PrimFloat.div (float64 (1 + Z.of_nat (length members)))
                           (float64 (frequencyOf documentFrequencies (rvWord a))) /\
  frequencyOf documentFrequencies (rvWord a)
    = match documentFrequencies !! rvWord a with Some n => n | None => 0 end /\
  forall m', anchorMatch documentFrequencies relLength content before a after = Ret m' ->
             m' = m.
Proof.
  intros wrapLength members m.
  destruct (bracket_fields relLength content before a after) as [Hscore Hrel].
  split; [exact Hrel |]. split; [| split].
  - subst m. rewrite scoreMatch_score by exact Hscore. rewrite Hrel.
    subst members wrapLength. cbn [length]. rewrite Nat2Z.inj_succ.
    now rewrite <- Z.add_1_l.
  - reflexivity.
  - apply anchorMatch_Ret.
Qed.

Lemma bracket_score_witness :
  exists m,
    anchorMatch {[ "world"%string := 2 ]} 5 (Content docWorld) []
      (mkRelevantV3 "world" 6 11) [] = Ret m /\
    mRelevant m = [mkRelevantV3 "world" 6 11] /\
    mScore m = PrimFloat.div (float64 1) (float64 2).
Proof.
  destruct (bracket_score {[ "world"%string := 2 ]} 5 (Content docWorld) []
              (mkRelevantV3 "world" 6 11) []) as (Hrel & Hscore & _ & Hret).
  eexists. split; [vm_compute; reflexivity |].
  split; [exact Hrel | exact Hscore].
Defined.

(** C3 as stated fails: the anchor's term is missing from the frequency
    index, the denominator is zero and not one, and the score of the
    bracket is not finite. *)
Lemma bracket_score_missing_term_infinite :
  exists m,
    anchorMatch ∅ 5 (Content docWorld) [] (mkRelevantV3 "world" 6 11) [] = Ret m /\
    frequencyOf ∅ "world" = 0 /\
    mScore m = PrimFloat.infinity /\
    PrimFloat.is_finite (mScore m) = false /\
    PrimFloat.eqb (mScore m) (PrimFloat.div (float64 1) (float64 1)) = false.
Proof.
  eexists. split; [vm_compute; reflexivity |].
  repeat split; vm_compute; reflexivity.
Qed.

(** ** The rendered snippet *)

Lemma slice_Ret {A : Type} (l : list A) (lo hi : Z) (body : list A) :
  slice l lo hi = Ret body ->
  0 <= lo <= hi /\ hi <= Z.of_nat (length l) /\
  body = take (Z.to_nat (hi - lo)) (drop (Z.to_nat lo) l).
Proof.
  unfold slice.
  destruct (lo <? 0) eqn:H0; [discriminate |].
  destruct (hi <? lo) eqn:H1; [discriminate |].
  destruct (Z.of_nat (length l) <? hi) eqn:H2; [discriminate |].
  simpl. intros [= <-]. zbool. auto.
Qed.

(** C7, as the code has it: the content of a returned snippet is the
    indicator, the bytes of the document from [StartPos] up to [EndPos],
    and the indicator again.  The bytes are cut at the byte offsets as
    they are. *)
Theorem snippet_content_is_byte_slice (res : fileJob)
    (documentFrequencies : gmap string Z) (relLength : Z) (indicator : string)
    (snip : Snippet) :
  extractRelevantV3 res documentFrequencies relLength indicator = Ret snip ->
  0 <= StartPos snip <= EndPos snip /\
  sContent snip =
    String.append indicator
      (String.append
         (string_of_list_byte
            (take (Z.to_nat (EndPos snip - StartPos snip))
                  (drop (Z.to_nat (StartPos snip)) (Content res))))
         indicator).
Proof.
  intros H. apply extractRelevantV3_Ret in H as (rv3 & best & body & _ & _ & Hbody & ->).
  apply slice_Ret in Hbody as (Hlo & _ & ->). simpl. auto.
Qed.

Lemma snippet_content_is_byte_slice_witness :
  extractRelevantV3 docWorld {[ "world"%string := 1 ]} 5 "…"
    = Ret (mkSnippet "…world…" 6 11) /\
  sContent (mkSnippet "…world…" 6 11) =
    String.append "…"
      (String.append
         (string_of_list_byte (take 5 (drop 6 (Content docWorld)))) "…").
Proof.
  split; [vm_compute; reflexivity |].
  apply (snippet_content_is_byte_slice docWorld {[ "world"%string := 1 ]} 5 "…"
           (mkSnippet "…world…" 6 11)).
  vm_compute. reflexivity.
Defined.

(** C7 as stated fails: the window of [docAccent] ends at byte 2, between
    the two bytes of the letter that follows the match. *)
Lemma snippet_splits_rune :
  exists snip,
    extractRelevantV3 docAccent {[ "a"%string := 1 ]} 4 "…" = Ret snip /\
    StartPos snip = 0 /\ EndPos snip = 2 /\
    take 2 (drop 1 (Content docAccent)) = [Byte.xc3; Byte.xa9] /\
    splitsRune (Content docAccent) (EndPos snip) = true.
Proof.
  eexists. split; [vm_compute; reflexivity |].
  repeat split; vm_compute; reflexivity.
Qed.

(** ** Window boundaries and nearby white space *)

(** C8, as the code has it: the two calls of [findNearbySpace] are made
    and their results dropped, so the window of a returned snippet is
    the bracket of one of the anchors exactly as sliding and padding
    left it. *)
Theorem window_is_padded_bracket (res : fileJob)
    (documentFrequencies : gmap string Z) (relLength : Z) (indicator : string)
    (snip : Snippet) :
  extractRelevantV3 res documentFrequencies relLength indicator = Ret snip ->
  exists rv3 pre a post,
    flattenLocations (MatchLocations res) = Ret rv3 /\
    sortSlice lessStart rv3 = pre ++ a :: post /\
    StartPos snip = mStartPos (bracket relLength (Content res) (reverse pre) a post) /\
    EndPos snip = mEndPos (bracket relLength (Content res) (reverse pre) a post).
Proof.
  intros H. apply extractRelevantV3_Ret in H as (rv3 & best & body & Hflat & Hin & _ & ->).
  apply scoredBrackets_elem in Hin as (pre & a & post & Hsplit & ->).
  exists rv3, pre, a, post. rewrite app_nil_r. auto.
Qed.

Lemma window_is_padded_bracket_witness :
  extractRelevantV3 docWorld {[ "world"%string := 1 ]} 5 "…"
    = Ret (mkSnippet "…world…" 6 11) /\
  exists rv3 pre a post,
    flattenLocations (MatchLocations docWorld) = Ret rv3 /\
    sortSlice lessStart rv3 = pre ++ a :: post /\
    6 = mStartPos (bracket 5 (Content docWorld) (reverse pre) a post) /\
    11 = mEndPos (bracket 5 (Content docWorld) (reverse pre) a post).
Proof.
  split; [vm_compute; reflexivity |].
  apply (window_is_padded_bracket docWorld {[ "world"%string := 1 ]} 5 "…"
           (mkSnippet "…world…" 6 11)).
  vm_compute. reflexivity.
Defined.

(** C8 as stated fails: white space lies one byte to the left of the
    start of the window, [findNearbySpace] finds it, and the window
    still starts at the letter after it. *)
Lemma window_not_snapped :
  exists snip,
    extractRelevantV3 docWorld {[ "world"%string := 1 ]} 5 "…" = Ret snip /\
    findNearbySpace (Content docWorld) (StartPos snip) 10 = Ret (5, true) /\
    StartPos snip = 6 /\
    (let! c := index (Content docWorld) (StartPos snip) in Ret (isSpace c)) = Ret false.
Proof.
  eexists. split; [vm_compute; reflexivity |].
  repeat split; vm_compute; reflexivity.
Qed.

(** ** The order in which the match map is enumerated *)

Lemma flattenRanges_total (k : string) (v : list (list Z)) :
  Forall hasBothEnds v ->
  flattenRanges k v = Ret (List.map (rangeMatch k) v).
Proof.
  induction v as [| r rest IH]; intros Hall; [reflexivity |].
  apply Forall_cons in Hall as [Hr Hrest]. simpl. rewrite (IH Hrest).
  destruct r as [| s [| e tl]]; unfold hasBothEnds in Hr; simpl in Hr; try lia.
  now rewrite index_first, index_second.
Qed.

Lemma flattenRanges_fault (k : string) (v : list (list Z)) :
  ~ Forall hasBothEnds v ->
  flattenRanges k v = Panic IndexOutOfRange.
Proof.
  induction v as [| r rest IH]; intros Hnot.
  - exfalso. apply Hnot. constructor.
  - simpl. destruct r as [| s [| e tl]]; try reflexivity.
    rewrite index_first, index_second.
    cbn [bind]. rewrite IH; [reflexivity |].
    intros Hrest. apply Hnot. constructor; [| assumption].
    unfold hasBothEnds. simpl. lia.
Qed.

Lemma hasBothEnds_dec (v : list (list Z)) :
  {Forall hasBothEnds v} + {~ Forall hasBothEnds v}.
Proof.
  apply Forall_dec. intros r. unfold hasBothEnds. apply le_dec.
Qed.

Lemma flattenLocations_total (ml : matchLocations) :
  Forall hasBothEnds (allRanges ml) ->
  flattenLocations ml = Ret (flatMatches ml).
Proof.
  unfold allRanges, flatMatches.
  induction ml as [| [k v] rest IH]; intros Hall; [reflexivity |].
  cbn [List.map concat snd] in Hall. apply Forall_app in Hall as [Hv Hrest].
  simpl. rewrite flattenRanges_total by assumption.
  cbn [bind]. now rewrite IH.
Qed.

Lemma flattenLocations_fault (ml : matchLocations) :
  ~ Forall hasBothEnds (allRanges ml) ->
  flattenLocations ml = Panic IndexOutOfRange.
Proof.
  unfold allRanges.
  induction ml as [| [k v] rest IH]; intros Hnot.
  - exfalso. apply Hnot. constructor.
  - simpl. destruct (hasBothEnds_dec v) as [Hv | Hv].
    + rewrite flattenRanges_total by assumption. cbn [bind].
      rewrite IH; [reflexivity |].
      intros Hrest. apply Hnot. cbn [List.map concat snd].
      apply Forall_app. auto.
    + now rewrite flattenRanges_fault.
Qed.

Lemma allRanges_Permutation (ml1 ml2 : matchLocations) :
  Permutation ml1 ml2 -> Permutation (allRanges ml1) (allRanges ml2).
Proof.
  unfold allRanges. induction 1 as [| x l l' _ IH | x y l | l l' l'' _ IH1 _ IH2]; simpl.
  - reflexivity.
  - now rewrite IH.
  - rewrite !app_assoc. f_equiv. apply Permutation_app_comm.
  - now rewrite IH1.
Qed.

Lemma flatMatches_Permutation (ml1 ml2 : matchLocations) :
  Permutation ml1 ml2 -> Permutation (flatMatches ml1) (flatMatches ml2).
Proof.
  unfold flatMatches. induction 1 as [| x l l' _ IH | x y l | l l' l'' _ IH1 _ IH2]; simpl.
  - reflexivity.
  - now rewrite IH.
  - rewrite !app_assoc. f_equiv. apply Permutation_app_comm.
  - now rewrite IH1.
Qed.

(** C4, as the code has it: [sort.Slice] orders the matches by their
    start offset only, so the enumeration order of the map is sorted out
    when no two matches of the document start at the same offset.  For
    such a document any two enumerations of its match map give the same
    result, a snippet or a fault. *)
Theorem extractRelevantV3_order_independent (res1 res2 : fileJob)
    (documentFrequencies : gmap string Z) (relLength : Z) (indicator : string) :
  Content res1 = Content res2 ->
  Permutation (MatchLocations res1) (MatchLocations res2) ->
  NoDup (matchStarts (MatchLocations res1)) ->
  extractRelevantV3 res1 documentFrequencies relLength indicator =
  extractRelevantV3 res2 documentFrequencies relLength indicator.
Proof.
  intros Hcontent Hperm Hstarts. unfold extractRelevantV3. rewrite <- Hcontent.
  destruct (hasBothEnds_dec (allRanges (MatchLocations res1))) as [Hall | Hnot].
  - rewrite (flattenLocations_total (MatchLocations res1)) by assumption.
    rewrite (flattenLocations_total (MatchLocations res2))
      by now rewrite <- (allRanges_Permutation _ _ Hperm).
    cbn [bind]. unfold lessStart.
    rewrite (sortSlice_unique rvStart _ (flatMatches (MatchLocations res2))).
    + reflexivity.
    + apply flatMatches_Permutation, Hperm.
    + exact Hstarts.
  - rewrite (flattenLocations_fault (MatchLocations res1)) by assumption.
    rewrite (flattenLocations_fault (MatchLocations res2)); [reflexivity |].
    now rewrite <- (allRanges_Permutation _ _ Hperm).
Qed.

Lemma extractRelevantV3_order_independent_witness :
  extractRelevantV3
    (sampleJob "abcdef" [("a"%string, [[0; 1]]); ("cd"%string, [[2; 4]])])
    tieFrequencies 2 "…" =
  extractRelevantV3
    (sampleJob "abcdef" [("cd"%string, [[2; 4]]); ("a"%string, [[0; 1]])])
    tieFrequencies 2 "…".
Proof.
  apply extractRelevantV3_order_independent.
  - reflexivity.
  - apply perm_swap.
  - change (NoDup [0; 2]). apply NoDup_cons. split; [| apply NoDup_singleton].
    rewrite list_elem_of_singleton. discriminate.
Defined.

(** C4 as stated fails: the terms "a" and "ab" both match at offset
    zero; the two enumerations of that one map give two different
    snippets. *)
Lemma extractRelevantV3_depends_on_map_order :
  Content docTieA = Content docTieB /\
  Permutation (MatchLocations docTieA) (MatchLocations docTieB) /\
  extractRelevantV3 docTieA tieFrequencies 1 "…" = Ret (mkSnippet "…a…" 0 1) /\
  extractRelevantV3 docTieB tieFrequencies 1 "…" = Ret (mkSnippet "…ab…" 0 2) /\
  extractRelevantV3 docTieA tieFrequencies 1 "…"
    <> extractRelevantV3 docTieB tieFrequencies 1 "…".
Proof.
  split; [reflexivity |]. split; [apply perm_swap |].
  split; [vm_compute; reflexivity |]. split; [vm_compute; reflexivity |].
  vm_compute. discriminate.
Qed.

(** ** The window of a well-formed document *)

Lemma validRange_hasBothEnds (r : list Z) : validRange r -> hasBothEnds r.
Proof. intros (s & e & -> & _). unfold hasBothEnds. simpl. lia. Qed.

Lemma flatMatches_start_nonnegative (ml : matchLocations) :
  Forall validRange (allRanges ml) ->
  Forall (fun c => 0 <= rvStart c) (flatMatches ml).
Proof.
  unfold allRanges, flatMatches.
  induction ml as [| [k v] rest IH]; intros Hall; [constructor |].
  cbn [List.map concat snd fst] in *. apply Forall_app in Hall as [Hv Hrest].
  apply Forall_app. split; [| auto].
  clear - Hv. induction Hv as [| r v (s & e & -> & Hse & _) _ IH]; simpl.
  - constructor.
  - constructor; [simpl; lia | exact IH].
Qed.

Lemma slideLeft_start_nonnegative (wrapLength : Z) (a : relevantV3)
    (cands : list relevantV3) :
  Forall (fun c => 0 <= rvStart c) cands ->
  forall m, 0 <= mStartPos m -> 0 <= mStartPos (slideLeft wrapLength a cands m).
Proof.
  induction 1 as [| c rest Hc _ IH]; intros m Hm; simpl; [assumption |].
  destruct (wrapLength <? Int64.sub (rvEnd a) (rvStart c)); [assumption |].
  apply IH. exact Hc.
Qed.

Lemma padMatch_start_nonnegative (relLength contentLen : Z) (m : bestMatch) :
  0 <= mStartPos m -> 0 <= mStartPos (padMatch relLength contentLen m).
Proof.
  intros Hm. unfold padMatch.
  destruct (Int64.sub (mEndPos m) (mStartPos m) <? relLength); [| assumption].
  cbn [mStartPos].
  match goal with |- context [if ?c then _ else _] => destruct c eqn:E end; zlia.
Qed.

Lemma bracket_start_nonnegative (relLength : Z) (content : list byte)
    (before : list relevantV3) (a : relevantV3) (after : list relevantV3) :
  Forall (fun c => 0 <= rvStart c) before ->
  0 <= rvStart a ->
  0 <= mStartPos (bracket relLength content before a after).
Proof.
  intros Hbefore Ha. unfold bracket.
  apply padMatch_start_nonnegative.
  match goal with |- context [slideRight ?w _ _ ?m] =>
    destruct (slideRight_fields w a after m) as (-> & _ & _) end.
  apply slideLeft_start_nonnegative; assumption.
Qed.

Lemma extractRelevantV3_start_nonnegative (res : fileJob)
    (documentFrequencies : gmap string Z) (relLength : Z) (indicator : string)
    (snip : Snippet) :
  validJob res ->
  extractRelevantV3 res documentFrequencies relLength indicator = Ret snip ->
  0 <= StartPos snip.
Proof.
  intros Hvalid H.
  apply extractRelevantV3_Ret in H as (rv3 & best & body & Hflat & Hin & _ & ->).
  rewrite flattenLocations_total in Hflat
    by (eapply Forall_impl; [exact Hvalid | exact validRange_hasBothEnds]).
  injection Hflat as <-.
  apply scoredBrackets_elem in Hin as (pre & a & post & Hsplit & ->).
  pose proof (flatMatches_start_nonnegative _ Hvalid) as Hstarts.
  rewrite <- (sortSlice_Permutation lessStart), Hsplit in Hstarts.
  apply Forall_app in Hstarts as [Hpre Hrest].
  apply Forall_cons in Hrest as [Ha _].
  cbn [StartPos]. rewrite app_nil_r.
  destruct (scoreMatch_fields documentFrequencies a
              (bracket relLength (Content res) (reverse pre) a post)) as (-> & _).
  apply bracket_start_nonnegative; [| exact Ha].
  now rewrite reverse_Permutation.
Qed.

(** ** Highlights in window-local coordinates *)

Lemma highlights_elem (startPos endPos : Z) (ranges : list (list Z)) (r : list Z) :
  Forall validRange ranges ->
  In r (List.map (shiftRange startPos) (List.filter (inWindow startPos endPos) ranges)) <->
  exists s e,
    In [s; e] ranges /\ startPos <= s /\ e <= endPos /\
    r = [s - startPos; e - startPos].
Proof.
  intros Hall. rewrite in_map_iff. split.
  - intros (x & <- & Hx). apply filter_In in Hx as [Hin Hwin].
    rewrite Forall_forall in Hall.
    destruct (Hall x (proj2 (list_elem_of_In _ _) Hin)) as (s & e & -> & _).
    simpl in Hwin. apply andb_true_iff in Hwin as [Hs He]. zbool.
    exists s, e. auto.
  - intros (s & e & Hin & Hs & He & ->). exists [s; e]. split; [reflexivity |].
    apply filter_In. split; [exact Hin |]. simpl.
    apply andb_true_iff. split; [apply Z.leb_le | apply Z.leb_le]; assumption.
Qed.

(** C5: for a document whose ranges are [[start, end]] pairs with
    [0 <= start <= end] and the window the selector chose for it, the
    highlight loop of [formatJson] and of [formatDefault] yields, for
    whatever order the map is enumerated in, exactly the ranges with
    [start >= StartPos] and [end <= EndPos], each moved to
    [[start - StartPos, end - StartPos]]; the other ranges are left
    out.  This list is what [formatJson] puts into the record and what
    [formatDefault] highlights. *)
Theorem highlights_are_ranges_inside_window (res : fileJob)
    (documentFrequency : gmap string Z) (SnippetLength : Z) (snip : Snippet) :
  validJob res ->
  extractRelevantV3 res documentFrequency SnippetLength "…" = Ret snip ->
  let highlights (enumeration : matchLocations) :=
    List.map (shiftRange (StartPos snip))
      (List.filter (inWindow (StartPos snip) (EndPos snip)) (allRanges enumeration)) in
  (forall enumeration,
     Permutation enumeration (MatchLocations res) ->
     (exists ml',
        highlightLocations (StartPos snip) (EndPos snip) enumeration
          = Ret (highlights enumeration, ml')) /\
     (forall r,
        In r (highlights enumeration) <->
        exists s e,
          In [s; e] (allRanges (MatchLocations res)) /\
          StartPos snip <= s /\ e <= EndPos snip /\
          r = [s - StartPos snip; e - StartPos snip])) /\
  (exists j res',
     formatJsonResult documentFrequency SnippetLength res = Ret (j, res') /\
     jContent j = sContent snip /\
     jMatchLocations j = highlights (MatchLocations res)) /\
  (forall SnippetCount, 1 <= SnippetCount ->
     exists res',
       formatDefaultResult documentFrequency SnippetLength SnippetCount res
         = Ret ([(sContent snip,
                  if (StartPos snip =? 0) && (EndPos snip =? 0) then None
                  else Some (highlights (MatchLocations res)))], res')).
Proof.
  intros Hvalid Hsnip highlights.
  pose proof (extractRelevantV3_start_nonnegative _ _ _ _ _ Hvalid Hsnip) as Hstart.
  pose proof (highlightLocations_valid (StartPos snip) (EndPos snip)
                (MatchLocations res) Hstart Hvalid) as Hloop.
  fold (highlights (MatchLocations res)) in Hloop.
  split; [| split].
  - intros enumeration Hperm.
    assert (Hvalid' : Forall validRange (allRanges enumeration))
      by (now rewrite (allRanges_Permutation _ _ Hperm)).
    split.
    + rewrite (highlightLocations_valid _ _ enumeration Hstart Hvalid'). eauto.
    + intros r. unfold highlights. rewrite (highlights_elem _ _ _ r Hvalid').
      split; intros (s & e & Hin & Hrest); exists s, e; (split; [| exact Hrest]);
        apply list_elem_of_In; apply list_elem_of_In in Hin;
        [rewrite <- (allRanges_Permutation _ _ Hperm)
        | rewrite (allRanges_Permutation _ _ Hperm)]; exact Hin.
  - unfold formatJsonResult. rewrite Hsnip. cbn [bind]. rewrite Hloop. cbn [bind].
    eexists _, _. split; [reflexivity |]. auto.
  - intros count Hcount. unfold formatDefaultResult. rewrite Hsnip. cbn [bind].
    destruct (count <? Z.of_nat (length [snip])) eqn:E; [simpl in E; zlia |].
    cbn [bind highlightSnippets]. rewrite Hloop. cbn [bind fst snd].
    eexists. destruct ((StartPos snip =? 0) && (EndPos snip =? 0)); reflexivity.
Qed.

Lemma highlights_are_ranges_inside_window_witness :
  validJob docTwo /\
  extractRelevantV3 docTwo {[ "world"%string := 1; "text"%string := 2 ]} 5 "…"
    = Ret (mkSnippet "…world…" 6 11) /\
  exists j res',
    formatJsonResult {[ "world"%string := 1; "text"%string := 2 ]} 5 docTwo
      = Ret (j, res') /\
    jContent j = "…world…"%string /\ jMatchLocations j = [[0; 5]].
Proof.
  assert (Hvalid : validJob docTwo).
  { unfold validJob. simpl.
    repeat constructor; eexists _, _; (split; [reflexivity |]);
      unfold Int64.max_int; lia. }
  assert (Hsnip : extractRelevantV3 docTwo
                    {[ "world"%string := 1; "text"%string := 2 ]} 5 "…"
                  = Ret (mkSnippet "…world…" 6 11)) by (vm_compute; reflexivity).
  split; [exact Hvalid |]. split; [exact Hsnip |].
  exact (proj1 (proj2 (highlights_are_ranges_inside_window docTwo _ 5 _ Hvalid Hsnip))).
Defined.

(** ** The match map after the highlight loop *)

(** C6, evaluated on the code: the highlight loop assigns to [s[0]] and
    [s[1]], and [s] shares its cells with the document's match map.
    After [formatJson] the map of [docWorld] holds the window-local
    range [[0, 5]] where the matcher had put [[6, 11]]; the other fields
    are as they were.  A second turn of the loop of [formatDefault] over
    the same window then finds no range inside the window. *)
Theorem formatJson_overwrites_match_offsets :
  exists records after,
    formatJson 5 [docWorld] = Ret (records, [after]) /\
    MatchLocations docWorld = [("world"%string, [[6; 11]])] /\
    MatchLocations after = [("world"%string, [[0; 5]])] /\
    Filename after = Filename docWorld /\
    Location after = Location docWorld /\
    Content after = Content docWorld /\
    Bytes after = Bytes docWorld /\
    Score after = Score docWorld /\
    highlightSnippets [mkSnippet "…world…" 6 11; mkSnippet "…world…" 6 11]
      (MatchLocations docWorld)
    = Ret ([("…world…"%string, Some [[0; 5]]); ("…world…"%string, Some [])],
           [("world"%string, [[0; 5]])]).
Proof.
  eexists _, _. split; [vm_compute; reflexivity |].
  repeat split; vm_compute; reflexivity.
Qed.


(** * Further properties of the code *)

(** ** calculatePrevCount *)

(** The count is [relLength / divisor] when that is positive and 50
    otherwise, a divisor that is not positive counting as 6: the result
    is never zero or negative. *)
Theorem calculatePrevCount_value (relLength divisor : Z) :
  Int64.in_range relLength ->
  let d := if divisor <=? 0 then 6 else divisor in
  calculatePrevCount relLength divisor = (if relLength <? d then 50 else relLength / d) /\
  1 <= calculatePrevCount relLength divisor <= Z.max 50 relLength.
Proof.
  intros Hr d. unfold calculatePrevCount. fold d.
  assert (Hd : 0 < d) by (subst d; destruct (divisor <=? 0) eqn:E; zlia).
  assert (Hq : Int64.quot relLength d = Z.quot relLength d).
  { apply Int64_wrap_in_range. unfold Int64.in_range, Int64.min_int, Int64.max_int in *.
    destruct (Z_lt_le_dec relLength 0) as [Hneg | Hpos].
    - pose proof (Z.quot_opp_l (- relLength) d ltac:(lia)) as Ho.
      rewrite Z.opp_involutive in Ho.
      pose proof (Z.quot_pos (- relLength) d ltac:(lia) Hd).
      pose proof (Z.quot_le_upper_bound (- relLength) d (- relLength) Hd ltac:(nia)).
      lia.
    - pose proof (Z.quot_pos relLength d Hpos Hd).
      pose proof (Z.quot_le_upper_bound relLength d relLength Hd ltac:(nia)).
      lia. }
  rewrite Hq.
  destruct (relLength <? d) eqn:Elt; zbool.
  - assert (Z.quot relLength d <= 0) as Hle.
    { destruct (Z_lt_le_dec relLength 0) as [Hneg | Hpos].
      - pose proof (Z.quot_opp_l (- relLength) d ltac:(lia)) as Ho.
        rewrite Z.opp_involutive in Ho.
        pose proof (Z.quot_pos (- relLength) d ltac:(lia) Hd). lia.
      - rewrite Z.quot_small by lia. lia. }
    destruct (Z.quot relLength d <=? 0) eqn:E; zbool; [| lia].
    split; [reflexivity | lia].
  - rewrite Z.quot_div_nonneg by lia.
    assert (1 <= relLength / d) by (apply Z.div_le_lower_bound; lia).
    assert (relLength / d <= relLength) by (apply Z.div_le_upper_bound; nia).
    destruct (relLength / d <=? 0) eqn:E; zbool; [lia |].
    split; [reflexivity | lia].
Qed.

Lemma calculatePrevCount_value_witness :
  calculatePrevCount 300 0 = 50 /\ calculatePrevCount 5 6 = 50 /\
  getPrevCount 300 = 50.
Proof.
  split; [| split].
  - apply (calculatePrevCount_value 300 0). unfold Int64.in_range. vm_compute.
    split; discriminate.
  - apply (calculatePrevCount_value 5 6). unfold Int64.in_range. vm_compute.
    split; discriminate.
  - reflexivity.
Defined.

(** ** Ranging over a string *)

Lemma runeOffsetsFrom_bounds (s : list byte) :
  forall j skip,
    Forall (fun o => j <= o < j + Z.of_nat (length s)) (runeOffsetsFrom s j skip).
Proof.
  induction s as [| b tl IH]; intros j skip; simpl; [constructor |].
  assert (Htl : forall k, Forall (fun o => j <= o < j + Z.of_nat (S (length tl)))
                            (runeOffsetsFrom tl (j + 1) k)).
  { intros k. eapply Forall_impl; [apply IH |]. simpl. intros o Ho. lia. }
  destruct skip as [| k]; [constructor; [lia |] |]; apply Htl.
Qed.

Lemma runeOffsetsFrom_ascending (s : list byte) :
  forall j skip, StronglySorted Z.lt (runeOffsetsFrom s j skip).
Proof.
  induction s as [| b tl IH]; intros j skip; simpl; [constructor |].
  destruct skip as [| k]; [| apply IH].
  constructor; [apply IH |].
  eapply Forall_impl; [apply runeOffsetsFrom_bounds |]. simpl. intros o Ho. lia.
Qed.

Lemma runeOffsets_bounds (s : list byte) :
  Forall (fun o => 0 <= o < Z.of_nat (length s)) (runeOffsets s).
Proof. apply (runeOffsetsFrom_bounds s 0 0). Qed.

(** A text of ASCII bytes has a rune at every byte. *)
Lemma runeOffsetsFrom_ascii (s : list byte) :
  forall j,
    Forall (fun b => (Byte.to_N b < 128)%N) s ->
    runeOffsetsFrom s j 0 = seqZ j (Z.of_nat (length s)).
Proof.
  induction s as [| b tl IH]; intros j Hall; [reflexivity |].
  apply Forall_cons in Hall as [Hb Htl].
  rewrite seqZ_cons by (simpl; lia).
  cbn [runeOffsetsFrom runeWidth].
  assert ((Byte.to_N b <? 0xC2)%N = true) as -> by (apply N.ltb_lt; lia).
  cbn [Nat.sub]. rewrite IH by assumption. f_equal. f_equal; simpl; lia.
Qed.

(** ** subString *)

Lemma offsetAt_head (j : Z) (rest : list Z) (i : Z) : offsetAt (j :: rest) i i = Some j.
Proof. unfold offsetAt. rewrite Z.ltb_irrefl, Z.sub_diag. reflexivity. Qed.

Lemma offsetAt_tail (j : Z) (rest : list Z) (i k : Z) :
  k <> i -> offsetAt (j :: rest) i k = offsetAt rest (i + 1) k.
Proof.
  intros Hne. unfold offsetAt.
  destruct (k <? i) eqn:E1; destruct (k <? i + 1) eqn:E2; zbool; try lia; try reflexivity.
  replace (Z.to_nat (k - i)) with (S (Z.to_nat (k - (i + 1)))) by lia. reflexivity.
Qed.

Lemma subStringLoop_cut (s : list byte) (offsets : list Z) :
  forall i start_str_idx start end_,
    0 <= i -> i + Z.of_nat (length offsets) <= Int64.max_int ->
    subStringLoop s offsets i start_str_idx start end_ =
    slice s (cutStart offsets i start_str_idx start end_) (cutEnd s offsets i end_).
Proof.
  induction offsets as [| j rest IH]; intros i idx start end_ Hi Hmax.
  - unfold cutStart, cutEnd, offsetAt. simpl.
    destruct (end_ <? i), (start <? i); rewrite ?lookup_nil; reflexivity.
  - cbn [subStringLoop]. destruct (i =? end_) eqn:Eend; zbool.
    + subst end_. unfold cutStart, cutEnd. rewrite offsetAt_head. cbn [default].
      destruct (i <? start) eqn:Es; zbool.
      * destruct (i =? start) eqn:E; zbool; [lia | reflexivity].
      * destruct (i =? start) eqn:E; zbool.
        -- subst start. now rewrite offsetAt_head.
        -- unfold offsetAt. destruct (start <? i) eqn:E'; zbool; [reflexivity | lia].
    + assert (Int64.add i 1 = i + 1) as ->.
      { apply Int64_wrap_in_range. simpl in Hmax.
        unfold Int64.in_range, Int64.min_int, Int64.max_int in *. lia. }
      rewrite IH by (simpl in Hmax; lia).
      unfold cutStart, cutEnd. rewrite !(offsetAt_tail j rest i end_) by lia.
      f_equal.
      destruct (i =? start) eqn:Es; zbool.
      * subst start. rewrite offsetAt_head.
        assert (offsetAt rest (i + 1) i = None) as ->
          by (unfold offsetAt; destruct (i <? i + 1) eqn:E; zbool; [reflexivity | lia]).
        cbn [default].
        destruct (offsetAt rest (i + 1) end_) eqn:Eo; [| reflexivity].
        destruct (end_ <? i) eqn:E; zbool; [| reflexivity].
        unfold offsetAt in Eo. destruct (end_ <? i + 1) eqn:E'; zbool; [discriminate | lia].
      * rewrite (offsetAt_tail j rest i start) by lia. reflexivity.
Qed.

Lemma offsetAt_elem (offsets : list Z) (i k o : Z) :
  offsetAt offsets i k = Some o -> o ∈ offsets.
Proof.
  unfold offsetAt. destruct (k <? i); [discriminate |].
  apply list_elem_of_lookup_2.
Qed.

Lemma offsetAt_le (offsets : list Z) (i k1 k2 o1 o2 : Z) :
  StronglySorted Z.lt offsets -> i <= k1 <= k2 ->
  offsetAt offsets i k1 = Some o1 -> offsetAt offsets i k2 = Some o2 -> o1 <= o2.
Proof.
  intros Hs Hk. unfold offsetAt.
  destruct (k1 <? i) eqn:E1; [discriminate |].
  destruct (k2 <? i) eqn:E2; [discriminate |]. zbool. intros H1 H2.
  destruct (Z.eq_dec k1 k2) as [-> | Hne]; [rewrite H1 in H2; injection H2; lia |].
  assert (Hlt : (Z.to_nat (k1 - i) < Z.to_nat (k2 - i))%nat) by lia.
  clear - Hs H1 H2 Hlt. revert H1 H2 Hlt.
  generalize (Z.to_nat (k1 - i)) (Z.to_nat (k2 - i)). intros n1 n2.
  revert n1 n2. induction Hs as [| x l Hl IH Hx]; intros n1 n2 H1 H2 Hlt.
  - now rewrite lookup_nil in H1.
  - destruct n2 as [| n2]; [lia |]. simpl in H2.
    destruct n1 as [| n1].
    + simpl in H1. injection H1 as <-.
      rewrite Forall_forall in Hx.
      pose proof (Hx o2 (list_elem_of_lookup_2 _ _ _ H2)). lia.
    + simpl in H1. apply (IH n1 n2); [assumption | assumption | lia].
Qed.

Lemma runeOffsetsFrom_length (s : list byte) :
  forall j skip, (length (runeOffsetsFrom s j skip) <= length s)%nat.
Proof.
  induction s as [| b tl IH]; intros j skip; cbn [runeOffsetsFrom length]; [lia |].
  destruct skip as [| k]; cbn [length].
  - specialize (IH (j + 1) (runeWidth (b :: tl) - 1)%nat). lia.
  - specialize (IH (j + 1) k). lia.
Qed.

Lemma subString_cut (s : list byte) (start end_ : Z) :
  Z.of_nat (length s) <= Int64.max_int ->
  subString s start end_ =
  slice s (cutStart (runeOffsets s) 0 0 start end_) (cutEnd s (runeOffsets s) 0 end_).
Proof.
  intros Hlen. unfold subString. apply subStringLoop_cut; [lia |].
  pose proof (runeOffsetsFrom_length s 0 0). unfold runeOffsets. lia.
Qed.

Ltac cut_side :=
  first [lia | now left | right; eapply offsetAt_elem; eassumption].

Lemma cut_in_text (s : list byte) (start end_ : Z) :
  let a := cutStart (runeOffsets s) 0 0 start end_ in
  let b := cutEnd s (runeOffsets s) 0 end_ in
  0 <= a <= b /\ b <= Z.of_nat (length s) /\
  (a = 0 \/ a ∈ runeOffsets s) /\
  (b = Z.of_nat (length s) \/ b ∈ runeOffsets s).
Proof.
  intros a b. subst a b. unfold cutStart, cutEnd.
  pose proof (runeOffsets_bounds s) as Hb. rewrite Forall_forall in Hb.
  pose proof (runeOffsetsFrom_ascending s 0 0) as Hs. fold (runeOffsets s) in Hs.
  destruct (offsetAt (runeOffsets s) 0 end_) as [b |] eqn:Eb;
    cbn [default from_option id].
  - pose proof (Hb b (offsetAt_elem _ _ _ _ Eb)) as Hbb.
    destruct (end_ <? start) eqn:Elt; zbool.
    + repeat split; cut_side.
    + destruct (offsetAt (runeOffsets s) 0 start) as [a |] eqn:Ea;
        cbn [default from_option id].
      * pose proof (Hb a (offsetAt_elem _ _ _ _ Ea)) as Haa.
        assert (0 <= start)
          by (unfold offsetAt in Ea; destruct (start <? 0) eqn:E; zbool;
              [discriminate | lia]).
        pose proof (offsetAt_le _ 0 start end_ a b Hs ltac:(lia) Ea Eb).
        repeat split; cut_side.
      * repeat split; cut_side.
  - destruct (offsetAt (runeOffsets s) 0 start) as [a |] eqn:Ea;
      cbn [default from_option id].
    + pose proof (Hb a (offsetAt_elem _ _ _ _ Ea)) as Haa.
      repeat split; cut_side.
    + repeat split; cut_side.
Qed.

(** [subString] returns for every text and every pair of indices: it
    never slices out of bounds.  What it returns is the text from one
    byte offset up to another, and each of the two is the start of a
    rune or an end of the text. *)
Theorem subString_returns_rune_aligned_piece (s : list byte) (start end_ : Z) :
  Z.of_nat (length s) <= Int64.max_int ->
  exists a b,
    subString s start end_ = Ret (take (Z.to_nat (b - a)) (drop (Z.to_nat a) s)) /\
    0 <= a <= b /\ b <= Z.of_nat (length s) /\
    (a = 0 \/ a ∈ runeOffsets s) /\
    (b = Z.of_nat (length s) \/ b ∈ runeOffsets s).
Proof.
  intros Hlen. rewrite subString_cut by assumption.
  pose proof (cut_in_text s start end_) as (Ha & Hb & Hin).
  eexists _, _. split; [| split; [exact Ha | split; [exact Hb | exact Hin]]].
  unfold slice.
  match goal with |- context [if ?c then _ else _] => destruct c eqn:E end;
    [| reflexivity].
  apply orb_true_iff in E as [E | E]; [apply orb_true_iff in E as [E | E] |]; zlia.
Qed.

Lemma subString_returns_rune_aligned_piece_witness :
  exists a b,
    subString (list_byte_of_string "aé…b") 1 3
      = Ret (take (Z.to_nat (b - a)) (drop (Z.to_nat a) (list_byte_of_string "aé…b"))) /\
    0 <= a <= b /\ b <= 7 /\
    (a = 0 \/ a ∈ runeOffsets (list_byte_of_string "aé…b")) /\
    (b = 7 \/ b ∈ runeOffsets (list_byte_of_string "aé…b")).
Proof.
  apply (subString_returns_rune_aligned_piece (list_byte_of_string "aé…b") 1 3).
  vm_compute. discriminate.
Defined.

Lemma subString_cut_Ret (s : list byte) (start end_ : Z) :
  Z.of_nat (length s) <= Int64.max_int ->
  subString s start end_ =
  Ret (take (Z.to_nat (cutEnd s (runeOffsets s) 0 end_
                       - cutStart (runeOffsets s) 0 0 start end_))
         (drop (Z.to_nat (cutStart (runeOffsets s) 0 0 start end_)) s)).
Proof.
  intros Hlen. rewrite subString_cut by assumption.
  pose proof (cut_in_text s start end_) as (Ha & Hb & _).
  unfold slice.
  match goal with |- context [if ?c then _ else _] => destruct c eqn:E end;
    [| reflexivity].
  apply orb_true_iff in E as [E | E]; [apply orb_true_iff in E as [E | E] |]; zlia.
Qed.

Lemma offsetAt_zero (offsets : list Z) (k : Z) :
  0 <= k -> offsetAt offsets 0 k = offsets !! Z.to_nat k.
Proof.
  intros Hk. unfold offsetAt. destruct (k <? 0) eqn:E; zbool; [lia |].
  now rewrite Z.sub_0_r.
Qed.

Lemma offsetAt_out_of_range (offsets : list Z) (k : Z) :
  k < 0 \/ Z.of_nat (length offsets) <= k -> offsetAt offsets 0 k = None.
Proof.
  intros [Hk | Hk]; unfold offsetAt; destruct (k <? 0) eqn:E; zbool;
    try reflexivity; try lia.
  apply lookup_ge_None. lia.
Qed.

(** [subString] counts runes, not bytes: for [0 <= start <= end] and a
    text that has a rune with the index [start], the result runs from
    the byte offset of that rune up to the byte offset of the rune with
    the index [end], or up to the end of the text when the text has no
    such rune. *)
Theorem subString_by_rune_index (s : list byte) (start end_ a : Z) :
  Z.of_nat (length s) <= Int64.max_int ->
  0 <= start <= end_ ->
  runeOffsets s !! Z.to_nat start = Some a ->
  let b := default (Z.of_nat (length s)) (runeOffsets s !! Z.to_nat end_) in
  subString s start end_ = Ret (take (Z.to_nat (b - a)) (drop (Z.to_nat a) s)).
Proof.
  intros Hlen Hse Ha b. rewrite subString_cut_Ret by assumption.
  unfold cutStart, cutEnd. rewrite !offsetAt_zero by lia. rewrite Ha. fold b.
  destruct (runeOffsets s !! Z.to_nat end_); cbn [default from_option id];
    [| reflexivity].
  destruct (end_ <? start) eqn:E; zbool; [lia | reflexivity].
Qed.

Lemma subString_by_rune_index_witness :
  subString (list_byte_of_string "aé…b") 1 3
  = Ret (take 5 (drop 1 (list_byte_of_string "aé…b"))).
Proof.
  apply (subString_by_rune_index (list_byte_of_string "aé…b") 1 3 1).
  - vm_compute. discriminate.
  - lia.
  - reflexivity.
Defined.

(** On a text of ASCII bytes rune indices are byte offsets: for
    [0 <= start <= end] and [start] inside the text, [subString] is the
    byte slice from [start] to [end], cut off at the end of the text. *)
Theorem subString_ascii (s : list byte) (start end_ : Z) :
  Z.of_nat (length s) <= Int64.max_int ->
  Forall (fun b => (Byte.to_N b < 128)%N) s ->
  0 <= start <= end_ -> start < Z.of_nat (length s) ->
  subString s start end_ =
  Ret (take (Z.to_nat (Z.min end_ (Z.of_nat (length s)) - start))
         (drop (Z.to_nat start) s)).
Proof.
  intros Hlen Hascii Hse Hstart.
  assert (Hoffs : runeOffsets s = seqZ 0 (Z.of_nat (length s)))
    by (apply runeOffsetsFrom_ascii, Hascii).
  rewrite subString_cut_Ret by assumption.
  unfold cutStart, cutEnd. rewrite !offsetAt_zero by lia. rewrite Hoffs.
  rewrite (lookup_seqZ_lt 0 (Z.of_nat (length s)) (Z.to_nat start)) by lia.
  destruct (Z_lt_le_dec end_ (Z.of_nat (length s))) as [Hin | Hout].
  - rewrite lookup_seqZ_lt by lia. cbn [default from_option id].
    destruct (end_ <? start) eqn:E; zbool; [lia |].
    do 3 f_equal; lia.
  - rewrite lookup_seqZ_ge by lia. cbn [default from_option id].
    do 3 f_equal; lia.
Qed.

Lemma subString_ascii_witness :
  subString (list_byte_of_string "hello world") 6 99
  = Ret (list_byte_of_string "world").
Proof.
  apply (subString_ascii (list_byte_of_string "hello world") 6 99).
  - vm_compute. discriminate.
  - repeat constructor.
  - lia.
  - simpl. lia.
Defined.

(** The cut starts at byte 0 whenever [start] is not the index of a rune
    of the text, and also whenever [end] is the index of a rune and lies
    before [start]: with [start] at or past the number of runes and
    [end] likewise, [subString] returns the whole text. *)
Theorem subString_start_falls_back_to_zero (s : list byte) (start end_ : Z) :
  Z.of_nat (length s) <= Int64.max_int ->
  start < 0 \/ Z.of_nat (length (runeOffsets s)) <= start \/
    (0 <= end_ < start /\ end_ < Z.of_nat (length (runeOffsets s))) ->
  subString s start end_ = Ret (take (Z.to_nat (cutEnd s (runeOffsets s) 0 end_)) s) /\
  (end_ < 0 \/ Z.of_nat (length (runeOffsets s)) <= end_ ->
   subString s start end_ = Ret s).
Proof.
  intros Hlen Hstart. rewrite subString_cut_Ret by assumption.
  assert (Hcut : cutStart (runeOffsets s) 0 0 start end_ = 0).
  { unfold cutStart. destruct Hstart as [Hs | [Hs | [Hs He]]].
    - rewrite (offsetAt_out_of_range _ start) by auto.
      destruct (offsetAt (runeOffsets s) 0 end_); [destruct (end_ <? start) |];
        reflexivity.
    - rewrite (offsetAt_out_of_range _ start) by auto.
      destruct (offsetAt (runeOffsets s) 0 end_); [destruct (end_ <? start) |];
        reflexivity.
    - rewrite (offsetAt_zero _ end_) by lia.
      destruct (lookup_lt_is_Some_2 (runeOffsets s) (Z.to_nat end_) ltac:(lia))
        as [b Hb].
      rewrite Hb. destruct (end_ <? start) eqn:E; zbool; [reflexivity | lia]. }
  rewrite Hcut, Z.sub_0_r. change (Z.to_nat 0) with 0%nat. rewrite drop_0.
  split; [reflexivity |].
  intros Hend. unfold cutEnd. rewrite (offsetAt_out_of_range _ end_) by assumption.
  cbn [default from_option id]. rewrite Nat2Z.id. now rewrite firstn_all.
Qed.

Lemma subString_start_falls_back_to_zero_witness :
  subString (list_byte_of_string "abc") 3 3 = Ret (list_byte_of_string "abc") /\
  subString (list_byte_of_string "abc") 2 1 = Ret (list_byte_of_string "a").
Proof.
  split.
  - apply (subString_start_falls_back_to_zero (list_byte_of_string "abc") 3 3).
    + vm_compute. discriminate.
    + right. left. simpl. lia.
    + right. simpl. lia.
  - apply (subString_start_falls_back_to_zero (list_byte_of_string "abc") 2 1).
    + vm_compute. discriminate.
    + right. right. simpl. lia.
Defined.


(** ** sort.Slice with a comparison that indexes *)

Section SortSliceM.

Context {A : Type} (lessM : A -> A -> outcome bool).

Lemma insertSortedM_Permutation (x : A) (rprefix : list A) :
  forall r, insertSortedM lessM x rprefix = Ret r -> Permutation r (x :: rprefix).
Proof.
  induction rprefix as [| y rest IH]; intros r H; simpl in H.
  - injection H as <-. reflexivity.
  - apply bind_Ret in H as (b & _ & H). destruct b.
    + apply bind_Ret in H as (r' & Hr' & H). injection H as <-.
      rewrite (IH _ Hr'). apply perm_swap.
    + injection H as <-. reflexivity.
Qed.

Lemma insertAllM_Permutation (data : list A) :
  forall rprefix r,
    insertAllM lessM data rprefix = Ret r -> Permutation r (data ++ rprefix).
Proof.
  induction data as [| x rest IH]; intros rprefix r H; simpl in H.
  - injection H as <-. reflexivity.
  - apply bind_Ret in H as (rp & Hrp & H).
    rewrite (IH _ _ H), (insertSortedM_Permutation _ _ _ Hrp).
    symmetry. apply Permutation_middle.
Qed.

(** When the sort returns, the slice holds the same elements. *)
Lemma sortSliceM_Permutation (data sorted : list A) :
  sortSliceM lessM data = Ret sorted -> Permutation sorted data.
Proof.
  unfold sortSliceM. intros H. apply bind_Ret in H as (rp & Hrp & H).
  injection H as <-. rewrite reverse_Permutation, (insertAllM_Permutation _ _ _ Hrp).
  now rewrite app_nil_r.
Qed.

Context (less : A -> A -> bool) (ok : A -> Prop).
Hypothesis lessM_ok : forall x y, ok x -> ok y -> lessM x y = Ret (less x y).

Lemma insertSortedM_ok (x : A) (rprefix : list A) :
  ok x -> Forall ok rprefix ->
  insertSortedM lessM x rprefix = Ret (insertSorted less x rprefix).
Proof.
  intros Hx. induction 1 as [| y rest Hy _ IH]; simpl; [reflexivity |].
  rewrite lessM_ok by assumption. cbn [bind].
  destruct (less x y); [| reflexivity]. now rewrite IH.
Qed.

Lemma insertAllM_ok (data : list A) :
  forall rprefix,
    Forall ok data -> Forall ok rprefix ->
    insertAllM lessM data rprefix
    = Ret (fold_left (fun rp x => insertSorted less x rp) data rprefix).
Proof.
  induction data as [| x rest IH]; intros rprefix Hdata Hrp; simpl; [reflexivity |].
  apply Forall_cons in Hdata as [Hx Hrest].
  rewrite insertSortedM_ok by assumption. cbn [bind].
  apply IH; [assumption |].
  rewrite insertSorted_Permutation. now constructor.
Qed.

(** On elements the comparison can read, the sort is [sortSlice]. *)
Lemma sortSliceM_ok (data : list A) :
  Forall ok data -> sortSliceM lessM data = Ret (sortSlice less data).
Proof.
  intros Hdata. unfold sortSliceM, sortSlice.
  rewrite insertAllM_ok by (assumption || constructor). reflexivity.
Qed.

End SortSliceM.

(** ** extractRelevantV2 *)

Lemma index_hasBothEnds (r : list Z) :
  hasBothEnds r -> index r 0 = Ret (locStart r) /\ index r 1 = Ret (locEnd r).
Proof.
  unfold hasBothEnds. destruct r as [| s [| e tl]]; simpl; try lia.
  intros _. now rewrite index_first, index_second.
Qed.

Lemma index_start_Ret (r : list Z) (x : Z) : index r 0 = Ret x -> x = locStart r.
Proof.
  destruct r as [| s tl]; [discriminate |]. rewrite index_first.
  now intros [= <-].
Qed.

Lemma index_end_Ret (r : list Z) (x : Z) :
  index r 1 = Ret x -> hasBothEnds r /\ x = locEnd r.
Proof.
  destruct r as [| s [| e tl]]; try discriminate. rewrite index_second.
  intros [= <-]. split; [unfold hasBothEnds; simpl; lia | reflexivity].
Qed.

Lemma lessLocationStart_ok (a b : list Z) :
  hasBothEnds a -> hasBothEnds b -> lessLocationStart a b = Ret (lessLocStart a b).
Proof.
  intros Ha Hb. unfold lessLocationStart.
  rewrite (proj1 (index_hasBothEnds a Ha)), (proj1 (index_hasBothEnds b Hb)).
  reflexivity.
Qed.

Lemma slideLeftV2_returns (wrapLength : Z) (a : list Z) (cands : list (list Z)) :
  hasBothEnds a -> Forall hasBothEnds cands ->
  forall m, exists m', slideLeftV2 wrapLength a cands m = Ret m'.
Proof.
  intros Ha. induction 1 as [| c rest Hc _ IH]; intros m; simpl; [eauto |].
  rewrite (proj1 (index_hasBothEnds c Hc)), (proj1 (index_hasBothEnds a Ha)).
  cbn [bind]. destruct (wrapLength <? _); eauto.
Qed.

Lemma slideRightV2_returns (wrapLength : Z) (a : list Z) (cands : list (list Z)) :
  hasBothEnds a -> Forall hasBothEnds cands ->
  forall m, exists m', slideRightV2 wrapLength a cands m = Ret m'.
Proof.
  intros Ha. induction 1 as [| c rest Hc _ IH]; intros m; simpl; [eauto |].
  rewrite (proj2 (index_hasBothEnds c Hc)), (proj1 (index_hasBothEnds a Ha)).
  cbn [bind]. destruct (wrapLength <? _); eauto.
Qed.

Lemma slideAnchorsV2_returns (wrapLength : Z) (rest : list (list Z)) :
  forall before,
    Forall hasBothEnds before -> Forall hasBothEnds rest ->
    exists ms, slideAnchorsV2 wrapLength before rest = Ret ms /\
               length ms = length rest.
Proof.
  induction rest as [| a after IH]; intros before Hb Hr; simpl; [eauto |].
  apply Forall_cons in Hr as [Ha Hafter].
  rewrite (proj1 (index_hasBothEnds a Ha)), (proj2 (index_hasBothEnds a Ha)).
  cbn [bind].
  destruct (slideLeftV2_returns wrapLength a before Ha Hb
              {| mStartPos := locStart a; mEndPos := locEnd a;
                 mScore := PrimFloat.one; mRelevant := [] |}) as [m1 ->].
  cbn [bind].
  destruct (slideRightV2_returns wrapLength a after Ha Hafter m1) as [m2 ->].
  cbn [bind].
  destruct (IH (a :: before) ltac:(now constructor) Hafter) as (ms & -> & Hlen).
  cbn [bind]. eexists. split; [reflexivity |]. simpl. now rewrite Hlen.
Qed.

Lemma slideAnchorsV2_Ret (wrapLength : Z) (rest : list (list Z)) :
  forall before ms,
    slideAnchorsV2 wrapLength before rest = Ret ms ->
    Forall hasBothEnds rest /\ length ms = length rest.
Proof.
  induction rest as [| a after IH]; intros before ms H; simpl in H.
  - injection H as <-. auto.
  - apply bind_Ret in H as (s & _ & H). apply bind_Ret in H as (e & He & H).
    apply bind_Ret in H as (m1 & _ & H). apply bind_Ret in H as (m2 & _ & H).
    apply bind_Ret in H as (tl & Htl & H). injection H as <-.
    destruct (IH _ _ Htl) as [Hafter Hlen].
    split; [constructor; [apply (index_end_Ret _ _ He) | assumption] |].
    simpl. now rewrite Hlen.
Qed.

Lemma extractRelevantV2_Ret_locations (fulltext : list byte)
    (locations : list (list Z)) (relLength : Z) (indicator : string) r :
  extractRelevantV2 fulltext locations relLength indicator = Ret r ->
  locations <> [] /\ Forall hasBothEnds locations.
Proof.
  unfold extractRelevantV2. intros H.
  apply bind_Ret in H as (sorted & Hsort & H).
  apply bind_Ret in H as (ms & Hms & H).
  apply bind_Ret in H as (best & Hbest & _).
  apply sortSliceM_Permutation in Hsort.
  apply slideAnchorsV2_Ret in Hms as [Hall Hcount].
  split.
  - intros ->. apply Permutation_nil_r in Hsort. subst sorted.
    destruct ms; [| discriminate]. discriminate Hbest.
  - now rewrite <- Hsort.
Qed.

Lemma extractRelevantV2_locations_Ret (fulltext : list byte)
    (locations : list (list Z)) (relLength : Z) (indicator : string) :
  Z.of_nat (length fulltext) <= Int64.max_int ->
  locations <> [] -> Forall hasBothEnds locations ->
  exists r, extractRelevantV2 fulltext locations relLength indicator = Ret r.
Proof.
  intros Hlen Hne Hall. unfold extractRelevantV2.
  rewrite (sortSliceM_ok lessLocationStart lessLocStart hasBothEnds
             lessLocationStart_ok) by assumption.
  cbn [bind].
  destruct (slideAnchorsV2_returns (Int64.quot relLength 2)
              (sortSlice lessLocStart locations) [] ltac:(constructor)
              ltac:(now apply sortSlice_Forall)) as (ms & -> & Hcount).
  cbn [bind].
  assert (Hms : sortSlice moreScore ms <> []).
  { intros Hnil. apply sortSlice_nil_inv in Hnil. subst ms.
    simpl in Hcount. symmetry in Hcount. apply length_zero_iff_nil in Hcount.
    apply sortSlice_nil_inv in Hcount. contradiction. }
  destruct (sortSlice moreScore ms) as [| best tl] eqn:E; [contradiction |].
  rewrite index_first. cbn [bind].
  rewrite subString_cut_Ret by assumption. cbn [bind]. eauto.
Qed.

(** [extractRelevantV2] returns exactly when there is at least one
    location and every location has a start and an end to read: on no
    location at all it faults on [bestMatches[0]], on a location with
    fewer than two cells on the index; nothing else makes it fault. *)
Theorem extractRelevantV2_returns_iff (fulltext : list byte)
    (locations : list (list Z)) (relLength : Z) (indicator : string) :
  Z.of_nat (length fulltext) <= Int64.max_int ->
  (exists r, extractRelevantV2 fulltext locations relLength indicator = Ret r) <->
  locations <> [] /\ Forall hasBothEnds locations.
Proof.
  intros Hlen. split.
  - intros [r H]. eapply extractRelevantV2_Ret_locations, H.
  - intros [Hne Hall]. now apply extractRelevantV2_locations_Ret.
Qed.

Lemma extractRelevantV2_returns_iff_witness :
  (exists r, extractRelevantV2 (list_byte_of_string "the cat sat on the mat")
               [[19; 22]; [4; 7]] 10 "…" = Ret r) /\
  ~ (exists r, extractRelevantV2 (list_byte_of_string "the cat sat on the mat")
                 [] 10 "…" = Ret r).
Proof.
  split.
  - apply extractRelevantV2_returns_iff.
    + vm_compute. discriminate.
    + split; [discriminate |]. repeat constructor; unfold hasBothEnds; simpl; lia.
  - intros H. apply extractRelevantV2_returns_iff in H as [Hne _].
    + now apply Hne.
    + vm_compute. discriminate.
Defined.

Lemma validRange_fields (r : list Z) :
  validRange r ->
  hasBothEnds r /\ 0 <= locStart r <= locEnd r /\ locEnd r <= Int64.max_int.
Proof.
  intros (s & e & -> & Hse & Hmax). unfold hasBothEnds, locStart, locEnd. simpl.
  repeat split; lia.
Qed.

Lemma Int64_sub_exact (a b : Z) :
  0 <= a <= Int64.max_int -> 0 <= b <= Int64.max_int -> Int64.sub a b = a - b.
Proof.
  intros Ha Hb. apply Int64_wrap_in_range.
  unfold Int64.in_range, Int64.min_int, Int64.max_int in *. lia.
Qed.

Lemma Int64_half (relLength : Z) :
  0 <= relLength <= Int64.max_int ->
  Int64.quot relLength 2 = relLength / 2 /\ 0 <= relLength / 2 <= relLength.
Proof.
  intros Hr. assert (0 <= relLength / 2 <= relLength).
  { split; [apply Z.div_pos; lia | apply Z.div_le_upper_bound; lia]. }
  split; [| assumption]. unfold Int64.quot. rewrite Z.quot_div_nonneg by lia.
  apply Int64_wrap_in_range.
  unfold Int64.in_range, Int64.min_int, Int64.max_int in *. lia.
Qed.

Lemma slideLeftV2_all (wrapLength : Z) (a : list Z) (cands : list (list Z)) :
  hasBothEnds a -> locStart a <= Int64.max_int -> 0 <= wrapLength ->
  Forall (fun c => hasBothEnds c /\ 0 <= locStart c <= locStart a) cands ->
  forall m, exists m',
    slideLeftV2 wrapLength a cands m = Ret m' /\
    mEndPos m' = mEndPos m /\
    mStartPos m' = default (mStartPos m) (locStart <$> last cands).
Proof.
  intros Ha Hmax Hw. induction 1 as [| c rest [Hc Hcs] _ IH]; intros m; simpl.
  - eauto.
  - rewrite (proj1 (index_hasBothEnds c Hc)), (proj1 (index_hasBothEnds a Ha)).
    cbn [bind]. rewrite Int64_sub_exact by lia.
    destruct (wrapLength <? locStart c - locStart a) eqn:E; zbool; [lia |].
    destruct (IH {| mStartPos := locStart c; mEndPos := mEndPos m;
                    mScore := PrimFloat.add (mScore m) PrimFloat.one;
                    mRelevant := mRelevant m |}) as (m' & -> & He & Hs).
    exists m'. split; [reflexivity |]. split; [exact He |].
    rewrite Hs. cbn [mStartPos]. rewrite last_cons.
    destruct (last rest); reflexivity.
Qed.

Lemma slideRightV2_fields (wrapLength : Z) (a : list Z) (cands : list (list Z)) :
  forall m m',
    slideRightV2 wrapLength a cands m = Ret m' ->
    mStartPos m' = mStartPos m /\
    (mEndPos m' = mEndPos m \/
     exists c, c ∈ cands /\ hasBothEnds c /\ mEndPos m' = locEnd c).
Proof.
  induction cands as [| c rest IH]; intros m m' H; simpl in H.
  - injection H as <-. auto.
  - apply bind_Ret in H as (cEnd & Hc & H). apply bind_Ret in H as (aStart & _ & H).
    apply index_end_Ret in Hc as [Hboth ->].
    destruct (wrapLength <? _).
    + injection H as <-. auto.
    + apply IH in H as [Hs He]. cbn [mStartPos mEndPos] in *. split; [exact Hs |].
      right. destruct He as [-> | (c' & Hin & Hb & ->)].
      * exists c. split; [left | auto].
      * exists c'. split; [now right | auto].
Qed.

Lemma firstStart_step (a : list Z) (before after : list (list Z)) :
  firstStart (a :: before) after = firstStart before (a :: after).
Proof.
  unfold firstStart. rewrite last_cons. simpl. destruct (last before); reflexivity.
Qed.

Lemma slideAnchorsV2_brackets (wrapLength : Z) (rest : list (list Z)) :
  0 <= wrapLength ->
  forall before ms,
    Forall validRange (before ++ rest) ->
    (forall c a, c ∈ before -> a ∈ rest -> locStart c <= locStart a) ->
    StronglySorted startsAscend rest ->
    slideAnchorsV2 wrapLength before rest = Ret ms ->
    Forall (fun m => mStartPos m = firstStart before rest /\
                     exists r, r ∈ before ++ rest /\ mEndPos m = locEnd r) ms.
Proof.
  intros Hw. induction rest as [| a after IH]; intros before ms Hvalid Hle Hsorted H;
    simpl in H.
  - injection H as <-. constructor.
  - apply Forall_app in Hvalid as [Hvb Hvr].
    apply Forall_cons in Hvr as [Hva Hvafter].
    destruct (validRange_fields a Hva) as (Ha & Hase & Hamax).
    rewrite (proj1 (index_hasBothEnds a Ha)), (proj2 (index_hasBothEnds a Ha)) in H.
    cbn [bind] in H.
    destruct (slideLeftV2_all wrapLength a before Ha ltac:(lia) Hw) with
      (m := {| mStartPos := locStart a; mEndPos := locEnd a;
               mScore := PrimFloat.one; mRelevant := [] |})
      as (m1 & Hm1 & He1 & Hs1).
    { rewrite Forall_forall. intros c Hc. rewrite Forall_forall in Hvb.
      destruct (validRange_fields c (Hvb c Hc)) as (Hcb & Hcse & _).
      split; [exact Hcb |]. split; [lia |]. apply Hle; [exact Hc | left]. }
    rewrite Hm1 in H. cbn [bind] in H.
    apply bind_Ret in H as (m2 & Hm2 & H). apply bind_Ret in H as (tl & Htl & H).
    injection H as <-.
    apply slideRightV2_fields in Hm2 as [Hs2 He2].
    apply StronglySorted_cons in Hsorted as [Hhead Hsafter].
    constructor.
    + split.
      * rewrite Hs2, Hs1. cbn [mStartPos]. unfold firstStart. simpl.
        destruct (last before); reflexivity.
      * destruct He2 as [He2 | (c & Hin & _ & He2)].
        -- exists a. split; [apply elem_of_app; right; left |].
           now rewrite He2, He1.
        -- exists c. split; [apply elem_of_app; right; now right | exact He2].
    + specialize (IH (a :: before) tl).
      rewrite firstStart_step in IH.
      eapply Forall_impl; [apply IH |].
      * replace ((a :: before) ++ after) with (a :: (before ++ after)) by reflexivity.
        constructor; [exact Hva |]. apply Forall_app. auto.
      * intros c x Hc Hx. apply elem_of_cons in Hc as [-> | Hc].
        -- rewrite Forall_forall in Hhead. apply Hhead, Hx.
        -- apply Hle; [exact Hc | now right].
      * exact Hsafter.
      * exact Htl.
      * intros m [Hms (r & Hr & Hme)]. split; [exact Hms |].
        exists r. split; [| exact Hme].
        change ((a :: before) ++ after) with (a :: (before ++ after)) in Hr.
        rewrite elem_of_cons, elem_of_app in Hr.
        rewrite elem_of_app, elem_of_cons. tauto.
Qed.

Lemma extractRelevantV2_valid_Ret (fulltext : list byte) (locations : list (list Z))
    (relLength : Z) (indicator : string) (snip : Snippet) (sorted : list (list Z)) :
  Forall validRange locations -> 0 <= relLength <= Int64.max_int ->
  extractRelevantV2 fulltext locations relLength indicator = Ret (snip, sorted) ->
  sorted = sortSlice lessLocStart locations /\
  exists best first rest last,
    sorted = first :: rest /\ last ∈ locations /\
    mStartPos best = locStart first /\ mEndPos best = locEnd last /\
    StartPos snip = (padWindowV2 relLength (Z.of_nat (length fulltext))
                       (mStartPos best) (mEndPos best)).1 /\
    EndPos snip = (padWindowV2 relLength (Z.of_nat (length fulltext))
                     (mStartPos best) (mEndPos best)).2.
Proof.
  intros Hvalid Hrel H. unfold extractRelevantV2 in H.
  assert (Hboth : Forall hasBothEnds locations)
    by (eapply Forall_impl; [exact Hvalid | exact validRange_hasBothEnds]).
  rewrite (sortSliceM_ok lessLocationStart lessLocStart hasBothEnds
             lessLocationStart_ok) in H by assumption.
  cbn [bind] in H.
  apply bind_Ret in H as (ms & Hms & H).
  apply bind_Ret in H as (best & Hbest & H).
  apply bind_Ret in H as (body & _ & H). injection H as <- <-.
  split; [reflexivity |].
  apply index_Ret in Hbest as [_ Hbest]. apply list_elem_of_lookup_2 in Hbest.
  rewrite sortSlice_Permutation in Hbest.
  assert (Hw : 0 <= Int64.quot relLength 2)
    by (destruct (Int64_half relLength Hrel) as [-> ?]; lia).
  assert (Hvs : Forall validRange ([] ++ sortSlice lessLocStart locations))
    by (simpl; now apply sortSlice_Forall).
  assert (Hnone : forall c a : list Z,
             c ∈ @nil (list Z) -> a ∈ sortSlice lessLocStart locations ->
             locStart c <= locStart a)
    by (intros c a Hc; now apply elem_of_nil in Hc).
  pose proof (slideAnchorsV2_brackets (Int64.quot relLength 2)
                (sortSlice lessLocStart locations) Hw [] ms Hvs Hnone
                (sortSlice_ascending locStart locations) Hms) as Hbr.
  rewrite Forall_forall in Hbr.
  destruct (Hbr best Hbest) as (Hstart & r & Hr & Hend).
  simpl in Hr. rewrite sortSlice_Permutation in Hr.
  destruct (sortSlice lessLocStart locations) as [| first rest] eqn:Esorted.
  - apply sortSlice_nil_inv in Esorted. subst locations. now apply elem_of_nil in Hr.
  - exists best, first, rest, r. unfold firstStart in Hstart. simpl in Hstart.
    repeat split; try assumption; reflexivity.
Qed.

(** For locations [[start, end]] with [0 <= start <= end] and a snippet
    length that is not negative, the window of [extractRelevantV2] starts
    at the first match of the text, or [relLength / 2] bytes before it
    (not below 0) when the bracket is padded: the left-hand loop compares
    the start of an earlier location with the start of the anchor, which
    is never more than [wrapLength] apart, so every bracket reaches back
    to the first location. *)
Theorem extractRelevantV2_starts_at_first_match (fulltext : list byte)
    (locations : list (list Z)) (relLength : Z) (indicator : string)
    (snip : Snippet) (sorted : list (list Z)) :
  Forall validRange locations -> 0 <= relLength <= Int64.max_int ->
  extractRelevantV2 fulltext locations relLength indicator = Ret (snip, sorted) ->
  exists first,
    first ∈ locations /\
    (forall r, r ∈ locations -> locStart first <= locStart r) /\
    (StartPos snip = locStart first \/
     StartPos snip = Z.max 0 (locStart first - relLength / 2)).
Proof.
  intros Hvalid Hrel H.
  destruct (extractRelevantV2_valid_Ret _ _ _ _ _ _ Hvalid Hrel H)
    as (Hsorted & best & first & rest & last & Hsplit & Hlast & Hs & He & Hsp & _).
  pose proof (sortSlice_ascending locStart locations) as Hasc.
  change (fun a b => locStart a <? locStart b) with lessLocStart in Hasc.
  rewrite <- Hsorted, Hsplit in Hasc. apply StronglySorted_cons in Hasc as [Hmin _].
  assert (Hperm : Permutation (first :: rest) locations)
    by (rewrite <- Hsplit, Hsorted; apply sortSlice_Permutation).
  assert (Hfirst : first ∈ locations) by (rewrite <- Hperm; left).
  exists first. split; [exact Hfirst |]. split.
  - intros r Hr. rewrite <- Hperm in Hr. apply elem_of_cons in Hr as [-> | Hr];
      [lia |]. rewrite Forall_forall in Hmin. apply Hmin, Hr.
  - rewrite Forall_forall in Hvalid.
    destruct (validRange_fields first (Hvalid first Hfirst)) as (_ & Hfse & Hfmax).
    destruct (validRange_fields last (Hvalid last Hlast)) as (_ & Hlse & Hlmax).
    destruct (Int64_half relLength Hrel) as [Hhalf Hhr].
    rewrite Hsp, Hs, He. unfold padWindowV2.
    destruct (Int64.sub (locEnd last) (locStart first) <? relLength); [| now left].
    right. cbn [fst]. rewrite Hhalf.
    assert (Int64.sub (locStart first) (relLength / 2)
            = locStart first - relLength / 2) as ->
      by (apply Int64_sub_exact; lia).
    destruct (locStart first - relLength / 2 <? 0) eqn:E; zlia.
Qed.

Lemma extractRelevantV2_starts_at_first_match_witness :
  exists snip sorted,
    extractRelevantV2 (list_byte_of_string "the cat sat on the mat")
      [[19; 22]; [4; 7]; [8; 11]] 4 "…" = Ret (snip, sorted) /\
    StartPos snip = 4 /\
    exists first,
      first ∈ [[19; 22]; [4; 7]; [8; 11]] /\
      (forall r, r ∈ [[19; 22]; [4; 7]; [8; 11]] -> locStart first <= locStart r) /\
      (StartPos snip = locStart first \/
       StartPos snip = Z.max 0 (locStart first - 4 / 2)).
Proof.
  eexists _, _. split; [vm_compute; reflexivity |]. split; [reflexivity |].
  eapply (extractRelevantV2_starts_at_first_match
            (list_byte_of_string "the cat sat on the mat")
            [[19; 22]; [4; 7]; [8; 11]] 4 "…").
  - repeat constructor; eexists _, _; (split; [reflexivity |]);
      unfold Int64.max_int; lia.
  - unfold Int64.max_int. lia.
  - vm_compute. reflexivity.
Defined.

(** When also every location ends inside the text, the window of
    [extractRelevantV2] lies inside the text:
    [0 <= StartPos <= EndPos <= len(fulltext)]. *)
Theorem extractRelevantV2_window_in_text (fulltext : list byte)
    (locations : list (list Z)) (relLength : Z) (indicator : string)
    (snip : Snippet) (sorted : list (list Z)) :
  Forall validRange locations ->
  Forall (fun r => locEnd r <= Z.of_nat (length fulltext)) locations ->
  0 <= relLength -> Z.of_nat (length fulltext) + relLength <= Int64.max_int ->
  extractRelevantV2 fulltext locations relLength indicator = Ret (snip, sorted) ->
  0 <= StartPos snip <= EndPos snip /\ EndPos snip <= Z.of_nat (length fulltext).
Proof.
  intros Hvalid Hends Hrel Hmax H.
  assert (Hrel' : 0 <= relLength <= Int64.max_int) by lia.
  destruct (extractRelevantV2_valid_Ret _ _ _ _ _ _ Hvalid Hrel' H)
    as (Hsorted & best & first & rest & last & Hsplit & Hlast & Hs & He & -> & ->).
  pose proof (sortSlice_ascending locStart locations) as Hasc.
  change (fun a b => locStart a <? locStart b) with lessLocStart in Hasc.
  rewrite <- Hsorted, Hsplit in Hasc. apply StronglySorted_cons in Hasc as [Hmin _].
  assert (Hperm : Permutation (first :: rest) locations)
    by (rewrite <- Hsplit, Hsorted; apply sortSlice_Permutation).
  assert (Hfirst : first ∈ locations) by (rewrite <- Hperm; left).
  assert (Hfl : locStart first <= locStart last).
  { rewrite <- Hperm in Hlast. apply elem_of_cons in Hlast as [-> | Hl]; [lia |].
    rewrite Forall_forall in Hmin. apply Hmin, Hl. }
  rewrite Forall_forall in Hvalid, Hends.
  destruct (validRange_fields first (Hvalid first Hfirst)) as (_ & Hfse & _).
  destruct (validRange_fields last (Hvalid last Hlast)) as (_ & Hlse & Hlmax).
  pose proof (Hends last Hlast) as Hlend.
  destruct (Int64_half relLength Hrel') as [Hhalf Hhr].
  rewrite Hs, He. unfold padWindowV2.
  rewrite (Int64_sub_exact (locEnd last) (locStart first)) by lia.
  destruct (locEnd last - locStart first <? relLength); cbn [fst snd]; [| lia].
  rewrite Hhalf.
  rewrite (Int64_sub_exact (locStart first) (relLength / 2)) by lia.
  assert (Int64.add (locEnd last) (relLength / 2) = locEnd last + relLength / 2) as ->.
  { apply Int64_wrap_in_range.
    unfold Int64.in_range, Int64.min_int, Int64.max_int in *. lia. }
  destruct (locStart first - relLength / 2 <? 0) eqn:E1;
    destruct (Z.of_nat (length fulltext) <? locEnd last + relLength / 2) eqn:E2;
    zlia.
Qed.

Lemma extractRelevantV2_window_in_text_witness :
  exists snip sorted,
    extractRelevantV2 (list_byte_of_string "the cat sat on the mat")
      [[19; 22]; [4; 7]] 100 "…" = Ret (snip, sorted) /\
    0 <= StartPos snip <= EndPos snip /\ EndPos snip <= 22.
Proof.
  eexists _, _. split; [vm_compute; reflexivity |].
  eapply (extractRelevantV2_window_in_text
            (list_byte_of_string "the cat sat on the mat") [[19; 22]; [4; 7]] 100 "…").
  - repeat constructor; eexists _, _; (split; [reflexivity |]);
      unfold Int64.max_int; lia.
  - repeat constructor; vm_compute; discriminate.
  - lia.
  - vm_compute. discriminate.
  - vm_compute. reflexivity.
Defined.

(** ** findNearbySpace inside the content *)

Lemma index_in_range {A : Type} (l : list A) (i : Z) :
  0 <= i < Z.of_nat (length l) -> exists a, index l i = Ret a.
Proof.
  intros Hi. destruct (lookup_lt_is_Some_2 l (Z.to_nat i) ltac:(lia)) as [a Ha].
  exists a. apply index_Ret. split; [lia | exact Ha].
Qed.

(** The left-hand loop over [lo, lo + n), from the top down. *)
Lemma scanSpace_down (content : list byte) (lo : Z) (n : nat) :
  0 <= lo -> lo + Z.of_nat n <= Z.of_nat (length content) ->
  exists r,
    scanSpace content (reverse (seqZ lo (Z.of_nat n))) = Ret r /\
    match r with
    | Some i => lo <= i < lo + Z.of_nat n /\ holdsSpace content i = true /\
                forall k, i < k < lo + Z.of_nat n -> holdsSpace content k = false
    | None => forall k, lo <= k < lo + Z.of_nat n -> holdsSpace content k = false
    end.
Proof.
  intros Hlo. induction n as [| n IH]; intros Hhi.
  - exists None. split; [reflexivity | intros k Hk; lia].
  - rewrite Nat2Z.inj_succ, <- Z.add_1_r, reverse_seqZ_last by lia.
    cbn [scanSpace].
    destruct (index_in_range content (lo + Z.of_nat n) ltac:(lia)) as [b Hb].
    rewrite Hb. cbn [bind].
    assert (Hhere : holdsSpace content (lo + Z.of_nat n) = isSpace b)
      by (unfold holdsSpace; now rewrite Hb).
    destruct (isSpace b) eqn:Eb.
    + exists (Some (lo + Z.of_nat n)). split; [reflexivity |].
      split; [lia |]. split; [exact Hhere | intros k Hk; lia].
    + destruct (IH ltac:(lia)) as (r & -> & Hr). exists r. split; [reflexivity |].
      destruct r as [i |].
      * destruct Hr as (Hi & Hsp & Hno). split; [lia |]. split; [exact Hsp |].
        intros k Hk. destruct (Z.eq_dec k (lo + Z.of_nat n)) as [-> | Hne];
          [exact Hhere | apply Hno; lia].
      * intros k Hk. destruct (Z.eq_dec k (lo + Z.of_nat n)) as [-> | Hne];
          [exact Hhere | apply Hr; lia].
Qed.

(** The right-hand loop over [lo, lo + n), from the bottom up. *)
Lemma scanSpace_up (content : list byte) (n : nat) :
  forall lo,
    0 <= lo -> lo + Z.of_nat n <= Z.of_nat (length content) ->
    exists r,
      scanSpace content (seqZ lo (Z.of_nat n)) = Ret r /\
      match r with
      | Some i => lo <= i < lo + Z.of_nat n /\ holdsSpace content i = true /\
                  forall k, lo <= k < i -> holdsSpace content k = false
      | None => forall k, lo <= k < lo + Z.of_nat n -> holdsSpace content k = false
      end.
Proof.
  induction n as [| n IH]; intros lo Hlo Hhi.
  - exists None. split; [reflexivity | intros k Hk; lia].
  - rewrite seqZ_cons by lia. cbn [scanSpace].
    destruct (index_in_range content lo ltac:(lia)) as [b Hb].
    rewrite Hb. cbn [bind].
    assert (Hhere : holdsSpace content lo = isSpace b)
      by (unfold holdsSpace; now rewrite Hb).
    replace (Z.pred (Z.of_nat (S n))) with (Z.of_nat n) by lia.
    destruct (isSpace b) eqn:Eb.
    + exists (Some lo). split; [reflexivity |].
      split; [lia |]. split; [exact Hhere | intros k Hk; lia].
    + destruct (IH (Z.succ lo) ltac:(lia) ltac:(lia)) as (r & -> & Hr).
      exists r. split; [reflexivity |]. destruct r as [i |].
      * destruct Hr as (Hi & Hsp & Hno). split; [lia |]. split; [exact Hsp |].
        intros k Hk. destruct (Z.eq_dec k lo) as [-> | Hne];
          [exact Hhere | apply Hno; lia].
      * intros k Hk. destruct (Z.eq_dec k lo) as [-> | Hne];
          [exact Hhere | apply Hr; lia].
Qed.

Lemma findNearbySpace_returns (content : list byte) (pos distance : Z) :
  0 <= pos < Z.of_nat (length content) ->
  0 <= distance -> pos + distance <= Int64.max_int ->
  exists r, findNearbySpace content pos distance = Ret r.
Proof.
  intros Hpos Hd Hmax. unfold findNearbySpace.
  assert (Hsub : Int64.sub pos distance = pos - distance).
  { apply Int64_wrap_in_range.
    unfold Int64.in_range, Int64.min_int, Int64.max_int in *. lia. }
  assert (Hadd : Int64.add pos distance = pos + distance).
  { apply Int64_wrap_in_range.
    unfold Int64.in_range, Int64.min_int, Int64.max_int in *. lia. }
  rewrite Hsub, Hadd.
  set (lo := if pos - distance <? 0 then 0 else pos - distance).
  set (hi := if Z.of_nat (length content) <=? pos + distance
             then Z.of_nat (length content) else pos + distance).
  assert (Hlo : 0 <= lo <= pos)
    by (subst lo; destruct (pos - distance <? 0) eqn:E; zlia).
  assert (Hhi : pos <= hi <= Z.of_nat (length content))
    by (subst hi; destruct (Z.of_nat (length content) <=? pos + distance) eqn:E; zlia).
  destruct (scanSpace_down content lo (Z.to_nat (pos - lo + 1)) ltac:(lia) ltac:(lia))
    as (l & Hl & _).
  rewrite Z2Nat.id in Hl by lia. rewrite Hl. cbn [bind].
  destruct l as [i |]; [eauto |].
  destruct (scanSpace_up content (Z.to_nat (hi - pos)) pos ltac:(lia) ltac:(lia))
    as (r & Hr & _).
  rewrite Z2Nat.id in Hr by lia. rewrite Hr. cbn [bind].
  destruct r; eauto.
Qed.

(** For a position inside the content [findNearbySpace] does not fault.
    It returns the nearest white space at or to the left of the position,
    no more than [distance] bytes away; when there is none, the nearest
    white space to the right, less than [distance] bytes away; and when
    there is none either, the position itself, flagged as not found. *)
Theorem findNearbySpace_in_content (content : list byte) (pos distance : Z) :
  0 <= pos < Z.of_nat (length content) ->
  0 <= distance -> pos + distance <= Int64.max_int ->
  let lo := Z.max 0 (pos - distance) in
  let hi := Z.min (Z.of_nat (length content)) (pos + distance) in
  exists i found,
    findNearbySpace content pos distance = Ret (i, found) /\
    if found then
      holdsSpace content i = true /\
      ((lo <= i <= pos /\ forall k, i < k <= pos -> holdsSpace content k = false) \/
       (pos < i < hi /\ forall k, lo <= k < i -> holdsSpace content k = false))
    else
      i = pos /\
      forall k, lo <= k -> k <= pos \/ k < hi -> holdsSpace content k = false.
Proof.
  intros Hpos Hd Hmax lo hi. unfold findNearbySpace.
  assert (Hsub : Int64.sub pos distance = pos - distance).
  { apply Int64_wrap_in_range.
    unfold Int64.in_range, Int64.min_int, Int64.max_int in *. lia. }
  assert (Hadd : Int64.add pos distance = pos + distance).
  { apply Int64_wrap_in_range.
    unfold Int64.in_range, Int64.min_int, Int64.max_int in *. lia. }
  rewrite Hsub, Hadd.
  assert ((if pos - distance <? 0 then 0 else pos - distance) = lo) as ->
    by (subst lo; destruct (pos - distance <? 0) eqn:E; zlia).
  assert ((if Z.of_nat (length content) <=? pos + distance
           then Z.of_nat (length content) else pos + distance) = hi) as ->
    by (subst hi; destruct (Z.of_nat (length content) <=? pos + distance) eqn:E; zlia).
  assert (Hlo : 0 <= lo <= pos) by (subst lo; lia).
  assert (Hhi : pos <= hi <= Z.of_nat (length content)) by (subst hi; lia).
  destruct (scanSpace_down content lo (Z.to_nat (pos - lo + 1)) ltac:(lia) ltac:(lia))
    as (l & Hl & Hlspec).
  rewrite Z2Nat.id in Hl, Hlspec by lia. rewrite Hl. cbn [bind].
  destruct l as [i |].
  - exists i, true. split; [reflexivity |].
    destruct Hlspec as (Hi & Hsp & Hno). split; [exact Hsp |]. left.
    split; [lia | intros k Hk; apply Hno; lia].
  - destruct (scanSpace_up content (Z.to_nat (hi - pos)) pos ltac:(lia) ltac:(lia))
      as (r & Hr & Hrspec).
    rewrite Z2Nat.id in Hr, Hrspec by lia. rewrite Hr. cbn [bind].
    destruct r as [i |].
    + exists i, true. split; [reflexivity |].
      destruct Hrspec as (Hi & Hsp & Hno). split; [exact Hsp |].
      assert (i <> pos).
      { intros ->. rewrite Hlspec in Hsp by lia. discriminate. }
      right. split; [lia |]. intros k Hk.
      destruct (Z_le_gt_dec k pos); [apply Hlspec; lia | apply Hno; lia].
    + exists pos, false. split; [reflexivity |]. split; [reflexivity |].
      intros k Hk1 Hk2.
      destruct (Z_le_gt_dec k pos); [apply Hlspec; lia | apply Hrspec; lia].
Qed.

Lemma findNearbySpace_in_content_witness :
  exists i found,
    findNearbySpace (Content docWorld) 8 10 = Ret (i, found) /\
    i = 5 /\ found = true.
Proof.
  destruct (findNearbySpace_in_content (Content docWorld) 8 10) as (i & found & H & _).
  - simpl. lia.
  - lia.
  - unfold Int64.max_int. lia.
  - exists i, found. split; [exact H |].
    vm_compute in H. injection H as <- <-. auto.
Defined.

(** ** What formatJson keeps of the batch *)

Lemma highlightRanges_length (startPos endPos : Z) (value : list (list Z)) :
  forall r, highlightRanges startPos endPos value = Ret r ->
            length r.2 = length value.
Proof.
  induction value as [| s rest IH]; intros r H; simpl in H.
  - injection H as <-. reflexivity.
  - apply bind_Ret in H as (s0 & _ & H).
    destruct (startPos <=? s0).
    + apply bind_Ret in H as (s1 & _ & H). destruct (s1 <=? endPos);
        apply bind_Ret in H as (r' & Hr' & H); injection H as <-; simpl;
        now rewrite (IH _ Hr').
    + apply bind_Ret in H as (r' & Hr' & H). injection H as <-. simpl.
      now rewrite (IH _ Hr').
Qed.

Lemma highlightLocations_shape (startPos endPos : Z) (ml : matchLocations) :
  forall r, highlightLocations startPos endPos ml = Ret r ->
            List.map (fun kv => (kv.1, length kv.2)) r.2
            = List.map (fun kv => (kv.1, length kv.2)) ml.
Proof.
  induction ml as [| [k value] rest IH]; intros r H; simpl in H.
  - injection H as <-. reflexivity.
  - apply bind_Ret in H as (here & Hhere & H).
    apply bind_Ret in H as (r' & Hr' & H). injection H as <-. simpl.
    now rewrite (highlightRanges_length _ _ _ _ Hhere), (IH _ Hr').
Qed.

Lemma formatJsonResult_keeps (documentFrequency : gmap string Z) (SnippetLength : Z)
    (res : fileJob) (j : jsonResult) (res' : fileJob) :
  formatJsonResult documentFrequency SnippetLength res = Ret (j, res') ->
  recordOf res j /\ sameButOffsets res res'.
Proof.
  unfold formatJsonResult. intros H.
  apply bind_Ret in H as (v3 & _ & H). apply bind_Ret in H as (r & Hr & H).
  injection H as <- <-.
  split; [repeat split |]. unfold sameButOffsets, setMatchLocations. simpl.
  repeat split. apply (highlightLocations_shape _ _ _ _ Hr).
Qed.

(** When [formatJson] returns, it has made one record for every document
    of the batch, in the order of the batch, with the file name, the
    location and the score of that document; and it leaves every
    document as it was but for the offsets inside its match map, which
    keeps its terms and the number of ranges of every term.  This holds
    for the loop under any frequency index. *)
Theorem formatJson_one_record_per_document (documentFrequency : gmap string Z)
    (SnippetLength : Z) (results : list fileJob)
    (records : list jsonResult) (after : list fileJob) :
  formatJsonLoop documentFrequency SnippetLength results = Ret (records, after) ->
  Forall2 recordOf results records /\ Forall2 sameButOffsets results after.
Proof.
  revert records after.
  induction results as [| res rest IH]; intros records after H; simpl in H.
  - injection H as <- <-. split; constructor.
  - apply bind_Ret in H as ([j res'] & Hhere & H).
    apply bind_Ret in H as ([js rs] & Hrest & H). injection H as <- <-.
    destruct (formatJsonResult_keeps _ _ _ _ _ Hhere) as [Hj Hres].
    destruct (IH _ _ Hrest) as [Hjs Hrs].
    split; constructor; assumption.
Qed.

Lemma formatJson_one_record_per_document_witness :
  exists records after,
    formatJson 5 [docWorld; docTwo] = Ret (records, after) /\
    Forall2 recordOf [docWorld; docTwo] records /\
    Forall2 sameButOffsets [docWorld; docTwo] after.
Proof.
  assert (H : exists out, formatJson 5 [docWorld; docTwo] = Ret out)
    by (eexists; vm_compute; reflexivity).
  destruct H as [[records after] H]. exists records, after.
  split; [exact H |].
  apply (formatJson_one_record_per_document
           (calculateDocumentTermFrequency [docWorld; docTwo]) 5).
  exact H.
Defined.

(** ** Start with a negative limit *)

(** A result limit below -1 makes [Start] fault on the slice expression
    [results[:ResultLimit]], for every batch, the empty one too, and
    before anything is ranked or printed. *)
Theorem Start_negative_limit_faults
    (rankResults : Z -> list fileJob -> list fileJob)
    (fileCount SnippetLength : Z) (f : ResultSummarizer) (input : list fileJob) :
  ResultLimit f < -1 ->
  Start rankResults fileCount SnippetLength f input = Panic SliceBoundsOutOfRange.
Proof.
  intros Hl. unfold Start. now rewrite limitResults_negative.
Qed.

Lemma Start_negative_limit_faults_witness :
  Start (fun _ batch => batch) 0 300
    {| ResultLimit := -2; SnippetCount := 1; Format := "json" |} []
  = Panic SliceBoundsOutOfRange.
Proof.
  apply Start_negative_limit_faults. simpl. lia.
Defined.

(** ** formatDefault and the snippet count *)

Lemma setMatchLocations_same (res : fileJob) :
  setMatchLocations res (MatchLocations res) = res.
Proof. now destruct res. Qed.

(** For a document the selector returns a snippet for: with a snippet
    count of zero [formatDefault] prints nothing for it and leaves its
    match map alone, and with a negative snippet count it faults on the
    slice expression [snippets[:SnippetCount]]. *)
Theorem formatDefault_snippet_count (documentFrequency : gmap string Z)
    (SnippetLength SnippetCount : Z) (res : fileJob) (snip : Snippet) :
  extractRelevantV3 res documentFrequency SnippetLength "…" = Ret snip ->
  SnippetCount <= 0 ->
  formatDefaultResult documentFrequency SnippetLength SnippetCount res =
  if SnippetCount =? 0 then Ret ([], res) else Panic SliceBoundsOutOfRange.
Proof.
  intros Hsnip Hcount. unfold formatDefaultResult. rewrite Hsnip. cbn [bind].
  destruct (SnippetCount <? Z.of_nat (length [snip])) eqn:E; [| simpl in E; zlia].
  unfold slice.
  destruct (SnippetCount =? 0) eqn:E0; zbool.
  - subst SnippetCount. simpl. now rewrite setMatchLocations_same.
  - destruct (SnippetCount <? 0) eqn:E1; zbool; [| lia].
    rewrite orb_true_r. reflexivity.
Qed.

Lemma formatDefault_snippet_count_witness :
  formatDefaultResult {[ "world"%string := 1 ]} 5 0 docWorld = Ret ([], docWorld) /\
  formatDefaultResult {[ "world"%string := 1 ]} 5 (-3) docWorld
    = Panic SliceBoundsOutOfRange.
Proof.
  split.
  - apply (formatDefault_snippet_count {[ "world"%string := 1 ]} 5 0 docWorld
             (mkSnippet "…world…" 6 11)); [vm_compute; reflexivity | lia].
  - apply (formatDefault_snippet_count {[ "world"%string := 1 ]} 5 (-3) docWorld
             (mkSnippet "…world…" 6 11)); [vm_compute; reflexivity | lia].
Defined.

(** ** The brackets of extractRelevantV3 *)

Lemma slideLeft_start (wrapLength : Z) (a : relevantV3) (cands : list relevantV3) :
  validMatch a -> Forall validMatch cands ->
  forall m,
    mStartPos (slideLeft wrapLength a cands m) = mStartPos m \/
    exists c, c ∈ cands /\
              mStartPos (slideLeft wrapLength a cands m) = rvStart c /\
              rvEnd a - rvStart c <= wrapLength.
Proof.
  intros Ha. induction 1 as [| c rest Hc _ IH]; intros m; simpl; [now left |].
  unfold validMatch in *. rewrite Int64_sub_exact by lia.
  destruct (wrapLength <? rvEnd a - rvStart c) eqn:E; zbool; [now left |].
  right.
  destruct (IH {| mStartPos := rvStart c; mEndPos := mEndPos m;
                  mScore := mScore m; mRelevant := mRelevant m ++ [c] |})
    as [-> | (c' & Hin & -> & Hle)].
  - exists c. split; [left | auto].
  - exists c'. split; [now right | auto].
Qed.

Lemma slideRight_end (wrapLength : Z) (a : relevantV3) (cands : list relevantV3) :
  validMatch a -> Forall validMatch cands ->
  forall m,
    mEndPos (slideRight wrapLength a cands m) = mEndPos m \/
    exists c, c ∈ cands /\
              mEndPos (slideRight wrapLength a cands m) = rvEnd c /\
              rvEnd c - rvStart a <= wrapLength.
Proof.
  intros Ha. induction 1 as [| c rest Hc _ IH]; intros m; simpl; [now left |].
  unfold validMatch in *. rewrite Int64_sub_exact by lia.
  destruct (wrapLength <? rvEnd c - rvStart a) eqn:E; zbool; [now left |].
  right.
  destruct (IH {| mStartPos := mStartPos m; mEndPos := rvEnd c;
                  mScore := mScore m; mRelevant := mRelevant m ++ [c] |})
    as [-> | (c' & Hin & -> & Hle)].
  - exists c. split; [left | auto].
  - exists c'. split; [now right | auto].
Qed.

(** The bracket of an anchor before it is padded: where it starts and
    ends, and how long it is. *)
Lemma slid_bracket (wrapLength : Z) (before : list relevantV3) (a : relevantV3)
    (after : list relevantV3) :
  validMatch a -> Forall validMatch before -> Forall validMatch after ->
  Forall (fun c => rvStart c <= rvStart a) before ->
  Forall (fun c => rvStart a <= rvStart c) after ->
  let m := slideRight wrapLength a after
             (slideLeft wrapLength a before
                {| mStartPos := rvStart a; mEndPos := rvEnd a;
                   mScore := PrimFloat.zero; mRelevant := [a] |}) in
  0 <= mStartPos m <= rvStart a /\
  rvStart a <= mEndPos m <= Int64.max_int /\
  (exists c, (c = a \/ c ∈ after) /\ mEndPos m = rvEnd c) /\
  (0 <= wrapLength ->
   mEndPos m - mStartPos m <= Z.max (2 * wrapLength) (rvEnd a - rvStart a)).
Proof.
  intros Ha Hb Haf Hbs Hafs m.
  set (m0 := {| mStartPos := rvStart a; mEndPos := rvEnd a;
                mScore := PrimFloat.zero; mRelevant := [a] |}) in *.
  destruct (slideRight_fields wrapLength a after (slideLeft wrapLength a before m0))
    as (Hs2 & _ & _).
  destruct (slideLeft_fields wrapLength a before m0) as (He1 & _ & _).
  fold m in Hs2.
  rewrite Forall_forall in Hb, Haf, Hbs, Hafs.
  assert (HL : mStartPos m = rvStart a \/
               exists c, c ∈ before /\ mStartPos m = rvStart c /\
                         rvEnd a - rvStart c <= wrapLength).
  { rewrite Hs2.
    destruct (slideLeft_start wrapLength a before Ha
                ltac:(now apply Forall_forall) m0) as [H | H]; [left | right]; exact H. }
  assert (HR : mEndPos m = rvEnd a \/
               exists c, c ∈ after /\ mEndPos m = rvEnd c /\
                         rvEnd c - rvStart a <= wrapLength).
  { subst m.
    destruct (slideRight_end wrapLength a after Ha ltac:(now apply Forall_forall)
                (slideLeft wrapLength a before m0)) as [H | H]; [left | right].
    - now rewrite H, He1.
    - exact H. }
  unfold validMatch in *.
  destruct HL as [HL | (cl & Hcl & HL & Hlw)];
    destruct HR as [HR | (cr & Hcr & HR & Hrw)];
    rewrite HL, HR;
    try pose proof (Hb cl Hcl); try pose proof (Hbs cl Hcl);
    try pose proof (Haf cr Hcr); try pose proof (Hafs cr Hcr);
    (split; [lia |]); (split; [lia |]); (split; [| lia]).
  - exists a. auto.
  - exists cr. auto.
  - exists a. auto.
  - exists cr. auto.
Qed.

Lemma flatMatches_valid (ml : matchLocations) :
  Forall validRange (allRanges ml) -> Forall validMatch (flatMatches ml).
Proof.
  unfold allRanges, flatMatches.
  induction ml as [| [k v] rest IH]; intros Hall; [constructor |].
  cbn [List.map concat snd fst] in *. apply Forall_app in Hall as [Hv Hrest].
  apply Forall_app. split; [| auto].
  clear - Hv. induction Hv as [| r v (s & e & -> & Hse & Hmax) _ IH]; simpl.
  - constructor.
  - constructor; [unfold validMatch; simpl; lia | exact IH].
Qed.

Lemma bracket_length (relLength : Z) (content : list byte)
    (before : list relevantV3) (a : relevantV3) (after : list relevantV3) :
  validMatch a -> Forall validMatch before -> Forall validMatch after ->
  Forall (fun c => rvStart c <= rvStart a) before ->
  Forall (fun c => rvStart a <= rvStart c) after ->
  0 <= relLength <= Int64.max_int ->
  mEndPos (bracket relLength content before a after)
  - mStartPos (bracket relLength content before a after)
  <= Z.max relLength (rvEnd a - rvStart a).
Proof.
  intros Ha Hb Haf Hbs Hafs Hrel. unfold bracket.
  destruct (Int64_half relLength Hrel) as [Hhalf Hhr].
  pose proof (slid_bracket (Int64.quot relLength 2) before a after Ha Hb Haf Hbs Hafs)
    as (Hs & He & _ & Hlen).
  cbv zeta in Hs, He, Hlen.
  set (m := slideRight _ a after _) in *.
  specialize (Hlen ltac:(lia)). rewrite Hhalf in Hlen.
  assert (2 * (relLength / 2) <= relLength)
    by (pose proof (Z.mul_div_le relLength 2 ltac:(lia)); lia).
  unfold padMatch. rewrite (Int64_sub_exact (mEndPos m) (mStartPos m)) by lia.
  destruct (mEndPos m - mStartPos m <? relLength) eqn:E; zbool; [| lia].
  cbn [mStartPos mEndPos].
  assert (Hadd : Int64.quot (Int64.sub relLength (mEndPos m - mStartPos m)) 2
                 = (relLength - (mEndPos m - mStartPos m)) / 2).
  { rewrite Int64_sub_exact by lia.
    apply (Int64_half (relLength - (mEndPos m - mStartPos m))). lia. }
  rewrite Hadd.
  set (add := (relLength - (mEndPos m - mStartPos m)) / 2).
  assert (Hadd2 : 0 <= add /\ 2 * add <= relLength - (mEndPos m - mStartPos m)).
  { subst add. split; [apply Z.div_pos; lia |].
    apply (Z.mul_div_le _ 2). lia. }
  rewrite (Int64_sub_exact (mStartPos m) add) by lia.
  pose proof (Int64_wrap_le (mEndPos m + add)
                ltac:(unfold Int64.min_int; lia)) as Hwrap.
  fold (Int64.add (mEndPos m) add) in Hwrap.
  destruct (mStartPos m - add <? 0) eqn:E1;
    destruct (Z.of_nat (length content) <? Int64.add (mEndPos m) add) eqn:E2;
    zlia.
Qed.

Lemma sorted_split_starts (pre : list relevantV3) (a : relevantV3)
    (post : list relevantV3) :
  StronglySorted startsBefore (pre ++ a :: post) ->
  Forall (fun c => rvStart c <= rvStart a) pre /\
  Forall (fun c => rvStart a <= rvStart c) post.
Proof.
  intros Hs. apply StronglySorted_app in Hs as (Hcross & _ & Hr).
  apply StronglySorted_cons in Hr as [Hpost _].
  split; [| exact Hpost].
  apply Forall_forall. intros c Hc. apply (Hcross c a Hc). left.
Qed.

(** The window of a snippet of [extractRelevantV3] is bounded: for a
    document with well-formed ranges and a snippet length that is not
    negative, it is no longer than the snippet length, or than one of
    the matches of the document when that match is longer still. *)
Theorem extractRelevantV3_window_length (res : fileJob)
    (documentFrequencies : gmap string Z) (relLength : Z) (indicator : string)
    (snip : Snippet) :
  validJob res -> 0 <= relLength <= Int64.max_int ->
  extractRelevantV3 res documentFrequencies relLength indicator = Ret snip ->
  exists a,
    a ∈ flatMatches (MatchLocations res) /\
    EndPos snip - StartPos snip <= Z.max relLength (rvEnd a - rvStart a).
Proof.
  intros Hvalid Hrel H.
  apply extractRelevantV3_Ret in H as (rv3 & best & body & Hflat & Hin & _ & ->).
  rewrite flattenLocations_total in Hflat
    by (eapply Forall_impl; [exact Hvalid | exact validRange_hasBothEnds]).
  injection Hflat as <-.
  apply scoredBrackets_elem in Hin as (pre & a & post & Hsplit & ->).
  pose proof (flatMatches_valid _ Hvalid) as Hvm.
  rewrite <- (sortSlice_Permutation lessStart), Hsplit in Hvm.
  apply Forall_app in Hvm as [Hpre Hrest]. apply Forall_cons in Hrest as [Ha Hpost].
  pose proof (sortSlice_ascending rvStart (flatMatches (MatchLocations res))) as Hasc.
  change (fun a b => rvStart a <? rvStart b) with lessStart in Hasc.
  rewrite Hsplit in Hasc. apply sorted_split_starts in Hasc as [Hle Hge].
  exists a. split.
  - rewrite <- (sortSlice_Permutation lessStart), Hsplit.
    apply elem_of_app. right. left.
  - cbn [StartPos EndPos]. rewrite app_nil_r.
    destruct (scoreMatch_fields documentFrequencies a
                (bracket relLength (Content res) (reverse pre) a post)) as (-> & -> & _).
    apply bracket_length; try assumption.
    + now rewrite reverse_Permutation.
    + now rewrite reverse_Permutation.
Qed.

Lemma extractRelevantV3_window_length_witness :
  exists snip a,
    extractRelevantV3 docTwo {[ "world"%string := 1; "text"%string := 2 ]} 5 "…"
      = Ret snip /\
    a ∈ flatMatches (MatchLocations docTwo) /\
    EndPos snip - StartPos snip <= Z.max 5 (rvEnd a - rvStart a).
Proof.
  assert (Hvalid : validJob docTwo).
  { unfold validJob. simpl.
    repeat constructor; eexists _, _; (split; [reflexivity |]);
      unfold Int64.max_int; lia. }
  assert (H : exists snip,
             extractRelevantV3 docTwo
               {[ "world"%string := 1; "text"%string := 2 ]} 5 "…" = Ret snip)
    by (eexists; vm_compute; reflexivity).
  destruct H as [snip H]. exists snip.
  destruct (extractRelevantV3_window_length docTwo _ 5 "…" snip Hvalid
              ltac:(unfold Int64.max_int; lia) H) as (a & Ha & Hlen).
  exists a. auto.
Defined.

(** ** Documents much shorter than the snippet length *)

Lemma flatMatches_Forall (P : list Z -> Prop) (Q : relevantV3 -> Prop)
    (ml : matchLocations) :
  (forall k r, P r -> Q (rangeMatch k r)) ->
  Forall P (allRanges ml) -> Forall Q (flatMatches ml).
Proof.
  intros HPQ. unfold allRanges, flatMatches.
  induction ml as [| [k v] rest IH]; intros Hall; [constructor |].
  cbn [List.map concat snd fst] in *. apply Forall_app in Hall as [Hv Hrest].
  apply Forall_app. split; [| auto].
  clear - Hv HPQ. induction Hv as [| r v Hr _ IH]; simpl; constructor; auto.
Qed.

Lemma flatMatches_nil (ml : matchLocations) :
  flatMatches ml = [] -> allRanges ml = [].
Proof.
  unfold allRanges, flatMatches.
  induction ml as [| [k v] rest IH]; [reflexivity |].
  cbn [List.map concat snd fst]. intros H.
  apply app_eq_nil in H as [Hv Hrest].
  destruct v; [| discriminate]. simpl. auto.
Qed.

Lemma bracket_short_document (relLength : Z) (content : list byte)
    (a : relevantV3) (after : list relevantV3) :
  validMatch a -> Forall validMatch after ->
  Forall (fun c => rvStart a <= rvStart c) after ->
  rvEnd a <= Z.of_nat (length content) ->
  Forall (fun c => rvEnd c <= Z.of_nat (length content)) after ->
  3 * Z.of_nat (length content) <= relLength ->
  Z.of_nat (length content) + relLength <= Int64.max_int ->
  mStartPos (bracket relLength content [] a after) = 0 /\
  mEndPos (bracket relLength content [] a after) = Z.of_nat (length content).
Proof.
  intros Ha Haf Hafs Hae Hafe Hshort Hmax. unfold bracket.
  pose proof (slid_bracket (Int64.quot relLength 2) [] a after Ha
                ltac:(constructor) Haf ltac:(constructor) Hafs)
    as (Hs & He & (c & Hc & Hec) & _).
  cbv zeta in Hs, He, Hec.
  set (m := slideRight _ a after _) in *.
  assert (Hlen : mEndPos m <= Z.of_nat (length content)).
  { rewrite Hec. destruct Hc as [-> | Hc]; [exact Hae |].
    rewrite Forall_forall in Hafe. apply Hafe, Hc. }
  unfold padMatch. rewrite (Int64_sub_exact (mEndPos m) (mStartPos m)) by lia.
  destruct (mEndPos m - mStartPos m <? relLength) eqn:E; zbool; [| lia].
  cbn [mStartPos mEndPos].
  assert (Hadd : Int64.quot (Int64.sub relLength (mEndPos m - mStartPos m)) 2
                 = (relLength - (mEndPos m - mStartPos m)) / 2).
  { rewrite Int64_sub_exact by lia.
    apply (Int64_half (relLength - (mEndPos m - mStartPos m))). lia. }
  rewrite Hadd.
  set (add := (relLength - (mEndPos m - mStartPos m)) / 2).
  assert (Hbig : Z.of_nat (length content) <= add <= relLength).
  { subst add. split.
    - apply Z.div_le_lower_bound; lia.
    - apply Z.div_le_upper_bound; lia. }
  rewrite (Int64_sub_exact (mStartPos m) add) by lia.
  assert (Int64.add (mEndPos m) add = mEndPos m + add) as ->.
  { apply Int64_wrap_in_range.
    unfold Int64.in_range, Int64.min_int, Int64.max_int in *. lia. }
  destruct (mStartPos m - add <? 0) eqn:E1;
    destruct (Z.of_nat (length content) <? mEndPos m + add) eqn:E2; zlia.
Qed.

(** A document with a match whose content is at most a third of the
    snippet length makes [extractRelevantV3] fault: the bracket of the
    first anchor is padded out to the whole content, and the second call
    of [findNearbySpace] reads one byte past its end. *)
Theorem extractRelevantV3_short_document_faults (res : fileJob)
    (documentFrequencies : gmap string Z) (relLength : Z) (indicator : string) :
  validJob res ->
  allRanges (MatchLocations res) <> [] ->
  Forall (fun r => locEnd r <= Z.of_nat (length (Content res)))
    (allRanges (MatchLocations res)) ->
  3 * Z.of_nat (length (Content res)) <= relLength ->
  Z.of_nat (length (Content res)) + relLength <= Int64.max_int ->
  extractRelevantV3 res documentFrequencies relLength indicator
    = Panic IndexOutOfRange.
Proof.
  intros Hvalid Hne Hends Hshort Hmax. unfold extractRelevantV3.
  rewrite flattenLocations_total
    by (eapply Forall_impl; [exact Hvalid | exact validRange_hasBothEnds]).
  cbn [bind].
  pose proof (flatMatches_valid _ Hvalid) as Hvm.
  assert (Hve : Forall (fun c => rvEnd c <= Z.of_nat (length (Content res)))
                  (flatMatches (MatchLocations res))).
  { apply (flatMatches_Forall
             (fun r => locEnd r <= Z.of_nat (length (Content res)))); [| exact Hends].
    intros k r Hr. exact Hr. }
  pose proof (sortSlice_ascending rvStart (flatMatches (MatchLocations res))) as Hasc.
  change (fun a b => rvStart a <? rvStart b) with lessStart in Hasc.
  rewrite <- (sortSlice_Permutation lessStart) in Hvm, Hve.
  destruct (sortSlice lessStart (flatMatches (MatchLocations res)))
    as [| a post] eqn:Esorted.
  { apply sortSlice_nil_inv, flatMatches_nil in Esorted. contradiction. }
  apply Forall_cons in Hvm as [Ha Hpost]. apply Forall_cons in Hve as [Hae Hposte].
  apply StronglySorted_cons in Hasc as [Hge _].
  cbn [slideAnchors]. unfold anchorMatch.
  destruct (bracket_short_document relLength (Content res) a post Ha Hpost Hge
              Hae Hposte Hshort Hmax) as [-> ->].
  assert (Hend : findNearbySpace (Content res) (Z.of_nat (length (Content res))) 10
                 = Panic IndexOutOfRange)
    by (apply findNearbySpace_at_length; unfold Int64.max_int; lia).
  destruct (length (Content res)) as [| n] eqn:Elen.
  - change (Z.of_nat 0) with 0 in Hend. rewrite Hend. reflexivity.
  - destruct (findNearbySpace_returns (Content res) 0 10)
      as ([i found] & ->); [rewrite Elen; lia | lia | unfold Int64.max_int; lia |].
    cbn [bind]. rewrite Hend. reflexivity.
Qed.

Lemma extractRelevantV3_short_document_faults_witness :
  extractRelevantV3 (sampleJob "func main() {}" [("main"%string, [[5; 9]])])
    {[ "main"%string := 1 ]} 300 "…"
  = Panic IndexOutOfRange.
Proof.
  apply extractRelevantV3_short_document_faults.
  - unfold validJob. simpl.
    repeat constructor; eexists _, _; (split; [reflexivity |]);
      unfold Int64.max_int; lia.
  - discriminate.
  - repeat constructor. vm_compute. discriminate.
  - simpl. lia.
  - vm_compute. discriminate.
Defined.


(** ** strings.Index *)

Lemma hasPrefix_length (sub : list byte) :
  forall s, hasPrefix s sub = true -> (length sub <= length s)%nat.
Proof.
  induction sub as [| c sub IH]; intros s H; [simpl; lia |].
  destruct s as [| d s]; simpl in H; [discriminate |].
  destruct (Byte.eqb c d); [| discriminate]. simpl. specialize (IH s H). lia.
Qed.

Lemma indexFrom_bounds (sub s : list byte) :
  forall j,
    indexFrom s sub j = -1 \/
    (j <= indexFrom s sub j /\
     indexFrom s sub j + Z.of_nat (length sub) <= j + Z.of_nat (length s)).
Proof.
  induction s as [| d tl IH]; intros j; cbn [indexFrom].
  - destruct (hasPrefix [] sub) eqn:E; [| now left].
    right. apply hasPrefix_length in E. lia.
  - destruct (hasPrefix (d :: tl) sub) eqn:E.
    + right. apply hasPrefix_length in E. lia.
    + destruct (IH (j + 1)) as [-> | [H1 H2]]; [now left |].
      right. cbn [length]. lia.
Qed.

(** [strings.Index] is -1 or the offset of an occurrence inside the
    text. *)
Lemma stringsIndex_bounds (s sub : list byte) :
  stringsIndex s sub = -1 \/
  (0 <= stringsIndex s sub /\
   stringsIndex s sub + Z.of_nat (length sub) <= Z.of_nat (length s)).
Proof. apply (indexFrom_bounds sub s 0). Qed.

(** ** The cut at the start of the V1 snippet *)

Lemma indicatorCut_in_text (relText : list byte) (seps : list (list byte)) :
  Forall (fun c => (1 <= length c <= 2)%nat) seps ->
  forall indicatorPos indicatorLen,
    -1 <= indicatorPos -> 1 <= indicatorLen <= 2 ->
    (0 <= indicatorPos -> indicatorPos + indicatorLen <= Z.of_nat (length relText)) ->
    (indicatorPos = -1 -> indicatorLen = 1 \/ 1 <= Z.of_nat (length relText)) ->
    let cut := indicatorCut relText seps indicatorPos indicatorLen in
    0 <= cut.1 + cut.2 <= Z.of_nat (length relText).
Proof.
  induction 1 as [| c rest Hc _ IH]; intros pos ilen Hpos Hilen Hin Hout; simpl.
  - destruct (Z_le_gt_dec 0 pos) as [Hp | Hp]; [specialize (Hin Hp); lia |].
    assert (pos = -1) as -> by lia. specialize (Hout eq_refl). lia.
  - destruct (stringsIndex relText c <? pos) eqn:E; zbool.
    + destruct (stringsIndex_bounds relText c) as [Hm | [H0 Hfit]].
      * rewrite Hm in E |- *. specialize (Hin ltac:(lia)).
        apply IH; lia.
      * apply IH; lia.
    + apply IH; assumption.
Qed.

(** ** sort.Slice by an order *)

Section SortByOrder.

Context {A : Type} (less : A -> A -> bool) (le : A -> A -> Prop).
Hypothesis le_trans : forall x y z, le x y -> le y z -> le x z.
Hypothesis less_true : forall x y, less x y = true -> le x y.
Hypothesis less_false : forall x y, less x y = false -> le y x.

Lemma insertSorted_ordered (x : A) (rprefix : list A) :
  StronglySorted (flip le) rprefix ->
  StronglySorted (flip le) (insertSorted less x rprefix).
Proof.
  induction rprefix as [| y rest IH]; intros Hs; simpl.
  - repeat constructor.
  - apply StronglySorted_cons in Hs as [Hy Hrest].
    destruct (less x y) eqn:E.
    + apply StronglySorted_cons. split; [| auto].
      rewrite insertSorted_Permutation. constructor; [| assumption].
      apply less_true, E.
    + apply StronglySorted_cons. split.
      * constructor; [apply less_false, E |].
        eapply Forall_impl; [exact Hy |]. unfold flip. intros z Hz.
        eapply le_trans; [exact Hz | apply less_false, E].
      * apply StronglySorted_cons. auto.
Qed.

Lemma insertion_ordered (data : list A) :
  forall rprefix,
    StronglySorted (flip le) rprefix ->
    StronglySorted (flip le)
      (fold_left (fun rp x => insertSorted less x rp) data rprefix).
Proof.
  induction data as [| x rest IH]; intros rprefix Hs; simpl; [assumption |].
  apply IH, insertSorted_ordered, Hs.
Qed.

Lemma reverse_ordered (l : list A) :
  StronglySorted (flip le) l -> StronglySorted le (reverse l).
Proof.
  induction l as [| x rest IH]; intros Hs.
  - constructor.
  - apply StronglySorted_cons in Hs as [Hx Hrest].
    rewrite reverse_cons. apply StronglySorted_app_2.
    + intros u v Hu Hv. apply list_elem_of_singleton in Hv as ->.
      rewrite elem_of_reverse in Hu.
      rewrite Forall_forall in Hx. apply Hx, Hu.
    + auto.
    + repeat constructor.
Qed.

Lemma sortSlice_ordered (data : list A) : StronglySorted le (sortSlice less data).
Proof.
  unfold sortSlice. apply reverse_ordered, insertion_ordered. constructor.
Qed.

End SortByOrder.

(** ** determineSnipLocations *)

Lemma lessLocationDescending_ok (a b : list Z) :
  hasBothEnds a -> hasBothEnds b ->
  lessLocationDescending a b = Ret (lessLocDescending a b).
Proof.
  intros Ha Hb. unfold lessLocationDescending, lessLocDescending.
  destruct (index_hasBothEnds a Ha) as [-> ->].
  destruct (index_hasBothEnds b Hb) as [-> ->].
  cbn [bind]. destruct (locStart a =? locStart b); reflexivity.
Qed.

Lemma sortSlice_locDescends (locations : list (list Z)) :
  StronglySorted locDescends (sortSlice lessLocDescending locations).
Proof.
  apply sortSlice_ordered; unfold locDescends, lessLocDescending.
  - intros x y z. lia.
  - intros x y. destruct (locStart x =? locStart y) eqn:E; intros H; zlia.
  - intros x y. destruct (locStart x =? locStart y) eqn:E; intros H; zlia.
Qed.

Lemma snipLoop_returns (locations : list (list Z)) :
  Forall hasBothEnds locations ->
  forall smallestDiff startPos snips,
    exists r,
      snipLoop locations smallestDiff startPos snips = Ret r /\
      (r.1 = startPos \/ exists c, c ∈ locations /\ r.1 = locStart c) /\
      length r.2 = (length snips + (length locations - 1))%nat.
Proof.
  induction 1 as [| cur rest Hcur Hrest IH]; intros sd sp snips.
  - eexists. split; [reflexivity |]. simpl. split; [now left | lia].
  - cbn [snipLoop]. destruct rest as [| next rest'].
    + eexists. split; [reflexivity |]. simpl. split; [now left | lia].
    + apply Forall_cons in Hrest as [Hnext Hrest'].
      destruct (index_hasBothEnds cur Hcur) as [-> ->].
      destruct (index_hasBothEnds next Hnext) as [-> ->].
      cbn [bind].
      match goal with |- context [if ?d <? sd then _ else _] =>
        set (diff := d); destruct (diff <? sd) end.
      * destruct (IH diff (locStart cur)
                    (snips ++ [{| slLocation := locStart cur; slDiffScore := diff |}]))
          as (r & -> & Hr & Hlen).
        exists r. split; [reflexivity |]. split.
        -- right. destruct Hr as [-> | (c & Hc & ->)].
           ++ exists cur. split; [left | reflexivity].
           ++ exists c. split; [now right | reflexivity].
        -- rewrite Hlen, length_app. simpl. lia.
      * destruct (IH sd sp
                    (snips ++ [{| slLocation := locStart cur; slDiffScore := diff |}]))
          as (r & -> & Hr & Hlen).
        exists r. split; [reflexivity |]. split.
        -- destruct Hr as [-> | (c & Hc & ->)]; [now left | right].
           exists c. split; [now right | reflexivity].
        -- rewrite Hlen, length_app. simpl. lia.
Qed.

(** The start position [determineSnipLocations] computes from a start
    [x] of one of the locations. *)
Lemma determineSnipLocations_returns (locations : list (list Z)) (previousCount : Z) :
  locations <> [] -> Forall hasBothEnds locations ->
  exists x snips,
    determineSnipLocations locations previousCount
      = Ret (if previousCount <? x then Int64.sub x previousCount else 0,
             snips, sortSlice lessLocDescending locations) /\
    (exists c, c ∈ locations /\ x = locStart c) /\
    ((length locations <= 2)%nat ->
     snips = [] /\ forall c, c ∈ locations -> locStart c <= x) /\
    ((2 < length locations)%nat -> length snips = (length locations - 1)%nat).
Proof.
  intros Hne Hall. unfold determineSnipLocations.
  rewrite (sortSliceM_ok lessLocationDescending lessLocDescending hasBothEnds
             lessLocationDescending_ok) by assumption.
  cbn [bind].
  pose proof (sortSlice_Permutation lessLocDescending locations) as Hperm.
  pose proof (sortSlice_locDescends locations) as Hsorted.
  destruct (sortSlice lessLocDescending locations) as [| first rest] eqn:Esorted.
  { apply sortSlice_nil_inv in Esorted. contradiction. }
  assert (Hall' : Forall hasBothEnds (first :: rest)) by now rewrite Hperm.
  rewrite index_first. cbn [bind].
  pose proof (Forall_inv Hall') as Hfirst.
  rewrite (proj1 (index_hasBothEnds first Hfirst)). cbn [bind].
  assert (Hlen : length locations = length (first :: rest))
    by (symmetry; apply Permutation_length, Hperm).
  destruct (2 <? Z.of_nat (length (first :: rest))) eqn:E; zbool.
  - destruct (snipLoop_returns (first :: rest) Hall' MaxInt32 (locStart first) [])
      as ([x snips] & -> & Hx & Hsn).
    cbn [bind fst snd] in *. exists x, (sortSlice lessSnipLocation snips).
    split; [reflexivity |]. split; [| split].
    + destruct Hx as [-> | (c & Hc & ->)].
      * exists first. split; [rewrite <- Hperm; left | reflexivity].
      * exists c. split; [now rewrite <- Hperm | reflexivity].
    + intros Hle. rewrite Hlen in Hle. lia.
    + intros _. rewrite (Permutation_length (sortSlice_Permutation _ _)), Hsn, Hlen.
      simpl. lia.
  - cbn [bind fst snd]. exists (locStart first), [].
    split; [reflexivity |]. split; [| split].
    + exists first. split; [rewrite <- Hperm; left | reflexivity].
    + intros _. split; [reflexivity |]. intros c Hc. rewrite <- Hperm in Hc.
      apply StronglySorted_cons in Hsorted as [Hhead _].
      apply elem_of_cons in Hc as [-> | Hc]; [lia |].
      rewrite Forall_forall in Hhead. specialize (Hhead c Hc).
      unfold locDescends in Hhead. lia.
    + intros Hgt. rewrite Hlen in Hgt. lia.
Qed.

(** For locations [[start, end]] with [0 <= start <= end], at least one
    of them, and a count that is not negative, [determineSnipLocations]
    returns [max(0, x - previousCount)] for the start [x] of one of the
    locations, and leaves the slice sorted with the same locations.
    With one or two locations there are no scored locations and [x] is
    the largest start; with more there is one scored location less than
    there are locations. *)
Theorem determineSnipLocations_start (locations : list (list Z)) (previousCount : Z) :
  locations <> [] -> Forall validRange locations -> 0 <= previousCount ->
  exists x snips sorted,
    determineSnipLocations locations previousCount
      = Ret (Z.max 0 (x - previousCount), snips, sorted) /\
    (exists c, c ∈ locations /\ x = locStart c) /\
    Permutation sorted locations /\
    ((length locations <= 2)%nat ->
     snips = [] /\ forall c, c ∈ locations -> locStart c <= x) /\
    ((2 < length locations)%nat -> length snips = (length locations - 1)%nat).
Proof.
  intros Hne Hvalid Hpc.
  assert (Hboth : Forall hasBothEnds locations)
    by (eapply Forall_impl; [exact Hvalid | exact validRange_hasBothEnds]).
  destruct (determineSnipLocations_returns locations previousCount Hne Hboth)
    as (x & snips & Hret & (c & Hc & Hx) & Hfew & Hmany).
  exists x, snips, (sortSlice lessLocDescending locations).
  split; [| split; [eauto | split; [apply sortSlice_Permutation | auto]]].
  rewrite Hret. do 3 f_equal.
  rewrite Forall_forall in Hvalid.
  destruct (validRange_fields c (Hvalid c Hc)) as (_ & Hse & Hmax).
  destruct (previousCount <? x) eqn:E; zbool; [| lia].
  rewrite Int64_sub_exact by lia. lia.
Qed.

Lemma determineSnipLocations_start_witness :
  exists x snips sorted,
    determineSnipLocations [[4; 7]; [19; 22]] 1 = Ret (Z.max 0 (x - 1), snips, sorted) /\
    (exists c, c ∈ [[4; 7]; [19; 22]] /\ x = locStart c) /\
    Permutation sorted [[4; 7]; [19; 22]] /\
    snips = [] /\ (forall c, c ∈ [[4; 7]; [19; 22]] -> locStart c <= x).
Proof.
  destruct (determineSnipLocations_start [[4; 7]; [19; 22]] 1)
    as (x & snips & sorted & H & Hx & Hperm & Hfew & _).
  - discriminate.
  - repeat constructor; eexists _, _; (split; [reflexivity |]);
      unfold Int64.max_int; lia.
  - lia.
  - exists x, snips, sorted. destruct (Hfew ltac:(simpl; lia)) as [Hs Hmax]. auto.
Defined.

(** ** extractRelevantV1 *)

Lemma windowV1_in_text (textLength relLength startPos : Z) :
  0 <= startPos <= textLength -> 0 <= relLength < textLength ->
  textLength + relLength <= Int64.max_int ->
  let window := windowV1 textLength relLength startPos in
  0 <= window.1 <= window.2 /\ window.2 <= textLength /\
  window.2 - window.1 <= relLength.
Proof.
  intros Hsp Hrel Hmax. unfold windowV1.
  assert (Hmax' : textLength <= Int64.max_int) by lia.
  rewrite (Int64_sub_exact textLength startPos) by lia.
  assert (Hq : Int64.quot (textLength - startPos) 2 = (textLength - startPos) / 2 /\
               0 <= (textLength - startPos) / 2 <= textLength - startPos)
    by (apply Int64_half; lia).
  destruct Hq as [-> Hq].
  assert (Hq2 : 2 * ((textLength - startPos) / 2) <= textLength - startPos)
    by (apply Z.mul_div_le; lia).
  set (q := (textLength - startPos) / 2) in *.
  rewrite (Int64_sub_exact startPos q) by lia.
  set (sp1 := if textLength - startPos <? relLength then startPos - q else startPos).
  assert (Hsp1 : - textLength <= sp1 <= textLength /\
                 (sp1 = startPos /\ relLength <= textLength - startPos \/
                  sp1 = startPos - q /\ textLength - startPos < relLength)).
  { subst sp1. destruct (textLength - startPos <? relLength) eqn:E; zlia. }
  assert (Int64.add sp1 relLength = sp1 + relLength) as ->.
  { apply Int64_wrap_in_range.
    unfold Int64.in_range, Int64.min_int, Int64.max_int in *. lia. }
  set (ep := if textLength <? sp1 + relLength then textLength else sp1 + relLength).
  assert (Hep : ep <= textLength /\ ep <= sp1 + relLength /\
                (ep = textLength \/ ep = sp1 + relLength))
    by (subst ep; destruct (textLength <? sp1 + relLength) eqn:E; zlia).
  assert (Int64.sub ep relLength = ep - relLength) as ->.
  { apply Int64_wrap_in_range.
    unfold Int64.in_range, Int64.min_int, Int64.max_int in *. lia. }
  cbn [fst snd].
  destruct (ep <=? sp1) eqn:E1; zbool.
  - destruct (ep - relLength <? 0) eqn:E2; zbool; lia.
  - destruct (sp1 <? 0) eqn:E2; zbool; lia.
Qed.

Lemma getPrevCount_positive (relLength : Z) : 1 <= getPrevCount relLength.
Proof.
  unfold getPrevCount, calculatePrevCount. cbv zeta.
  match goal with |- context [if ?c then 50 else _] => destruct c eqn:E end; zlia.
Qed.

Lemma decorateV1_returns (textLength relLength startPos : Z) (indicator : string)
    (relText : list byte) :
  Z.of_nat (length relText) + Z.of_nat (length (list_byte_of_string indicator))
    <= Int64.max_int ->
  exists r, decorateV1 textLength relLength startPos indicator relText = Ret r.
Proof.
  intros Hlen. unfold decorateV1.
  set (text := if Int64.add startPos relLength <? textLength then _ else relText).
  assert (Htext : Z.of_nat (length text) <= Int64.max_int).
  { subst text. destruct (Int64.add startPos relLength <? textLength).
    - destruct (stringsLastIndex relText [Byte.x20] =? -1);
        rewrite length_app; lia.
    - lia. }
  destruct (startPos =? 0); [eauto |].
  cbv zeta.
  set (cut := indicatorCut text cutSeparators (stringsIndex text [Byte.x20]) 1).
  assert (Hcut : 0 <= cut.1 + cut.2 <= Z.of_nat (length text)).
  { subst cut.
    apply (indicatorCut_in_text text cutSeparators
             ltac:(repeat constructor; simpl; lia)).
    - destruct (stringsIndex_bounds text [Byte.x20]) as [Hm | [H0 _]]; lia.
    - lia.
    - destruct (stringsIndex_bounds text [Byte.x20]) as [Hm | [H0 Hfit]];
        [lia | simpl in Hfit; lia].
    - auto. }
  assert (Int64.add cut.1 cut.2 = cut.1 + cut.2) as ->.
  { apply Int64_wrap_in_range.
    unfold Int64.in_range, Int64.min_int, Int64.max_int in *. lia. }
  unfold slice.
  match goal with |- context [if ?c then _ else _] => destruct c eqn:E end;
    [| cbn [bind]; eauto].
  apply orb_true_iff in E as [E | E]; [apply orb_true_iff in E as [E | E] |]; zlia.
Qed.

Lemma determineSnipLocations_nil (previousCount : Z) :
  determineSnipLocations [] previousCount = Panic IndexOutOfRange.
Proof. reflexivity. Qed.

Lemma determineSnipLocations_Permutation (locations : list (list Z))
    (previousCount : Z) r :
  determineSnipLocations locations previousCount = Ret r ->
  Permutation r.2 locations.
Proof.
  unfold determineSnipLocations. intros H.
  apply bind_Ret in H as (sorted & Hsort & H).
  apply bind_Ret in H as (first & _ & H).
  apply bind_Ret in H as (startPos & _ & H).
  apply bind_Ret in H as (l & _ & H).
  injection H as <-. cbn [snd].
  now apply sortSliceM_Permutation in Hsort.
Qed.

Lemma extractRelevantV1_Permutation (fulltext : list byte)
    (locations : list (list Z)) (relLength : Z) (indicator : string) r :
  extractRelevantV1 fulltext locations relLength indicator = Ret r ->
  Permutation r.2 locations.
Proof.
  unfold extractRelevantV1.
  destruct (Z.of_nat (length fulltext) <=? relLength).
  - intros H. injection H as <-. reflexivity.
  - intros H.
    apply bind_Ret in H as (d & Hd & H).
    apply bind_Ret in H as (relText & _ & H).
    apply bind_Ret in H as (relText' & _ & H).
    injection H as <-. cbn [snd].
    now apply determineSnipLocations_Permutation in Hd.
Qed.

Lemma subString_length (s : list byte) (start end_ : Z) r :
  Z.of_nat (length s) <= Int64.max_int ->
  subString s start end_ = Ret r -> (length r <= length s)%nat.
Proof.
  intros Hlen. rewrite subString_cut_Ret by assumption.
  intros H. injection H as <-.
  rewrite length_take, length_drop. lia.
Qed.

Lemma extractRelevantV1_returns (fulltext : list byte)
    (locations : list (list Z)) (relLength : Z) (indicator : string) :
  Z.of_nat (length fulltext) + Z.of_nat (length (list_byte_of_string indicator))
    <= Int64.max_int ->
  locations <> [] -> Forall hasBothEnds locations ->
  exists r, extractRelevantV1 fulltext locations relLength indicator = Ret r.
Proof.
  intros Hlen Hne Hall. unfold extractRelevantV1.
  destruct (Z.of_nat (length fulltext) <=? relLength); [eauto |].
  destruct (determineSnipLocations_returns locations (getPrevCount relLength)
              Hne Hall) as (x & snips & -> & _).
  cbn [bind fst snd].
  match goal with |- context [subString ?s ?a ?b] =>
    destruct (subString s a b) as [relText |] eqn:E;
      [| rewrite subString_cut_Ret in E by lia; discriminate]
  end.
  cbn [bind].
  apply subString_length in E; [| lia].
  match goal with |- context [decorateV1 ?t ?l ?s ?i ?r] =>
    destruct (decorateV1_returns t l s i r) as [r' ->]; [lia |]
  end.
  cbn [bind]. eauto.
Qed.

(** On no location at all, [extractRelevantV1] returns exactly when the
    text is no longer than [relLength]: then it returns the whole text
    before it looks at the locations, otherwise it faults on
    [locations[0]]. *)
Theorem extractRelevantV1_no_location (fulltext : list byte) (relLength : Z)
    (indicator : string) :
  (Z.of_nat (length fulltext) <= relLength ->
   extractRelevantV1 fulltext [] relLength indicator
     = Ret ({| sContent := string_of_list_byte fulltext;
               StartPos := 0; EndPos := Z.of_nat (length fulltext) |}, [])) /\
  (relLength < Z.of_nat (length fulltext) ->
   extractRelevantV1 fulltext [] relLength indicator = Panic IndexOutOfRange).
Proof.
  unfold extractRelevantV1. split; intros H.
  - destruct (Z.of_nat (length fulltext) <=? relLength) eqn:E; zbool; [reflexivity | lia].
  - destruct (Z.of_nat (length fulltext) <=? relLength) eqn:E; zbool; [lia | reflexivity].
Qed.

(** For a text with locations [[start, end]], [0 <= start <= end], that
    start inside it, and at least one of them, [extractRelevantV1]
    returns a snippet whose positions are ordered and inside the text,
    not further apart than [relLength], and leaves the caller's slice
    with the same locations. *)
Theorem extractRelevantV1_window_in_text (fulltext : list byte)
    (locations : list (list Z)) (relLength : Z) (indicator : string) :
  2 * Z.of_nat (length fulltext) + Z.of_nat (length (list_byte_of_string indicator))
    <= Int64.max_int ->
  0 <= relLength ->
  locations <> [] -> Forall validRange locations ->
  (forall c, c ∈ locations -> locStart c <= Z.of_nat (length fulltext)) ->
  exists snip sorted,
    extractRelevantV1 fulltext locations relLength indicator = Ret (snip, sorted) /\
    0 <= StartPos snip <= EndPos snip /\
    EndPos snip <= Z.of_nat (length fulltext) /\
    EndPos snip - StartPos snip <= relLength /\
    Permutation sorted locations.
Proof.
  intros Hlen Hrel Hne Hvalid Hin.
  assert (Hboth : Forall hasBothEnds locations)
    by (eapply Forall_impl; [exact Hvalid | exact validRange_hasBothEnds]).
  destruct (extractRelevantV1_returns fulltext locations relLength indicator
              ltac:(lia) Hne Hboth) as [[snip sorted] Hret].
  exists snip, sorted. split; [exact Hret |].
  pose proof (extractRelevantV1_Permutation _ _ _ _ _ Hret) as Hperm.
  cbn [snd] in Hperm.
  revert Hret. unfold extractRelevantV1.
  destruct (Z.of_nat (length fulltext) <=? relLength) eqn:E; zbool.
  - intros H. injection H as <- <-. cbn [StartPos EndPos].
    repeat split; try lia. assumption.
  - destruct (determineSnipLocations_returns locations (getPrevCount relLength)
                Hne Hboth) as (x & snips & -> & (c & Hc & Hx) & _).
    cbn [bind fst snd]. intros H.
    apply bind_Ret in H as (relText & _ & H).
    apply bind_Ret in H as (relText' & _ & H).
    injection H as <- <-. cbn [StartPos EndPos].
    rewrite Forall_forall in Hvalid.
    destruct (validRange_fields c (Hvalid c Hc)) as (_ & Hse & Hmax).
    specialize (Hin c Hc).
    pose proof (getPrevCount_positive relLength) as Hpc.
    set (sp0 := if getPrevCount relLength <? x then _ else 0).
    assert (Hsp0 : 0 <= sp0 <= Z.of_nat (length fulltext)).
    { subst sp0. destruct (getPrevCount relLength <? x) eqn:E'; zbool; [| lia].
      rewrite Int64_sub_exact by lia. lia. }
    pose proof (windowV1_in_text (Z.of_nat (length fulltext)) relLength sp0
                  Hsp0 ltac:(lia) ltac:(lia)) as Hw.
    cbv zeta in Hw. unfold windowV1 in Hw. cbn [fst snd] in Hw.
    repeat split; try lia. assumption.
Qed.

Lemma extractRelevantV1_window_in_text_witness :
  exists snip sorted,
    extractRelevantV1 (list_byte_of_string "the cat sat on the mat")
      [[4; 7]; [19; 22]] 10 "..." = Ret (snip, sorted) /\
    0 <= StartPos snip <= EndPos snip /\
    EndPos snip <= 22 /\
    EndPos snip - StartPos snip <= 10 /\
    Permutation sorted [[4; 7]; [19; 22]].
Proof.
  apply (extractRelevantV1_window_in_text
           (list_byte_of_string "the cat sat on the mat") [[4; 7]; [19; 22]] 10 "...").
  - vm_compute. discriminate.
  - lia.
  - discriminate.
  - repeat constructor; eexists _, _; (split; [reflexivity |]);
      unfold Int64.max_int; lia.
  - intros c Hc. apply elem_of_cons in Hc as [-> | Hc];
      [vm_compute; discriminate |].
    apply elem_of_cons in Hc as [-> | Hc]; [vm_compute; discriminate |].
    apply elem_of_nil in Hc. contradiction.
Defined.

(** ** extractSnippets *)

(** [extractSnippets] returns exactly when there is at least one
    location and every location has a start and an end, also for a
    text short enough for [extractRelevantV1] not to look at the
    locations; and what it returns is two snippets. *)
Theorem extractSnippets_returns_iff (fulltext : list byte)
    (locations : list (list Z)) (relLength : Z) (indicator : string) :
  Z.of_nat (length fulltext) + Z.of_nat (length (list_byte_of_string indicator))
    <= Int64.max_int ->
  (exists v1 v2, extractSnippets fulltext locations relLength indicator
                 = Ret [v1; v2]) <->
  locations <> [] /\ Forall hasBothEnds locations.
Proof.
  intros Hlen. unfold extractSnippets. split.
  - intros (v1 & v2 & H).
    apply bind_Ret in H as (r1 & Hr1 & H).
    apply bind_Ret in H as (r2 & Hr2 & _).
    apply extractRelevantV1_Permutation in Hr1.
    destruct (extractRelevantV2_Ret_locations _ _ _ _ _ Hr2) as [Hne Hall].
    split.
    + intros ->. apply Permutation_nil_r in Hr1. contradiction.
    + now rewrite <- Hr1.
  - intros [Hne Hall].
    destruct (extractRelevantV1_returns fulltext locations relLength indicator
                Hlen Hne Hall) as [r1 Hr1].
    rewrite Hr1. cbn [bind].
    apply extractRelevantV1_Permutation in Hr1.
    assert (Hv2 : exists r2, extractRelevantV2 fulltext r1.2 relLength indicator = Ret r2).
    { apply extractRelevantV2_locations_Ret; [lia | |].
      - intros Hnil. rewrite Hnil in Hr1. symmetry in Hr1.
        apply Permutation_nil_r in Hr1. contradiction.
      - now rewrite Hr1. }
    destruct Hv2 as [r2 ->]. cbn [bind]. eauto.
Qed.

Lemma extractSnippets_returns_iff_witness :
  (exists v1 v2, extractSnippets (list_byte_of_string "the cat sat on the mat")
                   [[19; 22]; [4; 7]] 10 "..." = Ret [v1; v2]) /\
  ~ (exists v1 v2, extractSnippets (list_byte_of_string "the cat")
                     [] 10 "..." = Ret [v1; v2]).
Proof.
  split.
  - apply (extractSnippets_returns_iff
             (list_byte_of_string "the cat sat on the mat") [[19; 22]; [4; 7]] 10 "...").
    + vm_compute. discriminate.
    + split; [discriminate | repeat constructor].
  - intros H.
    apply (extractSnippets_returns_iff (list_byte_of_string "the cat") [] 10 "...") in H.
    + destruct H as [H _]. now apply H.
    + vm_compute. discriminate.
Defined.

Lemma extractRelevantV1_no_location_witness :
  extractRelevantV1 (list_byte_of_string "the cat") [] 10 "..."
    = Ret ({| sContent := "the cat"; StartPos := 0; EndPos := 7 |}, []) /\
  extractRelevantV1 (list_byte_of_string "the cat sat") [] 5 "..."
    = Panic IndexOutOfRange.
Proof.
  split.
  - apply (proj1 (extractRelevantV1_no_location
                    (list_byte_of_string "the cat") 10 "...")).
    simpl. lia.
  - apply (proj2 (extractRelevantV1_no_location
                    (list_byte_of_string "the cat sat") 5 "...")).
    simpl. lia.
Defined.
